(** * MemoryMirror: the recognition / cooldown / cache pipeline

    A shallow embedding of the algorithmic core of the MemoryMirror
    application and the proofs of its specified properties:

    - [src/recognition/cache.py]      -> [CacheEntry], [RecognitionCache]
    - [src/recognition/recognizer.py] -> [FaceRecognizer]
    - [src/video/processor.py]        -> [FrameProcessor]
    - [src/audio/manager.py]          -> [AudioManager]
    - [app.py]                        -> [MemoryMirrorApp]
    - [app_simple.py]                 -> [SimpleApp]
    - [src/recognition/detector.py]   -> [FaceDetector]

    Conventions.
    - A Python [datetime] is a count of microseconds (its resolution), a
      [Z]; [timedelta.total_seconds()] is that count over 10^6, read as an
      exact rational.
    - A Python [float] (distances, confidences, [time.time()]) is read as
      an exact rational [Q]; the one non-finite value the code creates,
      [float('inf')], is a constructor of its own ([xfloat]).
    - A Python [dict] is a [gmap]; a Python [list] is a [list].
    - A Python [str] is a [string] that holds its UTF-8 encoding.
    - A call that may raise returns an [outcome]; [try ... except] is
      [try_except].
    - Every reading of the wall clock is an explicit argument. A call on
      the cache holds the lock and reads the clock a few times within
      microseconds; it is given one reading. *)

From Stdlib Require Import ZArith QArith Qminmax Lia Lqa Sorted.
From stdpp Require Import gmap strings list fin_maps.

(** ** Exceptions *)

Inductive outcome (A : Type) : Type :=
| Returns (a : A)
| Raises.
Arguments Returns {A} a.
Arguments Raises {A}.

Definition obind {A B : Type} (m : outcome A) (k : A -> outcome B) : outcome B :=
  match m with
  | Returns a => k a
  | Raises => Raises
  end.

(** [try: body except Exception: handler] *)
Definition try_except {A : Type} (body : outcome A) (handler : A) : A :=
  match body with
  | Returns a => a
  | Raises => handler
  end.

(** ** Time and floating-point numbers *)

Abbreviation datetime := Z (only parsing).

(** [timedelta.total_seconds()] of a difference of two datetimes. *)
Definition total_seconds (delta : Z) : Q := delta # 1000000.

Definition Qlt_bool (x y : Q) : bool := negb (Qle_bool y x).

(** Python's two-argument [max(a, b)] and [min(a, b)]: the first argument
    is kept unless the second is strictly larger (smaller). *)
Definition py_max (a b : Q) : Q := if Qlt_bool a b then b else a.
Definition py_min (a b : Q) : Q := if Qlt_bool b a then b else a.

(** A float that is finite or [float('inf')]. *)
Inductive xfloat : Type :=
| Fin (q : Q)
| PInf.

(** [a < b] for a finite [a]. *)
Definition lt_xfloat (a : Q) (b : xfloat) : bool :=
  match b with
  | Fin q => Qlt_bool a q
  | PInf => true
  end.


(** ** recognizer.py: RecognitionResult *)

Module RecognitionResult.
Record t : Type := mk {
  person_id : string;
  confidence : Q;
  is_known : bool;
  timestamp : datetime;
  distance : xfloat;
  model_name : string
}.

(** The result built with the dataclass defaults [distance = 0.0] and
    [model_name = ""]. *)
Definition unknown (now : datetime) : t :=
  mk "unknown" 0 false now (Fin 0) "".
End RecognitionResult.

(** ** cache.py: CacheEntry *)

Module CacheEntry.
Record t : Type := mk {
  result : RecognitionResult.t;
  timestamp : datetime;
  frame_hash : string;
  hit_count : Z
}.

Definition with_hit_count (n : Z) (e : t) : t :=
  mk (result e) (timestamp e) (frame_hash e) n.

(** [(datetime.now() - self.timestamp).total_seconds() > ttl_seconds] *)
Definition is_expired (now : datetime) (self : t) (ttl_seconds : Z) : bool :=
  Qlt_bool (inject_Z ttl_seconds) (total_seconds (now - timestamp self)).
End CacheEntry.

(** ** cache.py: RecognitionCache *)

Module RecognitionCache.
Local Open Scope Z_scope.

Record t : Type := mk {
  max_size : Z;
  ttl_seconds : Z;
  cache : gmap string CacheEntry.t;
  access_order : list string;
  hit_count : Z;
  miss_count : Z;
  total_requests : Z;
  cleanup_interval : Z;
  last_cleanup : datetime
}.

Definition with_cache (c : gmap string CacheEntry.t) (s : t) : t :=
  mk (max_size s) (ttl_seconds s) c (access_order s) (hit_count s)
     (miss_count s) (total_requests s) (cleanup_interval s) (last_cleanup s).
Definition with_access_order (l : list string) (s : t) : t :=
  mk (max_size s) (ttl_seconds s) (cache s) l (hit_count s)
     (miss_count s) (total_requests s) (cleanup_interval s) (last_cleanup s).
Definition with_hit_count (n : Z) (s : t) : t :=
  mk (max_size s) (ttl_seconds s) (cache s) (access_order s) n
     (miss_count s) (total_requests s) (cleanup_interval s) (last_cleanup s).
Definition with_miss_count (n : Z) (s : t) : t :=
  mk (max_size s) (ttl_seconds s) (cache s) (access_order s) (hit_count s)
     n (total_requests s) (cleanup_interval s) (last_cleanup s).
Definition with_total_requests (n : Z) (s : t) : t :=
  mk (max_size s) (ttl_seconds s) (cache s) (access_order s) (hit_count s)
     (miss_count s) n (cleanup_interval s) (last_cleanup s).
Definition with_last_cleanup (d : datetime) (s : t) : t :=
  mk (max_size s) (ttl_seconds s) (cache s) (access_order s) (hit_count s)
     (miss_count s) (total_requests s) (cleanup_interval s) d.

(** [__init__]; [now] is the clock reading stored in [last_cleanup]. *)
Definition init (max_size ttl_seconds : Z) (now : datetime) : t :=
  mk max_size ttl_seconds ∅ [] 0 0 0 60 now.

(** [list.remove(x)]: drops the first occurrence. The source only calls
    it under [if x in list], which is [remove_if_in]. *)
Fixpoint list_remove (x : string) (l : list string) : list string :=
  match l with
  | [] => []
  | y :: l' => if decide (y = x) then l' else y :: list_remove x l'
  end.

Definition remove_if_in (x : string) (l : list string) : list string :=
  if decide (x ∈ l) then list_remove x l else l.

Definition _remove_entry (key : string) (self : t) : t :=
  let self :=
    match cache self !! key with
    | Some _ => with_cache (delete key (cache self)) self
    | None => self
    end in
  with_access_order (remove_if_in key (access_order self)) self.

Definition _evict_lru (self : t) : t :=
  match access_order self with
  | [] => self
  | lru_key :: _ => _remove_entry lru_key self
  end.

(** The keys collected by the first loop of [_cleanup_expired]. The
    source walks the dict in insertion order, [map_to_list] in key
    order; the second loop removes every collected key, whatever the
    order. *)
Definition expired_keys (now : datetime) (self : t) : list string :=
  (filter (fun kv => CacheEntry.is_expired now kv.2 (ttl_seconds self) = true)
          (map_to_list (cache self))).*1.

Definition _cleanup_expired (now : datetime) (self : t) : t :=
  foldl (fun s key => _remove_entry key s) self (expired_keys now self).

Definition _maybe_cleanup (now : datetime) (self : t) : t :=
  if Qlt_bool (inject_Z (cleanup_interval self))
              (total_seconds (now - last_cleanup self))
  then with_last_cleanup now (_cleanup_expired now self)
  else self.

Definition get (now : datetime) (frame_hash : string) (self : t)
  : option RecognitionResult.t * t :=
  let self := with_total_requests (total_requests self + 1) self in
  match cache self !! frame_hash with
  | None => (None, with_miss_count (miss_count self + 1) self)
  | Some entry =>
      if CacheEntry.is_expired now entry (ttl_seconds self) then
        let self := _remove_entry frame_hash self in
        (None, with_miss_count (miss_count self + 1) self)
      else
        let self :=
          with_access_order
            (remove_if_in frame_hash (access_order self) ++ [frame_hash]) self in
        let entry' :=
          CacheEntry.with_hit_count (CacheEntry.hit_count entry + 1) entry in
        let self := with_cache (<[frame_hash := entry']> (cache self)) self in
        (Some (CacheEntry.result entry),
         with_hit_count (hit_count self + 1) self)
  end.

(** [now] is both the timestamp of the new entry and the time of the
    sweep that ends the call. *)
Definition put (now : datetime) (frame_hash : string)
           (result : RecognitionResult.t) (self : t) : t :=
  let self :=
    if Z.of_nat (size (cache self)) >=? max_size self
    then _evict_lru self else self in
  let entry := CacheEntry.mk result now frame_hash 0 in
  let self := with_cache (<[frame_hash := entry]> (cache self)) self in
  let self :=
    with_access_order
      (remove_if_in frame_hash (access_order self) ++ [frame_hash]) self in
  _maybe_cleanup now self.

Definition keys_of_person (person_id : string) (self : t) : list string :=
  (filter (fun kv =>
             RecognitionResult.person_id (CacheEntry.result kv.2) = person_id)
          (map_to_list (cache self))).*1.

Definition invalidate (person_id : option string) (self : t) : t :=
  match person_id with
  | None => with_access_order [] (with_cache ∅ self)
  | Some p =>
      foldl (fun s key => _remove_entry key s) self (keys_of_person p self)
  end.

(** The calls a client can make, and their effect on the cache. *)
Inductive call : Type :=
| Get (now : datetime) (frame_hash : string)
| Put (now : datetime) (frame_hash : string) (result : RecognitionResult.t)
| Invalidate (person_id : option string).

Definition exec (c : call) (self : t) : t :=
  match c with
  | Get now h => (get now h self).2
  | Put now h r => put now h r self
  | Invalidate p => invalidate p self
  end.

Definition run (cs : list call) (self : t) : t :=
  foldl (fun s c => exec c s) self cs.

(** *** Predicates of the statements *)

(** The map and the access order hold the same fingerprints, each once
    in the access order. *)
Definition in_sync (self : t) : Prop :=
  NoDup (access_order self) ∧
  ∀ k, k ∈ access_order self ↔ is_Some (cache self !! k).

Definition bounded (self : t) : Prop :=
  Z.of_nat (size (cache self)) <= max_size self.

Definition invariant (self : t) : Prop := in_sync self ∧ bounded self.

(** No stored entry is past its time-to-live at [now]. *)
Definition fresh_at (now : datetime) (self : t) : Prop :=
  ∀ k e, cache self !! k = Some e
         → CacheEntry.is_expired now e (ttl_seconds self) = false.

(** A [put] at [now] sweeps nothing away: the sweep is not due, or
    nothing has expired. *)
Definition sweep_idle (now : datetime) (self : t) : Prop :=
  now - last_cleanup self <= cleanup_interval self * 1000000
  ∨ (0 <= ttl_seconds self ∧ fresh_at now self).

(** [self.total_requests += 1], the first statement of [get]. *)
Definition counted (self : t) : t :=
  with_total_requests (total_requests self + 1) self.

(** The second loop of [_cleanup_expired] and of [invalidate]. *)
Definition remove_all (keys : list string) (self : t) : t :=
  foldl (fun s key => _remove_entry key s) self keys.

(** The state of [put] when it reaches [_maybe_cleanup]. *)
Definition put_stored (now : datetime) (frame_hash : string)
           (result : RecognitionResult.t) (self : t) : t :=
  let self :=
    if Z.of_nat (size (cache self)) >=? max_size self
    then _evict_lru self else self in
  let entry := CacheEntry.mk result now frame_hash 0 in
  let self := with_cache (<[frame_hash := entry]> (cache self)) self in
  with_access_order
    (remove_if_in frame_hash (access_order self) ++ [frame_hash]) self.
End RecognitionCache.

(** ** recognizer.py: FaceRecognizer *)

Module FaceRecognizer.
Local Open Scope Q_scope.

(** What the recognizer takes from outside: the import guard, numpy's
    [face_image.size], [os.listdir] and, for [DeepFace.verify], the
    ['distance'] entry of its result. Both calls may raise. *)
Class Engine (Image : Type) : Type := {
  DEEPFACE_AVAILABLE : bool;
  image_size : Image → Z;
  os_listdir : string → outcome (list string);
  DeepFace_verify :
    Image → string (* img2_path *) → string (* model_name *)
    → string (* detector_backend *) → string (* distance_metric *)
    → outcome Q
}.

Record t : Type := mk {
  known_faces_path : string;
  model_name : string;
  detector_backend : string;
  confidence_threshold : Q;
  distance_metric : string;
  is_initialized : bool;
  known_persons : list string
}.

(** [str.lower()], on the ASCII letters. *)
Definition lower_ascii (c : Ascii.ascii) : Ascii.ascii :=
  let n := Ascii.nat_of_ascii c in
  if (65 <=? n)%nat && (n <=? 90)%nat then Ascii.ascii_of_nat (n + 32) else c.

Fixpoint lower (s : string) : string :=
  match s with
  | String.EmptyString => String.EmptyString
  | String.String c s' => String.String (lower_ascii c) (lower s')
  end.

Definition endswith (s suffix : string) : bool :=
  let n := String.length s in
  let m := String.length suffix in
  (m <=? n)%nat && String.eqb (String.substring (n - m) m s) suffix.

(** [f.lower().endswith(('.jpg', '.jpeg', '.png', '.bmp'))] *)
Definition is_image_file (f : string) : bool :=
  let f := lower f in
  endswith f ".jpg" || endswith f ".jpeg"
  || endswith f ".png" || endswith f ".bmp".

(** [os.path.join(a, b)] for a relative [b]. *)
Definition path_join (a b : string) : string := a +:+ "/" +:+ b.

(** [np.mean] of a non-empty list. *)
Definition np_mean (l : list Q) : Q :=
  fold_right Qplus 0 l / inject_Z (Z.of_nat (length l)).

Definition _distance_to_confidence (self : t) (distance : xfloat) : Q :=
  match distance with
  | Fin distance =>
      let confidence :=
        if String.eqb (distance_metric self) "cosine" then
          py_max 0 (1 - distance)
        else if String.eqb (distance_metric self) "euclidean" then
          py_max 0 (1 - distance / 2)
        else if String.eqb (distance_metric self) "euclidean_l2" then
          py_max 0 (1 - distance)
        else
          py_max 0 (1 - distance) in
      py_min 1 confidence
  | PInf =>
      (* 1.0 - inf and 1.0 - inf / 2.0 are -inf; max(0.0, -inf) is 0.0;
         min(1.0, 0.0) is 0.0 *)
      0
  end.

(** The values [__init__] assigns when the configuration has no entry
    for them, before any database is scanned. *)
Definition defaults : t :=
  mk "known_faces" "VGG-Face" "opencv" 0.6 "cosine" false [].

Definition with_database (persons : list string) (self : t) : t :=
  mk (known_faces_path self) (model_name self) (detector_backend self)
     (confidence_threshold self) (distance_metric self) true persons.

Definition with_distance_metric (metric : string) (self : t) : t :=
  mk (known_faces_path self) (model_name self) (detector_backend self)
     (confidence_threshold self) metric (is_initialized self)
     (known_persons self).

Section Recognize.
Context {Image : Type} `{Engine Image}.

(** The inner loop: the distances of the images that [DeepFace.verify]
    could compare; an image on which it raises is skipped. *)
Fixpoint person_distances (self : t) (face_image : Image)
         (person_path : string) (image_files : list string) : list Q :=
  match image_files with
  | [] => []
  | image_file :: rest =>
      let image_path := path_join person_path image_file in
      match DeepFace_verify face_image image_path (model_name self)
              (detector_backend self) (distance_metric self) with
      | Returns distance =>
          distance :: person_distances self face_image person_path rest
      | Raises => person_distances self face_image person_path rest
      end
  end.

(** The outer loop, on the pair [(best_distance, best_person)]. *)
Fixpoint compare_persons (self : t) (face_image : Image)
         (persons : list string) (best : xfloat * string)
  : outcome (xfloat * string) :=
  match persons with
  | [] => Returns best
  | person_id :: rest =>
      let person_path := path_join (known_faces_path self) person_id in
      obind (os_listdir person_path) (fun files =>
        let image_files := filter (fun f => is_image_file f = true) files in
        let distances :=
          person_distances self face_image person_path image_files in
        let best :=
          match distances with
          | [] => best
          | _ :: _ =>
              let avg_distance := np_mean distances in
              if lt_xfloat avg_distance best.1
              then (Fin avg_distance, person_id)
              else best
          end in
        compare_persons self face_image rest best)
  end.

(** The body of the [try] block of [recognize_face]. *)
Definition match_face (self : t) (now : datetime) (face_image : Image)
  : outcome RecognitionResult.t :=
  obind (compare_persons self face_image (known_persons self)
                         (PInf, "unknown"))
        (fun best =>
           let best_distance := best.1 in
           let best_person := best.2 in
           let confidence := _distance_to_confidence self best_distance in
           let is_known := Qle_bool (confidence_threshold self) confidence in
           let best_person := if is_known then best_person else "unknown" in
           Returns (RecognitionResult.mk best_person confidence is_known
                      now best_distance (model_name self))).

Definition recognize_face (self : t) (now : datetime)
           (face_image : option Image) : outcome RecognitionResult.t :=
  if negb DEEPFACE_AVAILABLE || negb (is_initialized self) then
    Returns (RecognitionResult.unknown now)
  else
    match face_image with
    | None => Returns (RecognitionResult.unknown now)
    | Some img =>
        if (image_size img =? 0)%Z then
          Returns (RecognitionResult.unknown now)
        else
          Returns (try_except (match_face self now img)
                              (RecognitionResult.unknown now))
    end.

(** *** Notions of the statements *)

(** The average distance of a person, when the folder can be listed
    and at least one image could be compared. *)
Definition average_distance (self : t) (face_image : Image)
           (person_id : string) : option Q :=
  let person_path := path_join (known_faces_path self) person_id in
  match os_listdir person_path with
  | Returns files =>
      match person_distances self face_image person_path
              (filter (fun f => is_image_file f = true) files) with
      | [] => None
      | d :: ds => Some (np_mean (d :: ds))
      end
  | Raises => None
  end.

(** One turn of the outer loop when the folder can be listed. *)
Definition consider (self : t) (face_image : Image) (person_id : string)
           (best : xfloat * string) : xfloat * string :=
  match average_distance self face_image person_id with
  | Some avg_distance =>
      if lt_xfloat avg_distance best.1
      then (Fin avg_distance, person_id) else best
  | None => best
  end.

(** Every folder of an enrolled person can be listed. *)
Definition gallery_readable (self : t) : Prop :=
  ∀ p, p ∈ known_persons self →
       ∃ files, os_listdir (path_join (known_faces_path self) p)
                = Returns files.
End Recognize.
End FaceRecognizer.

(** ** processor.py: FrameProcessor *)

Module FrameProcessor.
Local Open Scope Q_scope.

(** What the quality gate takes from numpy and OpenCV: [frame.size],
    [cv2.cvtColor(frame, cv2.COLOR_BGR2GRAY)],
    [cv2.Laplacian(gray, cv2.CV_64F).var()] and [np.mean(gray)]. *)
Class Vision (Frame Gray : Type) : Type := {
  frame_size : Frame → Z;
  cvtColor_BGR2GRAY : Frame → outcome Gray;
  Laplacian_var : Gray → outcome Q;
  np_mean : Gray → outcome Q
}.

Section Gate.
Context {Frame Gray : Type} `{Vision Frame Gray}.

Definition detect_blur (frame : option Frame) : Q :=
  match frame with
  | None => 0
  | Some frame =>
      try_except
        (obind (cvtColor_BGR2GRAY frame) (fun gray => Laplacian_var gray))
        0
  end.

Definition is_frame_suitable (frame : option Frame) (blur_threshold : Q)
  : outcome bool :=
  match frame with
  | None => Returns false
  | Some frame =>
      Returns
        (try_except
           (if (frame_size frame =? 0)%Z then Returns false
            else
              let blur_level := detect_blur (Some frame) in
              if Qlt_bool blur_level blur_threshold then Returns false
              else
                obind (cvtColor_BGR2GRAY frame) (fun gray =>
                obind (np_mean gray) (fun mean_brightness =>
                  if Qlt_bool mean_brightness 30
                     || Qlt_bool 225 mean_brightness
                  then Returns false
                  else Returns true)))
           false)
  end.

(** The default [blur_threshold=100.0]. *)
Definition default_blur_threshold : Q := 100.
End Gate.
End FrameProcessor.

(** ** audio/manager.py: AudioManager *)

Module AudioManager.
Local Open Scope Z_scope.

(** What the audio manager takes from outside: the import guard, the
    text-to-speech engine (which may raise, or return no file),
    [os.path.exists], and [pygame.mixer.music.load] and [play], which
    raise on a file the mixer cannot read or play. The mixer is taken
    as initialised: its [stop], [get_busy] and [pygame.time.wait] do
    not raise. *)
Class Devices : Type := {
  PYGAME_AVAILABLE : bool;
  generate_speech : string → string → outcome (option string);
  os_path_exists : string → bool;
  mixer_music_load : string → outcome unit;
  mixer_music_play : string → outcome unit
}.

(** The fields of the object, the state of [pygame.mixer.music]
    ([music_busy], what [get_busy()] returns) and the playback threads:
    [started] are the threads whose [_play_audio_file] has not been
    entered yet, [waiting] those inside its wait loop. *)
Record t : Type := mk {
  audio_enabled : bool;
  message_cooldown : Z;
  last_played : gmap string datetime;
  is_playing : bool;
  current_audio_file : option string;
  music_busy : bool;
  started : list (string * option string);
  waiting : list string
}.

(** [__init__], for a given configuration. *)
Definition init (audio_enabled : bool) (message_cooldown : Z) : t :=
  mk audio_enabled message_cooldown ∅ false None false [] [].

(** Truth value of a [str]. *)
Definition truthy (s : string) : bool := negb (String.eqb s "").

(** A [string] holds a text in UTF-8. The payload of a continuation
    byte. *)
Definition continuation (c : Ascii.ascii) : option N :=
  let b := Ascii.N_of_ascii c in
  if (128 <=? b)%N && (b <? 192)%N then Some (b - 128)%N else None.

(** U+FFFD stands for a byte that is not part of a well-formed
    sequence. *)
Definition replacement : N := 65533%N.

(** The code points of a text. *)
Fixpoint code_points (s : string) : list N :=
  match s with
  | String.EmptyString => []
  | String.String c0 s1 =>
      let b0 := Ascii.N_of_ascii c0 in
      if (b0 <? 128)%N then b0 :: code_points s1
      else if (b0 <? 194)%N then replacement :: code_points s1
      else
        match s1 with
        | String.EmptyString => [replacement]
        | String.String c1 s2 =>
            match continuation c1 with
            | None => replacement :: code_points s1
            | Some b1 =>
                if (b0 <? 224)%N then
                  ((b0 - 192) * 64 + b1)%N :: code_points s2
                else
                  match s2 with
                  | String.EmptyString => [replacement]
                  | String.String c2 s3 =>
                      match continuation c2 with
                      | None => replacement :: code_points s2
                      | Some b2 =>
                          if (b0 <? 240)%N then
                            let cp :=
                              ((b0 - 224) * 4096 + b1 * 64 + b2)%N in
                            (if (cp <? 2048)%N then replacement else cp)
                              :: code_points s3
                          else
                            match s3 with
                            | String.EmptyString => [replacement]
                            | String.String c3 s4 =>
                                match continuation c3 with
                                | None => replacement :: code_points s3
                                | Some b3 =>
                                    let cp :=
                                      ((b0 - 240) * 262144 + b1 * 4096
                                       + b2 * 64 + b3)%N in
                                    (if (cp <? 65536)%N || (1114111 <? cp)%N
                                     then replacement else cp)
                                      :: code_points s4
                                end
                            end
                      end
                  end
            end
        end
  end.

(** The characters [str.strip()] removes: the white space of Unicode,
    U+0009 to U+000D, U+001C to U+0020, U+0085, U+00A0, U+1680,
    U+2000 to U+200A, U+2028, U+2029, U+202F, U+205F and U+3000. *)
Definition py_isspace (c : N) : bool :=
  ((9 <=? c) && (c <=? 13) || (28 <=? c) && (c <=? 32)
   || (c =? 133) || (c =? 160) || (c =? 5760)
   || (8192 <=? c) && (c <=? 8202)
   || (c =? 8232) || (c =? 8233) || (c =? 8239) || (c =? 8287)
   || (c =? 12288))%N.

Definition all_space (s : string) : bool :=
  forallb py_isspace (code_points s).

(** [not message or not message.strip()] *)
Definition is_blank (message : string) : bool :=
  negb (truthy message) || all_space message.

Section Methods.
Context `{Devices}.

Definition _is_in_cooldown (now : datetime) (person_id : string)
           (self : t) : bool :=
  match last_played self !! person_id with
  | None => false
  | Some last =>
      Qlt_bool (total_seconds (now - last))
               (inject_Z (message_cooldown self))
  end.

Definition stop_current_audio (self : t) : t :=
  if PYGAME_AVAILABLE && is_playing self then
    mk (audio_enabled self) (message_cooldown self) (last_played self)
       false None false (started self) (waiting self)
  else self.

Definition start_thread (audio_file : string) (person_id : option string)
           (self : t) : t :=
  mk (audio_enabled self) (message_cooldown self) (last_played self)
     (is_playing self) (current_audio_file self) (music_busy self)
     (started self ++ [(audio_file, person_id)]) (waiting self).

Definition play_voice_message (now : datetime) (message language : string)
           (person_id : option string) (self : t) : bool * t :=
  if negb (audio_enabled self) then (false, self)
  else if negb PYGAME_AVAILABLE then (false, self)
  else if is_blank message then (false, self)
  else
    let in_cooldown :=
      match person_id with
      | Some p => truthy p && _is_in_cooldown now p self
      | None => false
      end in
    if in_cooldown then (false, self)
    else
      let self := stop_current_audio self in
      match generate_speech message language with
      | Returns (Some audio_file) =>
          if truthy audio_file
          then (true, start_thread audio_file person_id self)
          else (false, self)
      | Returns None => (false, self)
      | Raises => (false, self)
      end.

(** The [except] branch of [_play_audio_file]: the flags are reset,
    the mixer is left as it is. *)
Definition _play_audio_file_except (self : t) : t :=
  mk (audio_enabled self) (message_cooldown self) (last_played self)
     false None (music_busy self) (started self) (waiting self).

(** [_play_audio_file] up to its wait loop. A [load] that raises
    leaves the music that is playing alone; a [load] that succeeds
    replaces it, so nothing sounds when [play] raises after it. *)
Definition _play_audio_file_enter (now : datetime) (audio_file : string)
           (person_id : option string) (self : t) : t :=
  if negb (os_path_exists audio_file) then self
  else
    match mixer_music_load audio_file with
    | Raises => _play_audio_file_except self
    | Returns _ =>
        match mixer_music_play audio_file with
        | Raises =>
            _play_audio_file_except
              (mk (audio_enabled self) (message_cooldown self)
                  (last_played self) true (Some audio_file) false
                  (started self) (waiting self))
        | Returns _ =>
            let played :=
              match person_id with
              | Some p =>
                  if truthy p then <[p := now]> (last_played self)
                  else last_played self
              | None => last_played self
              end in
            mk (audio_enabled self) (message_cooldown self) played
               true (Some audio_file) true (started self)
               (waiting self ++ [audio_file])
        end
    end.

(** [_play_audio_file] after its wait loop. *)
Definition _play_audio_file_leave (self : t) : t :=
  mk (audio_enabled self) (message_cooldown self) (last_played self)
     false None (music_busy self) (started self) (waiting self).

(** What happens to the audio manager between two calls of the
    polling loop: a started thread enters [_play_audio_file], the
    mixer reaches the end of the sound, a thread leaves its wait
    loop. *)
Inductive background : t → t → Prop :=
| thread_enters now audio_file person_id rest self :
    started self = (audio_file, person_id) :: rest →
    background self
      (_play_audio_file_enter now audio_file person_id
         (mk (audio_enabled self) (message_cooldown self)
             (last_played self) (is_playing self)
             (current_audio_file self) (music_busy self)
             rest (waiting self)))
| sound_ends self :
    music_busy self = true →
    background self
      (mk (audio_enabled self) (message_cooldown self) (last_played self)
          (is_playing self) (current_audio_file self) false
          (started self) (waiting self))
| thread_leaves audio_file rest self :
    waiting self = audio_file :: rest →
    music_busy self = false →
    background self
      (_play_audio_file_leave
         (mk (audio_enabled self) (message_cooldown self)
             (last_played self) (is_playing self)
             (current_audio_file self) (music_busy self)
             (started self) rest)).
End Methods.
End AudioManager.

(** ** app.py: MemoryMirrorApp *)

Module MemoryMirrorApp.
Local Open Scope Q_scope.

(** A person profile, as far as [process_frame] looks into it:
    [None] stands for a missing attribute. *)
Record PersonProfile : Type := {
  voice_message : option string;
  language_preference : option string
}.

(** The calls [process_frame] makes on its collaborators. *)
Inductive event : Type :=
| detect_faces_called
| extract_face_region_called
| recognize_face_called
| get_person_profile_called (person_id : string)
| play_voice_message_called (message language : string).

Section App.
Context {Frame Face : Type} `{AudioManager.Devices}.

(** The collaborators. A method the object does not have
    ([hasattr] is false) is [None]. *)
Record FaceDetector : Type := {
  detect_faces : option (Frame → outcome (list Face));
  extract_face_region : option (Frame → Face → outcome (option Frame))
}.

Record FaceRecognizer : Type := {
  recognize_face :
    option (option Frame → outcome (option RecognitionResult.t))
}.

Record PersonDatabase : Type := {
  get_person_profile : option (string → outcome (option PersonProfile))
}.

Record t : Type := mk {
  face_detector : option FaceDetector;
  face_recognizer : option FaceRecognizer;
  person_database : option PersonDatabase;
  audio_manager : option AudioManager.t;
  last_recognition_time : gmap string Q;
  recognition_cooldown : Q;
  (* x, y, w, h = face_data; frame[y:y+h, x:x+w] *)
  crop : Frame → Face → outcome (option Frame);
  calls : list event
}.

Definition with_audio_manager (a : option AudioManager.t) (self : t) : t :=
  mk (face_detector self) (face_recognizer self) (person_database self)
     a (last_recognition_time self) (recognition_cooldown self)
     (crop self) (calls self).
Definition with_last_recognition_time (l : gmap string Q) (self : t) : t :=
  mk (face_detector self) (face_recognizer self) (person_database self)
     (audio_manager self) l (recognition_cooldown self)
     (crop self) (calls self).
Definition record_call (e : event) (self : t) : t :=
  mk (face_detector self) (face_recognizer self) (person_database self)
     (audio_manager self) (last_recognition_time self)
     (recognition_cooldown self) (crop self) (calls self ++ [e]).

(** The three clock readings of one [process_frame]: [time.time()] in
    [should_play_message], [datetime.now()] inside the audio manager,
    [time.time()] when the announcement is recorded. *)
Record clock : Type := {
  time_checked : Q;
  datetime_now : datetime;
  time_recorded : Q
}.

(** Computations on the application that may raise. *)
Definition M (A : Type) : Type := t → outcome A * t.
Definition ret {A} (a : A) : M A := fun self => (Returns a, self).
Definition bind {A B} (m : M A) (k : A → M B) : M B :=
  fun self =>
    match m self with
    | (Returns a, self) => k a self
    | (Raises, self) => (Raises, self)
    end.
(** A call on a collaborator, noted in [calls]. *)
Definition call {A} (e : event) (r : outcome A) : M A :=
  fun self => (r, record_call e self).
Definition try_catch {A} (m : M A) (handler : M A) : M A :=
  fun self =>
    match m self with
    | (Returns a, self) => (Returns a, self)
    | (Raises, self) => handler self
    end.
(** [if condition: body] *)
Definition when (condition : t → bool) (body : M unit) : M unit :=
  fun self => if condition self then body self else ret () self.

Local Notation "x <- m ;; k" := (bind m (fun x => k))
  (at level 100, m at next level, right associativity).

Definition should_play_message (now : Q) (person_id : string) (self : t)
  : bool :=
  let last_time := default 0 (last_recognition_time self !! person_id) in
  Qlt_bool (recognition_cooldown self) (now - last_time).

(** [self.audio_manager.play_voice_message(message, language)] *)
Definition play (now : datetime) (message language : string) : M unit :=
  fun self =>
    match audio_manager self with
    | Some a =>
        let '(_, a) :=
          AudioManager.play_voice_message now message language None a in
        (Returns (),
         with_audio_manager (Some a)
           (record_call (play_voice_message_called message language) self))
    | None => (Returns (), self)
    end.

(** The statements under [if self.should_play_message(...)]. *)
Definition announce (c : clock) (person_id : string) : M unit :=
  _ <- (fun self =>
         match person_database self with
         | Some {| get_person_profile := Some get |} =>
             (person_profile <-
                call (get_person_profile_called person_id) (get person_id) ;;
              match person_profile with
              | Some {| voice_message := Some message;
                        language_preference := language |} =>
                  play (datetime_now c) message (default "en" language)
              | _ => ret ()
              end) self
         | _ => ret () self
         end) ;;
  fun self =>
    (Returns (),
     with_last_recognition_time
       (<[person_id := time_recorded c]> (last_recognition_time self))
       self).

(** The [try] block under "Process first detected face". *)
Definition process_first_face (c : clock) (recognizer : FaceRecognizer)
           (extract : option (Frame → Face → outcome (option Frame)))
           (frame : Frame) (face_data : Face)
  : M (option RecognitionResult.t * string) :=
  face_region <-
    match extract with
    | Some extract =>
        call extract_face_region_called (extract frame face_data)
    | None => fun self => (crop self frame face_data, self)
    end ;;
  match recognize_face recognizer with
  | Some recognize =>
      recognition_result <-
        call recognize_face_called (recognize face_region) ;;
      match recognition_result with
      | Some r =>
          if RecognitionResult.is_known r then
            let person_id := RecognitionResult.person_id r in
            _ <- when (should_play_message (time_checked c) person_id)
                     (announce c person_id) ;;
            ret (Some r, "recognized")
          else ret (None, "unknown")
      | None => ret (None, "unknown")
      end
  | None => ret (None, "unknown")
  end.

Definition process_frame (c : clock) (frame : Frame)
  : M (option RecognitionResult.t * string) :=
  try_catch
    (fun self =>
       match face_detector self with
       | Some {| detect_faces := Some detect;
                 extract_face_region := extract |} =>
           (faces <- call detect_faces_called (detect frame) ;;
            match faces with
            | [] => ret (None, "ready")
            | face_data :: _ =>
                fun self =>
                  match face_recognizer self with
                  | None => ret (None, "unknown") self
                  | Some recognizer =>
                      try_catch
                        (process_first_face c recognizer extract
                                            frame face_data)
                        (ret (None, "unknown")) self
                  end
            end) self
       | _ => ret (None, "error") self
       end)
    (ret (None, "error")).

(** One step of the running application: a frame is processed, or the
    audio manager moves on in the background. *)
Inductive step : t → t → Prop :=
| frame_processed c frame self :
    step self (process_frame c frame self).2
| audio_moves a a' self :
    audio_manager self = Some a →
    AudioManager.background a a' →
    step self (with_audio_manager (Some a') self).



End App.
End MemoryMirrorApp.

(** ** app_simple.py: the voice gate of the simple application *)

Module SimpleApp.
Local Open Scope Q_scope.

(** [SimpleAudioManager.is_currently_playing]; [get_busy] is
    [pygame.mixer.music.get_busy()], which may raise. *)
Definition is_currently_playing (audio_enabled : bool)
           (get_busy : outcome bool) : bool :=
  if negb audio_enabled then false else try_except get_busy false.

(** [MemoryMirrorApp.should_play_voice_message] *)
Definition should_play_voice_message (now : Q) (person_id : string)
           (last_voice_time : gmap string Q) (voice_cooldown : Q)
           (audio_enabled : bool) (get_busy : outcome bool) : bool :=
  let last_time := default 0 (last_voice_time !! person_id) in
  let time_passed := Qlt_bool voice_cooldown (now - last_time) in
  let not_playing := negb (is_currently_playing audio_enabled get_busy) in
  time_passed && not_playing.
End SimpleApp.

(** ** Scenarios *)

Module Scenario.
(** One enrolled person, "alice", with one gallery image at the given
    distance from every query face. *)
Definition one_image_engine (distance : Q) : FaceRecognizer.Engine unit := {|
  FaceRecognizer.DEEPFACE_AVAILABLE := true;
  FaceRecognizer.image_size := fun _ => 76800%Z;
  FaceRecognizer.os_listdir := fun path =>
    if String.eqb path "known_faces/alice"
    then Returns ["photo.jpg"; "notes.txt"] else Raises;
  FaceRecognizer.DeepFace_verify := fun _ _ _ _ _ => Returns distance
|}.

Definition alice_enrolled : FaceRecognizer.t :=
  FaceRecognizer.with_database ["alice"] FaceRecognizer.defaults.

(** Synthetic frames, given by their Laplacian variance and their mean
    brightness. *)
Definition synthetic_vision : FrameProcessor.Vision (Q * Q) (Q * Q) := {|
  FrameProcessor.frame_size := fun _ => 921600%Z;
  FrameProcessor.cvtColor_BGR2GRAY := fun frame => Returns frame;
  FrameProcessor.Laplacian_var := fun gray => Returns gray.1;
  FrameProcessor.np_mean := fun gray => Returns gray.2
|}.

(** A kiosk in working order. A frame is given by the name of the
    person in view, or the empty string for nobody: the detector finds
    one face when somebody is in view, the recognizer knows the person,
    every person has a spoken greeting, speech synthesis succeeds. *)
Definition kiosk_devices : AudioManager.Devices := {|
  AudioManager.PYGAME_AVAILABLE := true;
  AudioManager.generate_speech := fun _ _ => Returns (Some "speech.mp3");
  AudioManager.os_path_exists := fun _ => true;
  AudioManager.mixer_music_load := fun _ => Returns ();
  AudioManager.mixer_music_play := fun _ => Returns ()
|}.

Definition kiosk : MemoryMirrorApp.t (Frame := string) (Face := unit) := {|
  MemoryMirrorApp.face_detector := Some {|
    MemoryMirrorApp.detect_faces := Some (fun frame =>
      Returns (if String.eqb frame "" then [] else [()]));
    MemoryMirrorApp.extract_face_region :=
      Some (fun frame _ => Returns (Some frame))
  |};
  MemoryMirrorApp.face_recognizer := Some {|
    MemoryMirrorApp.recognize_face := Some (fun face =>
      Returns (Some (RecognitionResult.mk (default "" face) 0.8 true 0
                       (Fin 0.2) "VGG-Face")))
  |};
  MemoryMirrorApp.person_database := Some {|
    MemoryMirrorApp.get_person_profile := Some (fun _ =>
      Returns (Some {| MemoryMirrorApp.voice_message := Some "Hello";
                       MemoryMirrorApp.language_preference := Some "en" |}))
  |};
  MemoryMirrorApp.audio_manager := Some (AudioManager.init true 30);
  MemoryMirrorApp.last_recognition_time := ∅;
  MemoryMirrorApp.recognition_cooldown := 30;
  MemoryMirrorApp.crop := fun _ _ => Returns None;
  MemoryMirrorApp.calls := []
|}.

(** Alice steps in front of the kiosk 100 seconds after the epoch. *)
Definition alice_announced : MemoryMirrorApp.t :=
  (MemoryMirrorApp.process_frame (H := kiosk_devices)
     {| MemoryMirrorApp.time_checked := 100;
        MemoryMirrorApp.datetime_now := 100000000;
        MemoryMirrorApp.time_recorded := 100 |}
     "alice" kiosk).2.

(** The audio manager once the playback thread has been started, and
    once that thread is playing the greeting. *)
Definition greeting_started : AudioManager.t :=
  AudioManager.mk true 30 ∅ false None false [("speech.mp3", None)] [].

Definition greeting_sounding : AudioManager.t :=
  AudioManager._play_audio_file_enter (H := kiosk_devices)
    100000000 "speech.mp3" None
    (AudioManager.mk true 30 ∅ false None false [] []).


(** An application without components, with the cooldown of 30 s. *)
Definition bare_app : MemoryMirrorApp.t (Frame := string) (Face := unit) := {|
  MemoryMirrorApp.face_detector := None;
  MemoryMirrorApp.face_recognizer := None;
  MemoryMirrorApp.person_database := None;
  MemoryMirrorApp.audio_manager := None;
  MemoryMirrorApp.last_recognition_time := ∅;
  MemoryMirrorApp.recognition_cooldown := 30;
  MemoryMirrorApp.crop := fun _ _ => Returns None;
  MemoryMirrorApp.calls := []
|}.
End Scenario.

(** ** cache.py: the statistics of RecognitionCache *)

Module RecognitionCacheStats.
Import RecognitionCache.
Local Open Scope Z_scope.

(** [int(x)] of a duration in microseconds counted in seconds: the
    fraction is dropped, towards zero. *)
Definition int_seconds (delta : Z) : Z := Z.quot delta 1000000.

(** The timestamps of [self.cache.values()]. *)
Definition timestamps (self : t) : list datetime :=
  CacheEntry.timestamp <$> (map_to_list (cache self)).*2.

Definition _get_oldest_entry_age (now : datetime) (self : t) : option Z :=
  match timestamps self with
  | [] => None
  | first :: others =>
      let oldest_time := foldr Z.min first others in
      Some (int_seconds (now - oldest_time))
  end.

(** The number of [get] calls among some calls. *)
Definition is_lookup (c : call) : bool :=
  match c with
  | Get _ _ => true
  | _ => false
  end.

Definition lookups (cs : list call) : Z :=
  Z.of_nat (length (filter (fun c => is_lookup c = true) cs)).

(** The local [hit_rate] of [get_stats], before it is rounded for
    display. *)
Definition hit_rate (self : t) : Q :=
  if total_requests self >? 0
  then (inject_Z (hit_count self) / inject_Z (total_requests self) * 100)%Q
  else 0%Q.
End RecognitionCacheStats.

(** ** cache.py: PerformanceOptimizer *)

Module PerformanceOptimizer.
Local Open Scope Z_scope.

Record t : Type := mk {
  frame_skip_count : Z;
  max_frame_skip : Z;
  last_process_time : datetime;
  target_fps : Z;
  min_process_interval : Q
}.

(** [__init__]: every third frame, ten frames a second. *)
Definition init (now : datetime) : t := mk 0 2 now 10 (1 / 10)%Q.

Definition should_process_frame (current_time : datetime) (self : t)
  : bool * t :=
  let time_since_last := total_seconds (current_time - last_process_time self) in
  if Qlt_bool time_since_last (min_process_interval self) then (false, self)
  else
    let self := mk (frame_skip_count self + 1) (max_frame_skip self)
                   (last_process_time self) (target_fps self)
                   (min_process_interval self) in
    if frame_skip_count self <=? max_frame_skip self then (false, self)
    else
      (true, mk 0 (max_frame_skip self) current_time (target_fps self)
                (min_process_interval self)).

Definition set_target_fps (fps : Z) (self : t) : t :=
  let target_fps := Z.max 1 (Z.min 30 fps) in
  mk (frame_skip_count self) (max_frame_skip self) (last_process_time self)
     target_fps (1 / inject_Z target_fps)%Q.

Definition set_frame_skip (skip_count : Z) (self : t) : t :=
  mk (frame_skip_count self) (Z.max 0 (Z.min 10 skip_count))
     (last_process_time self) (target_fps self) (min_process_interval self).

(** The answers to a series of calls, at the given clock readings. *)
Fixpoint answers (times : list datetime) (self : t) : list bool :=
  match times with
  | [] => []
  | current_time :: rest =>
      let '(answer, self) := should_process_frame current_time self in
      answer :: answers rest self
  end.

(** Readings that are each at least [interval] seconds after the one
    before, starting after [last]. *)
Fixpoint spaced (interval : Q) (last : datetime) (times : list datetime)
  : Prop :=
  match times with
  | [] => True
  | current_time :: rest =>
      (interval <= total_seconds (current_time - last))%Q
      ∧ spaced interval current_time rest
  end.
End PerformanceOptimizer.

(** ** recognizer.py: setting up the FaceRecognizer *)

Module FaceRecognizerSetup.
Import FaceRecognizer.
Local Open Scope Q_scope.

(** What [initialize_database] asks of the file system besides
    [os.listdir]. ([os.makedirs] is left out: whether it succeeds or
    raises, the call returns False and the object is the same.) *)
Class FileSystem : Type := {
  os_path_exists : string → bool;
  os_path_isdir : string → bool
}.

Definition set_confidence_threshold (threshold : Q) (self : t) : t :=
  mk (known_faces_path self) (model_name self) (detector_backend self)
     (py_max 0 (py_min 1 threshold)) (distance_metric self)
     (is_initialized self) (known_persons self).

Definition with_known_faces_path (path : string) (self : t) : t :=
  mk path (model_name self) (detector_backend self)
     (confidence_threshold self) (distance_metric self)
     (is_initialized self) (known_persons self).

Definition with_known_persons (persons : list string) (self : t) : t :=
  mk (known_faces_path self) (model_name self) (detector_backend self)
     (confidence_threshold self) (distance_metric self)
     (is_initialized self) persons.

Definition with_is_initialized (b : bool) (self : t) : t :=
  mk (known_faces_path self) (model_name self) (detector_backend self)
     (confidence_threshold self) (distance_metric self)
     b (known_persons self).

Section Setup.
Context {Image : Type} `{Engine Image} `{FileSystem}.

(** The loop of [initialize_database] over the listed names; the list
    built so far is kept when a listing raises. *)
Fixpoint scan_persons (self : t) (names : list string)
         (known_persons : list string) : outcome unit * list string :=
  match names with
  | [] => (Returns (), known_persons)
  | person_dir :: rest =>
      let person_path := path_join (known_faces_path self) person_dir in
      if os_path_isdir person_path then
        match os_listdir person_path with
        | Returns files =>
            let image_files := filter (fun f => is_image_file f = true) files in
            match image_files with
            | [] => scan_persons self rest known_persons
            | _ :: _ =>
                scan_persons self rest (known_persons ++ [person_dir])
            end
        | Raises => (Raises, known_persons)
        end
      else scan_persons self rest known_persons
  end.

Definition initialize_database (known_faces_path : option string) (self : t)
  : bool * t :=
  if negb DEEPFACE_AVAILABLE then (false, self)
  else
    let self :=
      match known_faces_path with
      | Some path =>
          if String.eqb path "" then self else with_known_faces_path path self
      | None => self
      end in
    if negb (os_path_exists (FaceRecognizer.known_faces_path self)) then
      (false, self)
    else
      let self := with_known_persons [] self in
      match os_listdir (FaceRecognizer.known_faces_path self) with
      | Raises => (false, self)
      | Returns names =>
          match scan_persons self names [] with
          | (Raises, persons) => (false, with_known_persons persons self)
          | (Returns _, persons) =>
              let self := with_known_persons persons self in
              match persons with
              | [] => (false, self)
              | _ :: _ => (true, with_is_initialized true self)
              end
          end
      end.

(** [update_database] *)
Definition update_database (self : t) : bool * t :=
  initialize_database None self.

(** A name the scan enrols: a folder under [path] that can be listed
    and holds at least one image file. *)
Definition enrollable (path person_dir : string) : Prop :=
  os_path_isdir (path_join path person_dir) = true
  ∧ ∃ files,
      os_listdir (path_join path person_dir) = Returns files
      ∧ ∃ f, f ∈ files ∧ is_image_file f = true.
End Setup.
End FaceRecognizerSetup.

(** ** detector.py: FaceDetector *)

Module FaceDetector.
Local Open Scope Z_scope.

(** The dictionary [detect_faces] builds for one face. *)
Record face : Type := mk {
  id : Z;
  x : Z;
  y : Z;
  width : Z;
  height : Z;
  center_x : Z;
  center_y : Z;
  area : Z;
  confidence : Q
}.

(** Arithmetic on the [int32] entries of the array that
    [detectMultiScale] returns wraps around. *)
Definition int32 (n : Z) : Z := (n + 2 ^ 31) mod 2 ^ 32 - 2 ^ 31.

(** What the detector takes from OpenCV. [_calculate_face_confidence]
    catches what it raises, so it always gives a number. *)
Class Cascade (Frame Gray : Type) : Type := {
  cvtColor_BGR2GRAY : Frame → outcome Gray;
  detectMultiScale : Gray → outcome (list (Z * Z * Z * Z));
  _calculate_face_confidence : Gray → Z → Z → Z → Z → Q
}.

(** [face_list.sort(key=lambda f: f['area'], reverse=True)]: the sort
    of Python is stable, also in reverse, so a face goes behind the
    faces of a larger area and in front of the later faces of the
    same or a smaller area. *)
Fixpoint insert_by_area (f : face) (sorted : list face) : list face :=
  match sorted with
  | [] => [f]
  | g :: rest =>
      if area f <? area g then g :: insert_by_area f rest
      else f :: g :: rest
  end.

Definition sort_by_area_reverse (face_list : list face) : list face :=
  foldr insert_by_area [] face_list.

Section Detect.
Context {Frame Gray : Type} `{Cascade Frame Gray}.

Definition face_info (gray : Gray) (i : nat) (rect : Z * Z * Z * Z) : face :=
  let '(x, y, w, h) := rect in
  mk (Z.of_nat i) x y w h
     (int32 (x + w `div` 2)) (int32 (y + h `div` 2)) (int32 (w * h))
     (_calculate_face_confidence gray x y w h).

(** [detect_faces]; [face_cascade] says whether the classifier is
    there. *)
Definition detect_faces (face_cascade : bool) (frame : option Frame)
  : list face :=
  match frame with
  | None => []
  | Some frame =>
      if negb face_cascade then []
      else
        try_except
          (obind (cvtColor_BGR2GRAY frame) (fun gray =>
           obind (detectMultiScale gray) (fun faces =>
           Returns (sort_by_area_reverse (imap (face_info gray) faces)))))
          []
  end.
End Detect.

(** [filter_faces_by_quality] *)
Definition filter_faces_by_quality (faces : list face) (min_confidence : Q)
           (min_size : Z) : list face :=
  filter (fun face =>
            negb (Qlt_bool (confidence face) min_confidence)
            && negb (area face <? min_size) = true) faces.

(** [get_largest_face] *)
Definition get_largest_face (faces : list face) : option face :=
  match faces with
  | [] => None
  | face :: _ => Some face
  end.

(** The bounds of [a[start:stop]] on an axis of length [n]: a
    negative index counts from the end, and both are cut to the
    axis. *)
Definition np_slice (n start stop : Z) : Z * Z :=
  let bound i := if i <? 0 then Z.max 0 (i + n) else Z.min i n in
  (bound start, bound stop).

Definition slice_length (bounds : Z * Z) : Z :=
  Z.max 0 (bounds.2 - bounds.1).

(** The rows and the columns that [extract_face_region] cuts out of a
    frame of the given shape. *)
Definition face_window (rows cols : Z) (face_coords : face)
  : (Z * Z) * (Z * Z) :=
  let padding := 20 in
  let x_start := Z.max 0 (x face_coords - padding) in
  let y_start := Z.max 0 (y face_coords - padding) in
  let x_end := Z.min cols (x face_coords + width face_coords + padding) in
  let y_end := Z.min rows (y face_coords + height face_coords + padding) in
  (np_slice rows y_start y_end, np_slice cols x_start x_end).

(** The shape (rows, columns) of what [extract_face_region] returns
    for a frame with at least one channel: the region is resized to
    160 by 160 unless it is empty. *)
Definition extract_face_region_shape (rows cols : Z) (face_coords : face)
  : Z * Z :=
  let '(r, c) := face_window rows cols face_coords in
  if 0 <? slice_length r * slice_length c then (160, 160)
  else (slice_length r, slice_length c).

(** Largest first, and among faces of one area in the order of
    detection. *)
Definition before (f g : face) : Prop :=
  area g < area f ∨ (area g = area f ∧ id f < id g).
End FaceDetector.

(** ** More scenarios *)

Module Fixture.
(** A gallery folder with two persons, one of them without any image,
    and a stray file. Every comparison gives distance 0.3. *)
Definition gallery_engine : FaceRecognizer.Engine unit := {|
  FaceRecognizer.DEEPFACE_AVAILABLE := true;
  FaceRecognizer.image_size := fun _ => 76800%Z;
  FaceRecognizer.os_listdir := fun path =>
    if String.eqb path "known_faces"
    then Returns ["alice"; "bob"; "README.md"]
    else if String.eqb path "known_faces/alice"
    then Returns ["photo.JPG"; "notes.txt"]
    else if String.eqb path "known_faces/bob"
    then Returns []
    else Raises;
  FaceRecognizer.DeepFace_verify := fun _ _ _ _ _ => Returns 0.3%Q
|}.

(** Two enrolled persons whose images are equally far from every face. *)
Definition twins_engine : FaceRecognizer.Engine unit := {|
  FaceRecognizer.DEEPFACE_AVAILABLE := true;
  FaceRecognizer.image_size := fun _ => 76800%Z;
  FaceRecognizer.os_listdir := fun path =>
    if String.eqb path "known_faces/alice" then Returns ["a.jpg"]
    else if String.eqb path "known_faces/bob" then Returns ["b.png"]
    else Raises;
  FaceRecognizer.DeepFace_verify := fun _ _ _ _ _ => Returns 0.3%Q
|}.

Definition twins_enrolled : FaceRecognizer.t :=
  FaceRecognizer.with_database ["alice"; "bob"] FaceRecognizer.defaults.

(** A detector that finds three faces, two of them of the same size. *)
Definition three_faces : FaceDetector.Cascade unit unit := {|
  FaceDetector.cvtColor_BGR2GRAY := fun _ => Returns ();
  FaceDetector.detectMultiScale := fun _ =>
    Returns [(10, 10, 50, 50); (200, 40, 80, 80); (400, 100, 80, 80)]%Z;
  FaceDetector._calculate_face_confidence := fun _ _ _ w _ =>
    if (w <? 60)%Z then 0.2%Q else 0.6%Q
|}.




(** Speech synthesis writes a file that the mixer cannot load. *)
Definition unreadable_devices : AudioManager.Devices := {|
  AudioManager.PYGAME_AVAILABLE := true;
  AudioManager.generate_speech := fun _ _ => Returns (Some "speech.mp3");
  AudioManager.os_path_exists := fun _ => true;
  AudioManager.mixer_music_load := fun _ => Raises;
  AudioManager.mixer_music_play := fun _ => Returns ()
|}.

(** A message that consists of one no-break space, U+00A0. *)
Definition no_break_space : string :=
  String.String (Ascii.ascii_of_nat 194)
    (String.String (Ascii.ascii_of_nat 160) String.EmptyString).

(** Working playback, but speech synthesis returns no file. *)
Definition mute_devices : AudioManager.Devices := {|
  AudioManager.PYGAME_AVAILABLE := true;
  AudioManager.generate_speech := fun _ _ => Returns None;
  AudioManager.os_path_exists := fun _ => true;
  AudioManager.mixer_music_load := fun _ => Returns ();
  AudioManager.mixer_music_play := fun _ => Returns ()
|}.

Definition gallery_files : FaceRecognizerSetup.FileSystem := {|
  FaceRecognizerSetup.os_path_exists := fun path =>
    String.eqb path "known_faces";
  FaceRecognizerSetup.os_path_isdir := fun path =>
    String.eqb path "known_faces/alice" || String.eqb path "known_faces/bob"
|}.
End Fixture.

(** ** manager.py: the controls of AudioManager *)

Module AudioManagerControls.
Import AudioManager.
Local Open Scope Z_scope.

Section Controls.
Context `{Devices}.

(** [disable_audio] *)
Definition disable_audio (self : t) : t :=
  let self := stop_current_audio self in
  mk false (message_cooldown self) (last_played self) (is_playing self)
     (current_audio_file self) (music_busy self) (started self)
     (waiting self).

(** [enable_audio]; the mixer is taken as initialised. *)
Definition enable_audio (self : t) : t :=
  mk true (message_cooldown self) (last_played self) (is_playing self)
     (current_audio_file self) (music_busy self) (started self)
     (waiting self).

(** [set_message_cooldown] *)
Definition set_message_cooldown (seconds : Z) (self : t) : t :=
  mk (audio_enabled self) (Z.max 0 seconds) (last_played self)
     (is_playing self) (current_audio_file self) (music_busy self)
     (started self) (waiting self).

(** [clear_cooldown_history] *)
Definition clear_cooldown_history (self : t) : t :=
  mk (audio_enabled self) (message_cooldown self) ∅ (is_playing self)
     (current_audio_file self) (music_busy self) (started self)
     (waiting self).

(** [get_last_played_time] *)
Definition get_last_played_time (person_id : string) (self : t)
  : option datetime :=
  last_played self !! person_id.

(** What a caller or a playback thread can do to the audio manager. *)
Inductive step : t → t → Prop :=
| moves self self' :
    background self self' → step self self'
| plays now message language person_id self :
    step self (play_voice_message now message language person_id self).2
| stops self :
    step self (stop_current_audio self)
| disables self :
    step self (disable_audio self)
| enables self :
    step self (enable_audio self)
| sets_cooldown seconds self :
    step self (set_message_cooldown seconds self)
| clears self :
    step self (clear_cooldown_history self).

(** The flags of the object agree with each other and with the
    threads: [is_playing] is set exactly when [current_audio_file]
    names a file, and only while some thread is in the wait loop of
    [_play_audio_file]. *)
Definition consistent (self : t) : Prop :=
  (is_playing self = true ↔ is_Some (current_audio_file self))
  ∧ (is_playing self = true → waiting self ≠ []).

(** Speech synthesis gave no usable file: it raised, or it returned
    [None] or an empty name. *)
Definition synthesis_failed (message language : string) : Prop :=
  ∀ audio_file, generate_speech message language = Returns (Some audio_file) →
                truthy audio_file = false.
End Controls.
End AudioManagerControls.

(** * Proofs *)

(** ** Comparisons *)

Lemma Qlt_bool_iff (x y : Q) : Qlt_bool x y = true ↔ (x < y)%Q.
Proof.
  unfold Qlt_bool. rewrite negb_true_iff. split.
  - intros H. apply Qnot_le_lt. intros Hle.
    apply Qle_bool_iff in Hle. congruence.
  - intros H. destruct (Qle_bool y x) eqn:E; [|done].
    apply Qle_bool_iff in E. exfalso. by eapply Qlt_not_le.
Qed.

Lemma Qlt_bool_false_iff (x y : Q) : Qlt_bool x y = false ↔ (y <= x)%Q.
Proof.
  unfold Qlt_bool. rewrite negb_false_iff. apply Qle_bool_iff.
Qed.

(** A whole number of seconds against a duration in microseconds. *)
Lemma seconds_lt_total_seconds (secs delta : Z) :
  Qlt_bool (inject_Z secs) (total_seconds delta) = true
  ↔ (secs * 1000000 < delta)%Z.
Proof.
  rewrite Qlt_bool_iff. unfold Qlt, total_seconds, inject_Z. simpl. lia.
Qed.

Lemma total_seconds_lt_seconds (secs delta : Z) :
  Qlt_bool (total_seconds delta) (inject_Z secs) = true
  ↔ (delta < secs * 1000000)%Z.
Proof.
  rewrite Qlt_bool_iff. unfold Qlt, total_seconds, inject_Z. simpl. lia.
Qed.

Module CacheFacts.
Import RecognitionCache.
Local Open Scope Z_scope.
#[local] Arguments _remove_entry : simpl never.
#[local] Arguments _maybe_cleanup : simpl never.

Lemma is_expired_iff now e ttl :
  CacheEntry.is_expired now e ttl = true
  ↔ ttl * 1000000 < now - CacheEntry.timestamp e.
Proof. apply seconds_lt_total_seconds. Qed.

Lemma is_expired_false_iff now e ttl :
  CacheEntry.is_expired now e ttl = false
  ↔ now - CacheEntry.timestamp e <= ttl * 1000000.
Proof.
  destruct (CacheEntry.is_expired now e ttl) eqn:E.
  - apply is_expired_iff in E. split; [done | lia].
  - split; [|done]. intros _.
    destruct (Z_lt_le_dec (ttl * 1000000) (now - CacheEntry.timestamp e))
      as [Hlt|Hle]; [|done].
    apply is_expired_iff in Hlt. congruence.
Qed.

(** *** [list.remove] *)

Lemma list_remove_notin x l : x ∉ l → list_remove x l = l.
Proof.
  induction l as [|y l IH]; [done|]. intros Hn. simpl.
  case_decide as E; [subst; set_solver|].
  f_equal. apply IH. set_solver.
Qed.

Lemma remove_if_in_eq x l : remove_if_in x l = list_remove x l.
Proof.
  unfold remove_if_in. case_decide; [done|]. by rewrite list_remove_notin.
Qed.

Lemma elem_of_list_remove x y l :
  NoDup l → y ∈ list_remove x l ↔ y ∈ l ∧ y ≠ x.
Proof.
  induction l as [|z l IH]; intros Hnd; simpl.
  - set_solver.
  - apply NoDup_cons in Hnd as [Hz Hnd]. case_decide as E.
    + subst z. split.
      * intros Hy. split; [set_solver|]. intros ->. done.
      * intros [Hy Hne]. set_solver.
    + rewrite !elem_of_cons, (IH Hnd). naive_solver.
Qed.

Lemma list_remove_subseteq x l : list_remove x l ⊆ l.
Proof.
  induction l as [|z l IH]; simpl; [done|].
  case_decide; set_solver.
Qed.

Lemma NoDup_list_remove x l : NoDup l → NoDup (list_remove x l).
Proof.
  induction l as [|z l IH]; intros Hnd; simpl; [done|].
  apply NoDup_cons in Hnd as [Hz Hnd]. case_decide; [done|].
  apply NoDup_cons. split; [|by apply IH].
  intros Hin. apply Hz. by apply (list_remove_subseteq x).
Qed.

Lemma list_remove_head x l : list_remove x (x :: l) = l.
Proof. simpl. by rewrite decide_True. Qed.

(** *** Removing an entry *)

Lemma cache_remove_entry key s :
  cache (_remove_entry key s) = delete key (cache s).
Proof.
  unfold _remove_entry. destruct (cache s !! key) eqn:E; simpl; [done|].
  symmetry. by apply delete_id.
Qed.

Lemma access_order_remove_entry key s :
  access_order (_remove_entry key s) = list_remove key (access_order s).
Proof.
  unfold _remove_entry. rewrite remove_if_in_eq.
  by destruct (cache s !! key).
Qed.

Lemma max_size_remove_entry key s :
  max_size (_remove_entry key s) = max_size s.
Proof. unfold _remove_entry. by destruct (cache s !! key). Qed.

Lemma ttl_remove_entry key s :
  ttl_seconds (_remove_entry key s) = ttl_seconds s.
Proof. unfold _remove_entry. by destruct (cache s !! key). Qed.

Lemma in_sync_remove_entry key s :
  in_sync s → in_sync (_remove_entry key s).
Proof.
  intros [Hnd Hiff]. split.
  - rewrite access_order_remove_entry. by apply NoDup_list_remove.
  - intros k. rewrite access_order_remove_entry, cache_remove_entry.
    rewrite (elem_of_list_remove _ _ _ Hnd), Hiff.
    destruct (decide (key = k)) as [->|Hne].
    + rewrite lookup_delete_eq. split; [naive_solver|].
      intros [? ?]; done.
    + rewrite lookup_delete_ne by done. naive_solver.
Qed.

Lemma size_remove_entry key s :
  (size (cache (_remove_entry key s)) ≤ size (cache s))%nat.
Proof.
  rewrite cache_remove_entry, map_size_delete.
  destruct (cache s !! key); simpl; lia.
Qed.

(** The number of entries is the length of the access order. *)
Lemma in_sync_size s :
  in_sync s → size (cache s) = length (access_order s).
Proof.
  intros [Hnd Hiff].
  rewrite <- (size_dom (D := gset string)).
  rewrite <- (size_list_to_set (C := gset string)) by done.
  f_equal. apply set_eq. intros k.
  rewrite elem_of_dom, elem_of_list_to_set. by rewrite Hiff.
Qed.

(** *** Sweeps: removing a list of keys *)

Lemma remove_all_in_sync keys s : in_sync s → in_sync (remove_all keys s).
Proof.
  revert s. induction keys as [|k keys IH]; intros s Hs; simpl; [done|].
  apply IH. by apply in_sync_remove_entry.
Qed.

Lemma remove_all_size keys s :
  (size (cache (remove_all keys s)) ≤ size (cache s))%nat.
Proof.
  revert s. induction keys as [|k keys IH]; intros s; simpl; [done|].
  etrans; [apply IH | apply size_remove_entry].
Qed.

Lemma remove_all_max_size keys s : max_size (remove_all keys s) = max_size s.
Proof.
  revert s. induction keys as [|k keys IH]; intros s; simpl; [done|].
  by rewrite IH, max_size_remove_entry.
Qed.

Lemma remove_all_lookup keys s k :
  cache (remove_all keys s) !! k
  = if decide (k ∈ keys) then None else cache s !! k.
Proof.
  revert s. induction keys as [|k' keys IH]; intros s; simpl; [done|].
  rewrite IH, cache_remove_entry.
  destruct (decide (k ∈ keys)) as [Hin|Hnin].
  - rewrite decide_True by set_solver. done.
  - destruct (decide (k = k')) as [->|Hne].
    + rewrite decide_True by set_solver. apply lookup_delete_eq.
    + rewrite decide_False by set_solver. by apply lookup_delete_ne.
Qed.

Lemma elem_of_expired_keys now s k :
  k ∈ expired_keys now s
  ↔ ∃ e, cache s !! k = Some e
         ∧ CacheEntry.is_expired now e (ttl_seconds s) = true.
Proof.
  unfold expired_keys. rewrite list_elem_of_fmap. split.
  - intros [[k' e] [-> Hin]]. apply list_elem_of_filter in Hin as [Hexp Hin].
    apply elem_of_map_to_list in Hin. by exists e.
  - intros [e [Hk Hexp]]. exists (k, e). split; [done|].
    apply list_elem_of_filter. split; [done|]. by apply elem_of_map_to_list.
Qed.

(** A sweep keeps exactly the entries that are not expired. *)
Lemma cleanup_expired_lookup now s k :
  cache (_cleanup_expired now s) !! k
  = match cache s !! k with
    | Some e =>
        if CacheEntry.is_expired now e (ttl_seconds s) then None else Some e
    | None => None
    end.
Proof.
  unfold _cleanup_expired. fold (remove_all (expired_keys now s) s).
  rewrite remove_all_lookup. case_decide as Hin.
  - apply elem_of_expired_keys in Hin as [e [-> ->]]. done.
  - destruct (cache s !! k) as [e|] eqn:Hk; [|done].
    destruct (CacheEntry.is_expired now e (ttl_seconds s)) eqn:Hexp; [|done].
    exfalso. apply Hin, elem_of_expired_keys. by exists e.
Qed.

(** Nothing to sweep: the cache is left as it is. *)
Lemma cleanup_expired_nothing now s :
  (∀ k e, cache s !! k = Some e
          → CacheEntry.is_expired now e (ttl_seconds s) = false)
  → _cleanup_expired now s = s.
Proof.
  intros Hfresh. unfold _cleanup_expired.
  assert (expired_keys now s = []) as ->; [|done].
  apply elem_of_nil_inv. intros k Hin.
  apply elem_of_expired_keys in Hin as [e [Hk Hexp]].
  rewrite (Hfresh _ _ Hk) in Hexp. done.
Qed.

Lemma maybe_cleanup_in_sync now s : in_sync s → in_sync (_maybe_cleanup now s).
Proof.
  intros Hs. unfold _maybe_cleanup. case_match; [|done].
  by apply (remove_all_in_sync (expired_keys now s)) in Hs.
Qed.

Lemma maybe_cleanup_size now s :
  (size (cache (_maybe_cleanup now s)) ≤ size (cache s))%nat.
Proof.
  unfold _maybe_cleanup. case_match; [|done].
  apply (remove_all_size (expired_keys now s)).
Qed.

Lemma maybe_cleanup_max_size now s :
  max_size (_maybe_cleanup now s) = max_size s.
Proof.
  unfold _maybe_cleanup. case_match; [|done].
  apply (remove_all_max_size (expired_keys now s)).
Qed.

Lemma maybe_cleanup_lookup_None now s k :
  cache s !! k = None → cache (_maybe_cleanup now s) !! k = None.
Proof.
  intros Hk. unfold _maybe_cleanup. case_match; [|done]. simpl.
  by rewrite cleanup_expired_lookup, Hk.
Qed.

Lemma maybe_cleanup_idle now s :
  now - last_cleanup s <= cleanup_interval s * 1000000 ∨ fresh_at now s →
  _maybe_cleanup now s = s ∨ _maybe_cleanup now s = with_last_cleanup now s.
Proof.
  intros Hidle. unfold _maybe_cleanup.
  destruct (Qlt_bool _ _) eqn:Hdue; [|by left].
  apply seconds_lt_total_seconds in Hdue.
  destruct Hidle as [Hnot|Hfresh]; [lia|].
  right. by rewrite cleanup_expired_nothing.
Qed.

(** *** Storing an entry *)

Lemma in_sync_store k e s s' :
  in_sync s →
  cache s' = <[k := e]> (cache s) →
  access_order s' = remove_if_in k (access_order s) ++ [k] →
  in_sync s'.
Proof.
  intros [Hnd Hiff] Hc Ho. rewrite remove_if_in_eq in Ho. split.
  - rewrite Ho. apply NoDup_app. split; [by apply NoDup_list_remove|].
    split; [|apply NoDup_singleton].
    intros x Hx. apply elem_of_list_remove in Hx as [_ Hne]; [|done].
    set_solver.
  - intros x. rewrite Ho, Hc, elem_of_app, list_elem_of_singleton.
    rewrite (elem_of_list_remove _ _ _ Hnd), Hiff.
    destruct (decide (k = x)) as [->|Hne].
    + rewrite lookup_insert_eq. split; [eauto|by right].
    + rewrite lookup_insert_ne by done. naive_solver.
Qed.

Lemma in_sync_evict_lru s : in_sync s → in_sync (_evict_lru s).
Proof.
  intros Hs. unfold _evict_lru. destruct (access_order s); [done|].
  by apply in_sync_remove_entry.
Qed.

(** Eviction removes the front of the access order, from the map too. *)
Lemma evict_lru_front s k rest :
  access_order s = k :: rest →
  cache (_evict_lru s) = delete k (cache s)
  ∧ access_order (_evict_lru s) = rest.
Proof.
  intros Ho. unfold _evict_lru. rewrite Ho.
  rewrite cache_remove_entry, access_order_remove_entry, Ho.
  by rewrite list_remove_head.
Qed.

Lemma put_unfold now k r s :
  put now k r s = _maybe_cleanup now (put_stored now k r s).
Proof. done. Qed.

Lemma put_stored_in_sync now k r s :
  in_sync s → in_sync (put_stored now k r s).
Proof.
  intros Hs. unfold put_stored.
  set (s0 := if _ >=? _ then _evict_lru s else s).
  assert (in_sync s0) as Hs0.
  { subst s0. case_match; [by apply in_sync_evict_lru | done]. }
  by eapply in_sync_store.
Qed.

Lemma put_stored_max_size now k r s :
  max_size (put_stored now k r s) = max_size s.
Proof.
  unfold put_stored, _evict_lru. simpl.
  case_match; [|done]. destruct (access_order s); [done|].
  apply max_size_remove_entry.
Qed.

Lemma put_stored_bounded now k r s :
  1 <= max_size s → in_sync s → bounded s → bounded (put_stored now k r s).
Proof.
  unfold bounded. intros Hmax Hs Hb.
  rewrite put_stored_max_size. unfold put_stored. simpl.
  rewrite map_size_insert.
  destruct (Z.of_nat (size (cache s)) >=? max_size s) eqn:Hfull.
  - rewrite Z.geb_leb in Hfull. apply Z.leb_le in Hfull.
    pose proof (in_sync_size s Hs) as Hlen.
    destruct (access_order s) as [|lru rest] eqn:Ho; [simpl in Hlen; lia|].
    destruct (evict_lru_front s lru rest Ho) as [Hc _]. rewrite Hc.
    assert (is_Some (cache s !! lru)) as Hin.
    { apply Hs. rewrite Ho. set_solver. }
    rewrite (map_size_delete_Some _ _ Hin).
    destruct (delete lru (cache s) !! k); simpl; lia.
  - rewrite Z.geb_leb in Hfull. apply Z.leb_gt in Hfull.
    destruct (cache s !! k); simpl; lia.
Qed.

(** *** The invariant along every run *)

Lemma put_invariant now k r s :
  1 <= max_size s → invariant s → invariant (put now k r s).
Proof.
  intros Hmax [Hs Hb]. rewrite put_unfold. split.
  - by apply maybe_cleanup_in_sync, put_stored_in_sync.
  - pose proof (put_stored_bounded now k r s Hmax Hs Hb) as Hb'.
    unfold bounded in *. rewrite maybe_cleanup_max_size.
    pose proof (maybe_cleanup_size now (put_stored now k r s)). lia.
Qed.

Lemma put_max_size now k r s : max_size (put now k r s) = max_size s.
Proof. by rewrite put_unfold, maybe_cleanup_max_size, put_stored_max_size. Qed.

(** *** The three ways through [get] *)

Lemma get_absent now k s :
  cache s !! k = None →
  get now k s = (None, with_miss_count (miss_count s + 1) (counted s)).
Proof. intros Hk. unfold get. cbn. by rewrite Hk. Qed.

Lemma get_expired now k s e :
  cache s !! k = Some e →
  CacheEntry.is_expired now e (ttl_seconds s) = true →
  get now k s
  = (None, with_miss_count (miss_count s + 1) (_remove_entry k (counted s))).
Proof.
  intros Hk Hexp. unfold get. cbn. rewrite Hk, Hexp.
  unfold _remove_entry. cbn. by rewrite Hk.
Qed.

Lemma get_hit now k s e :
  cache s !! k = Some e →
  CacheEntry.is_expired now e (ttl_seconds s) = false →
  get now k s
  = (Some (CacheEntry.result e),
     with_hit_count (hit_count s + 1)
       (with_cache
          (<[k := CacheEntry.with_hit_count (CacheEntry.hit_count e + 1) e]>
             (cache s))
          (with_access_order (remove_if_in k (access_order s) ++ [k])
             (counted s)))).
Proof. intros Hk Hexp. unfold get. cbn. by rewrite Hk, Hexp. Qed.

Lemma get_max_size now k s : max_size (get now k s).2 = max_size s.
Proof.
  destruct (cache s !! k) as [e|] eqn:Hk.
  - destruct (CacheEntry.is_expired now e (ttl_seconds s)) eqn:Hexp.
    + rewrite (get_expired _ _ _ _ Hk Hexp). cbn.
      by rewrite max_size_remove_entry.
    + by rewrite (get_hit _ _ _ _ Hk Hexp).
  - by rewrite (get_absent _ _ _ Hk).
Qed.

Lemma get_invariant now k s : invariant s → invariant (get now k s).2.
Proof.
  intros [Hs Hb].
  destruct (cache s !! k) as [e|] eqn:Hk.
  - destruct (CacheEntry.is_expired now e (ttl_seconds s)) eqn:Hexp.
    + rewrite (get_expired _ _ _ _ Hk Hexp). split.
      * by apply (in_sync_remove_entry k (counted s)).
      * unfold bounded in *. cbn.
        pose proof (size_remove_entry k (counted s)) as Hle.
        rewrite max_size_remove_entry. cbn in *. lia.
    + rewrite (get_hit _ _ _ _ Hk Hexp). split.
      * by eapply in_sync_store.
      * unfold bounded in *. cbn.
        rewrite map_size_insert_Some by eauto. done.
  - by rewrite (get_absent _ _ _ Hk).
Qed.

Lemma invalidate_max_size p s : max_size (invalidate p s) = max_size s.
Proof.
  destruct p as [p|]; [|done]. apply (remove_all_max_size (keys_of_person p s)).
Qed.

Lemma invalidate_invariant p s :
  0 <= max_size s → invariant s → invariant (invalidate p s).
Proof.
  intros Hmax [Hs Hb]. destruct p as [p|]; simpl.
  - split.
    + by apply (remove_all_in_sync (keys_of_person p s)).
    + unfold bounded in *.
      pose proof (remove_all_size (keys_of_person p s) s) as Hle.
      fold (remove_all (keys_of_person p s) s).
      rewrite remove_all_max_size. lia.
  - split.
    + split; simpl; [apply NoDup_nil_2|].
      intros k. rewrite lookup_empty. split; [set_solver|].
      intros [? ?]; done.
    + unfold bounded. simpl. rewrite map_size_empty. done.
Qed.

Lemma exec_in_sync c s : in_sync s → in_sync (exec c s).
Proof.
  intros Hs. destruct c as [now k|now k r|p]; simpl.
  - destruct (cache s !! k) as [e|] eqn:Hk.
    + destruct (CacheEntry.is_expired now e (ttl_seconds s)) eqn:Hexp.
      * rewrite (get_expired _ _ _ _ Hk Hexp).
        by apply (in_sync_remove_entry k (counted s)).
      * rewrite (get_hit _ _ _ _ Hk Hexp). by eapply in_sync_store.
    + by rewrite (get_absent _ _ _ Hk).
  - rewrite put_unfold. by apply maybe_cleanup_in_sync, put_stored_in_sync.
  - destruct p as [p|].
    + by apply (remove_all_in_sync (keys_of_person p s)).
    + split; simpl; [apply NoDup_nil_2|].
      intros k. rewrite lookup_empty. split; [set_solver|].
      intros [? ?]; done.
Qed.

Lemma exec_max_size c s : max_size (exec c s) = max_size s.
Proof.
  destruct c as [now k|now k r|p]; simpl;
    [apply get_max_size | apply put_max_size | apply invalidate_max_size].
Qed.

Lemma exec_bounded c s :
  1 <= max_size s → in_sync s → bounded s → bounded (exec c s).
Proof.
  intros Hmax Hs Hb. destruct c as [now k|now k r|p]; simpl.
  - by apply get_invariant.
  - by apply put_invariant.
  - apply invalidate_invariant; [lia | done].
Qed.

Lemma init_in_sync max_size ttl now : in_sync (init max_size ttl now).
Proof.
  split; simpl; [apply NoDup_nil_2|].
  intros k. rewrite lookup_empty. split; [set_solver|].
  intros [? ?]; done.
Qed.

Lemma init_bounded max_size ttl now :
  0 <= max_size → bounded (init max_size ttl now).
Proof. intros Hmax. unfold bounded. cbn. by rewrite map_size_empty. Qed.

Lemma run_in_sync cs s : in_sync s → in_sync (run cs s).
Proof.
  revert s. induction cs as [|c cs IH]; intros s Hs; simpl; [done|].
  by apply IH, exec_in_sync.
Qed.

Lemma run_max_size cs s : max_size (run cs s) = max_size s.
Proof.
  revert s. induction cs as [|c cs IH]; intros s; simpl; [done|].
  by rewrite IH, exec_max_size.
Qed.

Lemma run_bounded cs s :
  1 <= max_size s → in_sync s → bounded s → bounded (run cs s).
Proof.
  revert s. induction cs as [|c cs IH]; intros s Hmax Hs Hb; simpl; [done|].
  apply IH.
  - by rewrite exec_max_size.
  - by apply exec_in_sync.
  - by apply exec_bounded.
Qed.

(** *** The time-to-live is fixed *)

Lemma remove_all_ttl keys s : ttl_seconds (remove_all keys s) = ttl_seconds s.
Proof.
  revert s. induction keys as [|k keys IH]; intros s; simpl; [done|].
  by rewrite IH, ttl_remove_entry.
Qed.

Lemma put_stored_ttl now k r s :
  ttl_seconds (put_stored now k r s) = ttl_seconds s.
Proof.
  unfold put_stored, _evict_lru. cbn. case_match; [|done].
  destruct (access_order s); [done|]. apply ttl_remove_entry.
Qed.

Lemma exec_ttl c s : ttl_seconds (exec c s) = ttl_seconds s.
Proof.
  destruct c as [now k|now k r|p]; simpl.
  - destruct (cache s !! k) as [e|] eqn:Hk.
    + destruct (CacheEntry.is_expired now e (ttl_seconds s)) eqn:Hexp.
      * rewrite (get_expired _ _ _ _ Hk Hexp). cbn.
        by rewrite ttl_remove_entry.
      * by rewrite (get_hit _ _ _ _ Hk Hexp).
    + by rewrite (get_absent _ _ _ Hk).
  - rewrite put_unfold. unfold _maybe_cleanup.
    pose proof (put_stored_ttl now k r s) as Hst.
    case_match; [|done]. cbn.
    unfold _cleanup_expired.
    fold (remove_all (expired_keys now (put_stored now k r s))
            (put_stored now k r s)).
    by rewrite remove_all_ttl.
  - destruct p as [p|]; [|done]. apply (remove_all_ttl (keys_of_person p s)).
Qed.

Lemma run_ttl cs s : ttl_seconds (run cs s) = ttl_seconds s.
Proof.
  revert s. induction cs as [|c cs IH]; intros s; simpl; [done|].
  by rewrite IH, exec_ttl.
Qed.

(** *** A [put] that sweeps nothing *)

Lemma put_stored_cache now k r s :
  cache (put_stored now k r s)
  = <[k := CacheEntry.mk r now k 0]>
      (if Z.of_nat (size (cache s)) >=? max_size s
       then cache (_evict_lru s) else cache s).
Proof. unfold put_stored. cbn. by case_match. Qed.

Lemma put_stored_access_order now k r s :
  access_order (put_stored now k r s)
  = list_remove k
      (if Z.of_nat (size (cache s)) >=? max_size s
       then access_order (_evict_lru s) else access_order s) ++ [k].
Proof. unfold put_stored. cbn. rewrite remove_if_in_eq. by case_match. Qed.

Lemma evict_lru_lookup_Some s k e :
  cache (_evict_lru s) !! k = Some e → cache s !! k = Some e.
Proof.
  unfold _evict_lru. destruct (access_order s) as [|lru rest]; [done|].
  rewrite cache_remove_entry. intros H.
  by apply lookup_delete_Some in H as [_ H].
Qed.

Lemma put_stored_fresh now k r s :
  0 <= ttl_seconds s → fresh_at now s → fresh_at now (put_stored now k r s).
Proof.
  intros Httl Hfresh k' e'. rewrite put_stored_cache.
  rewrite put_stored_ttl.
  destruct (decide (k = k')) as [->|Hne].
  - rewrite lookup_insert_eq. intros [= <-].
    apply is_expired_false_iff. cbn. lia.
  - rewrite lookup_insert_ne by done. case_match.
    + intros H'. eapply Hfresh, evict_lru_lookup_Some, H'.
    + apply Hfresh.
Qed.

Lemma put_stored_clock now k r s :
  last_cleanup (put_stored now k r s) = last_cleanup s
  ∧ cleanup_interval (put_stored now k r s) = cleanup_interval s.
Proof.
  unfold put_stored, _evict_lru. cbn. case_match; [|done].
  destruct (access_order s); [done|].
  unfold _remove_entry. by destruct (cache s !! _).
Qed.

Lemma put_idle now k r s :
  sweep_idle now s →
  cache (put now k r s) = cache (put_stored now k r s)
  ∧ access_order (put now k r s) = access_order (put_stored now k r s).
Proof.
  intros Hidle. rewrite put_unfold.
  destruct (put_stored_clock now k r s) as [Hl Hi].
  destruct (maybe_cleanup_idle now (put_stored now k r s)) as [-> | ->];
    [|done|done].
  destruct Hidle as [Hnot|[Httl Hfresh]].
  - left. rewrite Hl, Hi. done.
  - right. by apply put_stored_fresh.
Qed.

(** *** Filling the cache and overflowing it *)

Lemma put_new_at_capacity now k r s lru rest :
  in_sync s →
  Z.of_nat (size (cache s)) = max_size s →
  cache s !! k = None →
  access_order s = lru :: rest →
  sweep_idle now s →
  cache (put now k r s) = <[k := CacheEntry.mk r now k 0]> (delete lru (cache s))
  ∧ access_order (put now k r s) = rest ++ [k]
  ∧ lru ≠ k.
Proof.
  intros Hs Hfull Hk Ho Hidle.
  destruct (put_idle now k r s Hidle) as [Hc Ha].
  rewrite Hc, Ha, put_stored_cache, put_stored_access_order.
  assert ((Z.of_nat (size (cache s)) >=? max_size s) = true) as ->.
  { rewrite Z.geb_leb. apply Z.leb_le. lia. }
  destruct (evict_lru_front s lru rest Ho) as [-> ->].
  assert (k ∉ access_order s) as Hnotin.
  { intros Hin. apply Hs in Hin as [? ?]. congruence. }
  rewrite Ho in Hnotin.
  split; [done|]. split; [|set_solver].
  rewrite list_remove_notin; [done | set_solver].
Qed.

Lemma put_new_below_capacity now k r s :
  Z.of_nat (size (cache s)) < max_size s →
  cache s !! k = None →
  in_sync s →
  sweep_idle now s →
  cache (put now k r s) = <[k := CacheEntry.mk r now k 0]> (cache s)
  ∧ access_order (put now k r s) = access_order s ++ [k].
Proof.
  intros Hroom Hk Hs Hidle.
  destruct (put_idle now k r s Hidle) as [Hc Ha].
  rewrite Hc, Ha, put_stored_cache, put_stored_access_order.
  assert ((Z.of_nat (size (cache s)) >=? max_size s) = false) as ->.
  { rewrite Z.geb_leb. apply Z.leb_gt. lia. }
  split; [done|]. rewrite list_remove_notin; [done|].
  intros Hin. apply Hs in Hin as [? ?]. congruence.
Qed.

Lemma put_fresh now k r s :
  0 <= ttl_seconds s → fresh_at now s → fresh_at now (put now k r s).
Proof.
  intros Httl Hfresh k' e' Hk'.
  pose proof (exec_ttl (Put now k r) s) as Hsame. cbn in Hsame.
  rewrite Hsame. rewrite put_unfold in Hk'.
  pose proof (put_stored_fresh now k r s Httl Hfresh) as Hst.
  unfold fresh_at in Hst. rewrite put_stored_ttl in Hst.
  apply (Hst k'). unfold _maybe_cleanup in Hk'.
  destruct (Qlt_bool _ _) in Hk'; [|done].
  change (cache (_cleanup_expired now (put_stored now k r s)) !! k' = Some e')
    in Hk'.
  rewrite cleanup_expired_lookup in Hk'.
  destruct (cache (put_stored now k r s) !! k') as [e|]; [|done].
  by destruct (CacheEntry.is_expired now e _) in Hk'.
Qed.

Lemma put_clock now k r s :
  0 <= ttl_seconds (put now k r s) ↔ 0 <= ttl_seconds s.
Proof.
  pose proof (exec_ttl (Put now k r) s) as Hsame. cbn in Hsame.
  by rewrite Hsame.
Qed.

(** Distinct new fingerprints put at one instant, while there is room,
    are all kept, in the order of their insertion. *)
Lemma puts_fill now (r : string → RecognitionResult.t) ks s :
  in_sync s →
  0 <= ttl_seconds s →
  fresh_at now s →
  NoDup ks →
  (∀ k, k ∈ ks → cache s !! k = None) →
  Z.of_nat (size (cache s) + length ks) <= max_size s →
  let s' := run (map (fun k => Put now k (r k)) ks) s in
  in_sync s' ∧ fresh_at now s'
  ∧ access_order s' = access_order s ++ ks
  ∧ size (cache s') = (size (cache s) + length ks)%nat
  ∧ (∀ k, k ∉ ks → cache s' !! k = cache s !! k).
Proof.
  revert s. induction ks as [|k ks IH]; intros s Hs Httl Hfresh Hnd Hnew Hroom.
  - cbn. rewrite app_nil_r, Nat.add_0_r. done.
  - apply NoDup_cons in Hnd as [Hk Hnd]. cbn [map run foldl exec length] in *.
    assert (sweep_idle now s) as Hidle by (right; done).
    destruct (put_new_below_capacity now k (r k) s) as [Hc Ha];
      [lia | apply Hnew; set_solver | done | done |].
    assert (size (cache (put now k (r k) s)) = S (size (cache s))) as Hsz.
    { rewrite Hc. apply map_size_insert_None, Hnew. set_solver. }
    destruct (IH (put now k (r k) s)) as (H1 & H2 & H3 & H4 & H5).
    + by apply (exec_in_sync (Put now k (r k))).
    + by apply put_clock.
    + by apply put_fresh.
    + done.
    + intros k' Hk'. rewrite Hc, lookup_insert_ne by set_solver.
      apply Hnew. set_solver.
    + rewrite put_max_size, Hsz. lia.
    + fold (run (map (fun k => Put now k (r k)) ks) (put now k (r k) s)).
      split; [done|]. split; [done|]. split; [|split].
      * rewrite H3, Ha, <- app_assoc. done.
      * rewrite H4, Hsz. lia.
      * intros k' Hk'. rewrite H5 by set_solver.
        rewrite Hc. apply lookup_insert_ne. set_solver.
Qed.

(** A lookup at a time when nothing has expired removes nothing. *)
Lemma get_keeps now k s :
  fresh_at now s →
  dom (cache (get now k s).2) = dom (cache s)
  ∧ fresh_at now (get now k s).2.
Proof.
  intros Hfresh. destruct (cache s !! k) as [e|] eqn:Hk.
  - pose proof (Hfresh k e Hk) as Hexp.
    rewrite (get_hit _ _ _ _ Hk Hexp). cbn. split.
    + apply dom_insert_lookup_L. eauto.
    + intros k' e'. cbn. destruct (decide (k = k')) as [->|Hne].
      * rewrite lookup_insert_eq. intros [= <-]. exact Hexp.
      * rewrite lookup_insert_ne by done. apply Hfresh.
  - by rewrite (get_absent _ _ _ Hk).
Qed.

Lemma gets_keep now hits s :
  fresh_at now s →
  let s' := run (map (Get now) hits) s in
  dom (cache s') = dom (cache s) ∧ fresh_at now s'.
Proof.
  revert s. induction hits as [|h hits IH]; intros s Hfresh; [done|].
  cbn [map run foldl exec].
  destruct (get_keeps now h s Hfresh) as [Hdom Hfresh'].
  destruct (IH _ Hfresh') as [Hdom' Hfresh''].
  split; [|done]. etrans; [exact Hdom' | exact Hdom].
Qed.

(** X7: from the empty cache, [capacity] distinct fingerprints are put,
    any lookups follow, and one more distinct fingerprint is put, all
    before anything expires. Afterwards exactly one of the fingerprints is
    absent: the front of the access order the lookups left. *)
Lemma overflow_drops_lru (capacity ttl : Z) (t0 now : datetime)
      (r : string → RecognitionResult.t) (ks hits : list string) (k : string) :
  1 <= capacity →
  0 <= ttl →
  NoDup (ks ++ [k]) →
  Z.of_nat (length ks) = capacity →
  let used := run (map (Get now) hits)
                  (run (map (fun k => Put now k (r k)) ks)
                       (init capacity ttl t0)) in
  ∃ lru rest,
    access_order used = lru :: rest
    ∧ lru ∈ ks
    ∧ ∀ k', is_Some (cache (put now k (r k) used) !! k')
            ↔ k' = k ∨ (k' ∈ ks ∧ k' ≠ lru).
Proof.
  intros Hcap Httl Hnd Hlen used.
  apply NoDup_app in Hnd as (Hnd & Hdisj & _).
  destruct (puts_fill now r ks (init capacity ttl t0))
    as (Hs & Hfresh & Ho & Hsz & Hrest).
  { apply init_in_sync. }
  { done. }
  { intros k' e'. cbn. by rewrite lookup_empty. }
  { done. }
  { intros k' _. apply lookup_empty. }
  { cbn. rewrite map_size_empty. lia. }
  set (full := run (map (fun k => Put now k (r k)) ks) (init capacity ttl t0))
    in *.
  destruct (gets_keep now hits full Hfresh) as [Hdom Hfresh'].
  fold used in Hdom, Hfresh'.
  assert (in_sync used) as Hsu by by apply run_in_sync.
  assert (∀ k', is_Some (cache used !! k') ↔ k' ∈ ks) as Hkeys.
  { intros k'. rewrite <- !elem_of_dom, Hdom, elem_of_dom.
    destruct Hs as [_ Hiff]. rewrite <- Hiff, Ho. cbn. done. }
  assert (size (cache used) = length ks) as Hsize.
  { rewrite <- (size_dom (D := gset string)), Hdom, size_dom, Hsz.
    cbn. by rewrite map_size_empty. }
  assert (max_size used = capacity) as Hmax.
  { unfold used, full. by rewrite !run_max_size. }
  assert (ttl_seconds used = ttl) as Httl'.
  { unfold used, full. by rewrite !run_ttl. }
  pose proof (in_sync_size used Hsu) as Hlen'.
  destruct (access_order used) as [|lru rest] eqn:Hou; [cbn in Hlen'; lia|].
  assert (lru ∈ ks) as Hlru.
  { apply Hkeys, Hsu. rewrite Hou. set_solver. }
  exists lru, rest. split; [done|]. split; [done|].
  destruct (put_new_at_capacity now k (r k) used lru rest) as (Hc & _ & Hne).
  - done.
  - lia.
  - destruct (cache used !! k) eqn:Hk; [|done].
    exfalso. apply (Hdisj k); [|set_solver]. apply Hkeys. eauto.
  - done.
  - right. by rewrite Httl'.
  - intros k'. rewrite Hc.
    destruct (decide (k = k')) as [<-|Hkk'].
    + rewrite lookup_insert_eq. split; [by left | eauto].
    + rewrite lookup_insert_ne by done.
      destruct (decide (lru = k')) as [<-|Hlk'].
      * rewrite lookup_delete_eq. split; [by intros [? ?]|].
        intros [?|[_ ?]]; done.
      * rewrite lookup_delete_ne by done. rewrite Hkeys.
        split; [by right | by intros [?|[? _]]].
Qed.

(** ** The statements on the cache *)

(** C1 (as amended): along every run of a cache of capacity at least 1,
    the number of entries stays within [max_size]; the map and the
    access order list the same fingerprints, each once; eviction drops
    the front of the access order; a hit moves its fingerprint to the
    back; and a [put] of a new fingerprint into a full cache, when its
    sweep removes nothing, leaves exactly the front of the access order
    out and keeps every other entry. *)
Theorem lru_invariants (capacity ttl : Z) (t0 : datetime) (cs : list call) :
  1 <= capacity →
  let s := run cs (init capacity ttl t0) in
  Z.of_nat (size (cache s)) <= capacity
  ∧ NoDup (access_order s)
  ∧ (∀ k, k ∈ access_order s ↔ is_Some (cache s !! k))
  ∧ (∀ lru rest, access_order s = lru :: rest →
       cache (_evict_lru s) = delete lru (cache s)
       ∧ access_order (_evict_lru s) = rest)
  ∧ (∀ now k r s', get now k s = (Some r, s') →
       access_order s' = list_remove k (access_order s) ++ [k]
       ∧ last (access_order s') = Some k)
  ∧ (∀ now k r lru rest,
       Z.of_nat (size (cache s)) = capacity →
       cache s !! k = None →
       access_order s = lru :: rest →
       sweep_idle now s →
       let s' := put now k r s in
       cache s' !! lru = None
       ∧ is_Some (cache s' !! k)
       ∧ (∀ k', k' ≠ lru → k' ≠ k → cache s' !! k' = cache s !! k')
       ∧ access_order s' = rest ++ [k]).
Proof.
  intros Hcap s.
  assert (in_sync s) as Hs by apply run_in_sync, init_in_sync.
  assert (max_size s = capacity) as Hmax by apply run_max_size.
  assert (bounded s) as Hb.
  { apply run_bounded; [done | apply init_in_sync | apply init_bounded; lia]. }
  split; [unfold bounded in Hb; lia|].
  split; [apply Hs|]. split; [apply Hs|].
  split; [apply evict_lru_front|]. split.
  - intros now k r s' Hget.
    destruct (cache s !! k) as [e|] eqn:Hk.
    + destruct (CacheEntry.is_expired now e (ttl_seconds s)) eqn:Hexp.
      * by rewrite (get_expired _ _ _ _ Hk Hexp) in Hget.
      * rewrite (get_hit _ _ _ _ Hk Hexp) in Hget.
        injection Hget as _ <-. cbn. rewrite remove_if_in_eq.
        split; [done | apply last_snoc].
    + by rewrite (get_absent _ _ _ Hk) in Hget.
  - intros now k r lru rest Hfull Hk Ho Hidle s'.
    destruct (put_idle now k r s Hidle) as [Hc Ha].
    subst s'. rewrite Hc, Ha, put_stored_cache, put_stored_access_order.
    assert ((Z.of_nat (size (cache s)) >=? max_size s) = true) as ->.
    { rewrite Z.geb_leb. apply Z.leb_le. lia. }
    destruct (evict_lru_front s lru rest Ho) as [-> ->].
    assert (lru ≠ k) as Hne.
    { intros ->. assert (is_Some (cache s !! k)) as [? ?]; [|congruence].
      apply Hs. rewrite Ho. set_solver. }
    split; [|split; [|split]].
    + rewrite lookup_insert_ne by done. apply lookup_delete_eq.
    + rewrite lookup_insert_eq. eauto.
    + intros k' H1 H2.
      rewrite lookup_insert_ne by done. by rewrite lookup_delete_ne.
    + rewrite list_remove_notin; [done|].
      intros Hin. assert (is_Some (cache s !! k)) as [? ?]; [|congruence].
      apply Hs. rewrite Ho. set_solver.
Qed.

Lemma lru_invariants_witness :
  1 <= 2
  ∧ (let s := run [Put 0 "a" (RecognitionResult.unknown 0);
                   Put 1 "b" (RecognitionResult.unknown 1);
                   Get 2 "a"] (init 2 30 0) in
     Z.of_nat (size (cache s)) <= 2
     ∧ cache (put 3 "c" (RecognitionResult.unknown 3) s) !! "b" = None
     ∧ is_Some (cache (put 3 "c" (RecognitionResult.unknown 3) s) !! "a")).
Proof.
  split; [lia|].
  pose proof (lru_invariants 2 30 0
                [Put 0 "a" (RecognitionResult.unknown 0);
                 Put 1 "b" (RecognitionResult.unknown 1);
                 Get 2 "a"] ltac:(lia)) as H.
  cbv zeta in *.
  destruct H as (Hsize & _ & _ & _ & _ & Hput).
  split; [exact Hsize|].
  split.
  - apply (Hput 3 "c" (RecognitionResult.unknown 3) "b" ["a"]);
      [reflexivity | reflexivity | reflexivity | left; vm_compute; discriminate].
  - vm_compute. eauto.
Defined.

(** C1 as stated fails in two ways. A cache of capacity 0 holds one
    entry after its first [put]. And a third distinct fingerprint put
    into a cache of capacity 2 when the sweep is due and the other two
    entries are past their time-to-live leaves both of them out, not
    only the least recently used one. *)
Lemma lru_claim_counterexample :
  (let s := run [Put 0 "a" (RecognitionResult.unknown 0)] (init 0 30 0) in
   ¬ Z.of_nat (size (cache s)) <= max_size s)
  ∧ (let s := run [Put 0 "a" (RecognitionResult.unknown 0);
                   Put 1000000 "b" (RecognitionResult.unknown 0);
                   Put 100000000 "c" (RecognitionResult.unknown 0)]
                  (init 2 30 0) in
     cache s !! "a" = None ∧ cache s !! "b" = None
     ∧ is_Some (cache s !! "c")).
Proof.
  split.
  - cbv zeta.
    assert (size (cache (run [Put 0 "a" (RecognitionResult.unknown 0)]
                           (init 0 30 0))) = 1%nat) as ->
        by (vm_compute; reflexivity).
    rewrite run_max_size. cbn. lia.
  - cbv zeta. split; [|split]; vm_compute; eauto.
Qed.

(** The least recently used entry is the least recently accessed one,
    not the first one inserted. *)
Example lru_follows_access_order :
  let s := run [Put 0 "a" (RecognitionResult.unknown 0);
                Put 1 "b" (RecognitionResult.unknown 1);
                Get 2 "a";
                Put 3 "c" (RecognitionResult.unknown 3)] (init 2 30 0) in
  access_order s = ["a"; "c"] ∧ cache s !! "b" = None.
Proof. split; vm_compute; reflexivity. Qed.

(** C2: an entry stored at time [T] is served up to and including age
    [ttl] and is a miss beyond it; the expired lookup removes the entry
    from the map and from the access order and counts a miss. Times
    are in microseconds, [ttl] in seconds. *)
Theorem ttl_boundary (capacity ttl : Z) (t0 : datetime) (cs : list call)
        (k : string) (e : CacheEntry.t) (ε : Z) :
  let s := run cs (init capacity ttl t0) in
  cache s !! k = Some e →
  0 < ε →
  let T := CacheEntry.timestamp e in
  (get (T + ttl * 1000000 - ε) k s).1 = Some (CacheEntry.result e)
  ∧ (get (T + ttl * 1000000) k s).1 = Some (CacheEntry.result e)
  ∧ is_Some (cache (get (T + ttl * 1000000 - ε) k s).2 !! k)
  ∧ (get (T + ttl * 1000000 + ε) k s).1 = None
  ∧ cache (get (T + ttl * 1000000 + ε) k s).2 !! k = None
  ∧ (k ∉ access_order (get (T + ttl * 1000000 + ε) k s).2)
  ∧ miss_count (get (T + ttl * 1000000 + ε) k s).2 = miss_count s + 1.
Proof.
  intros s Hk Hε T.
  assert (in_sync s) as Hs by apply run_in_sync, init_in_sync.
  assert (ttl_seconds s = ttl) as Httl by apply run_ttl.
  assert (∀ d, d <= 0 →
            get (T + ttl * 1000000 + d) k s
            = (Some (CacheEntry.result e),
               with_hit_count (hit_count s + 1)
                 (with_cache
                    (<[k := CacheEntry.with_hit_count
                              (CacheEntry.hit_count e + 1) e]> (cache s))
                    (with_access_order
                       (remove_if_in k (access_order s) ++ [k])
                       (counted s))))) as Hhit.
  { intros d Hd. apply get_hit; [done|].
    apply is_expired_false_iff. rewrite Httl. subst T. lia. }
  assert (get (T + ttl * 1000000 + ε) k s
          = (None, with_miss_count (miss_count s + 1)
                     (_remove_entry k (counted s)))) as Hmiss.
  { apply (get_expired _ _ _ e); [done|].
    apply is_expired_iff. rewrite Httl. subst T. lia. }
  replace (T + ttl * 1000000 - ε) with (T + ttl * 1000000 + - ε) by lia.
  replace (T + ttl * 1000000) with (T + ttl * 1000000 + 0) at 2 by lia.
  rewrite !Hhit by lia. rewrite Hmiss. cbn.
  split; [done|]. split; [done|].
  split; [rewrite lookup_insert_eq; eauto|].
  split; [done|].
  rewrite cache_remove_entry, access_order_remove_entry. cbn.
  split; [apply lookup_delete_eq|]. split; [|done].
  intros Hin. apply elem_of_list_remove in Hin as [_ Hne]; [done | apply Hs].
Qed.

Lemma ttl_boundary_witness :
  let s := run [Put 5000000 "a" (RecognitionResult.unknown 5000000)]
               (init 8 30 0) in
  0 < 1
  ∧ (get 34999999 "a" s).1 = Some (RecognitionResult.unknown 5000000)
  ∧ (get 35000000 "a" s).1 = Some (RecognitionResult.unknown 5000000)
  ∧ (get 35000001 "a" s).1 = None
  ∧ cache (get 35000001 "a" s).2 !! "a" = None.
Proof.
  intros s. split; [lia|].
  pose proof (ttl_boundary 8 30 0
                [Put 5000000 "a" (RecognitionResult.unknown 5000000)] "a"
                (CacheEntry.mk (RecognitionResult.unknown 5000000)
                               5000000 "a" 0)
                1 ltac:(reflexivity) ltac:(lia)) as H.
  cbv zeta in H. fold s in H.
  destruct H as (H1 & H2 & _ & H3 & H4 & _).
  repeat split; assumption.
Defined.

(** An entry is in the cache right after its [put], unless the
    time-to-live is negative. *)
Lemma put_lookup_new now k r s :
  0 <= ttl_seconds s →
  cache (put now k r s) !! k = Some (CacheEntry.mk r now k 0).
Proof.
  intros Httl. rewrite put_unfold.
  assert (cache (put_stored now k r s) !! k = Some (CacheEntry.mk r now k 0))
    as Hstored by (rewrite put_stored_cache; apply lookup_insert_eq).
  unfold _maybe_cleanup. case_match; [|done]. cbn.
  rewrite cleanup_expired_lookup, Hstored.
  assert (CacheEntry.is_expired now (CacheEntry.mk r now k 0)
            (ttl_seconds (put_stored now k r s)) = false) as ->; [|done].
  apply is_expired_false_iff. rewrite put_stored_ttl.
  cbn [CacheEntry.timestamp]. lia.
Qed.

(** X6: stored at [T], read [age] microseconds later: a hit up to the
    time-to-live, a miss beyond it. *)
Lemma put_then_get T age k r s :
  0 <= ttl_seconds s →
  (get (T + age) k (put T k r s)).1
  = if age <=? ttl_seconds s * 1000000 then Some r else None.
Proof.
  intros Httl.
  pose proof (put_lookup_new T k r s Httl) as Hk.
  pose proof (exec_ttl (Put T k r) s) as Hsame. cbn in Hsame.
  destruct (age <=? ttl_seconds s * 1000000) eqn:Hage.
  - apply Z.leb_le in Hage.
    assert (CacheEntry.is_expired (T + age) (CacheEntry.mk r T k 0)
              (ttl_seconds (put T k r s)) = false) as Hexp.
    { apply is_expired_false_iff. rewrite Hsame.
      cbn [CacheEntry.timestamp]. lia. }
    by rewrite (get_hit _ _ _ _ Hk Hexp).
  - apply Z.leb_gt in Hage.
    assert (CacheEntry.is_expired (T + age) (CacheEntry.mk r T k 0)
              (ttl_seconds (put T k r s)) = true) as Hexp.
    { apply is_expired_iff. rewrite Hsame.
      cbn [CacheEntry.timestamp]. lia. }
    by rewrite (get_expired _ _ _ _ Hk Hexp).
Qed.

(** C10: re-storing a fingerprint that is already present, in a cache
    that holds exactly [max_size] entries, evicts the front of the
    access order first: when that front is another fingerprint, its
    entry is gone afterwards and the cache is one entry smaller. *)
Theorem put_present_key_at_capacity
        (capacity ttl : Z) (t0 : datetime) (cs : list call)
        (now : datetime) (k : string) (r : RecognitionResult.t)
        (lru : string) (rest : list string) :
  let s := run cs (init capacity ttl t0) in
  Z.of_nat (size (cache s)) = capacity →
  is_Some (cache s !! k) →
  access_order s = lru :: rest →
  lru ≠ k →
  sweep_idle now s →
  let s' := put now k r s in
  is_Some (cache s !! lru)
  ∧ cache s' !! lru = None
  ∧ cache s' !! k = Some (CacheEntry.mk r now k 0)
  ∧ size (cache s') = (size (cache s) - 1)%nat
  ∧ access_order s' = list_remove k rest ++ [k].
Proof.
  intros s Hfull Hk Ho Hne Hidle s'.
  assert (in_sync s) as Hs by apply run_in_sync, init_in_sync.
  assert (max_size s = capacity) as Hmax by apply run_max_size.
  assert (is_Some (cache s !! lru)) as Hlru.
  { apply Hs. rewrite Ho. set_solver. }
  destruct (put_idle now k r s Hidle) as [Hc Ha].
  subst s'. rewrite Hc, Ha, put_stored_cache, put_stored_access_order.
  assert ((Z.of_nat (size (cache s)) >=? max_size s) = true) as ->.
  { rewrite Z.geb_leb. apply Z.leb_le. lia. }
  destruct (evict_lru_front s lru rest Ho) as [-> ->].
  split; [done|]. split; [|split; [|split]].
  - rewrite lookup_insert_ne by done. apply lookup_delete_eq.
  - apply lookup_insert_eq.
  - rewrite map_size_insert_Some.
    + rewrite map_size_delete_Some by done. lia.
    + by rewrite lookup_delete_ne.
  - done.
Qed.

Lemma put_present_key_at_capacity_witness :
  let s := run [Put 0 "a" (RecognitionResult.unknown 0);
                Put 1 "b" (RecognitionResult.unknown 1)] (init 2 30 0) in
  let s' := put 2 "b" (RecognitionResult.unknown 2) s in
  Z.of_nat (size (cache s)) = 2
  ∧ is_Some (cache s !! "a")
  ∧ cache s' !! "a" = None
  ∧ size (cache s') = 1%nat.
Proof.
  intros s s'.
  assert (Z.of_nat (size (cache s)) = 2) as Hfull by (vm_compute; reflexivity).
  pose proof (put_present_key_at_capacity 2 30 0
                [Put 0 "a" (RecognitionResult.unknown 0);
                 Put 1 "b" (RecognitionResult.unknown 1)]
                2 "b" (RecognitionResult.unknown 2) "a" ["b"]
                Hfull
                ltac:(vm_compute; eauto)
                ltac:(reflexivity)
                ltac:(discriminate)
                ltac:(left; vm_compute; discriminate)) as H.
  cbv zeta in H. fold s in H. fold s' in H.
  destruct H as (H1 & H2 & _ & H3 & _).
  split; [exact Hfull|]. split; [exact H1|]. split; [exact H2|].
  rewrite H3. vm_compute. reflexivity.
Defined.
End CacheFacts.

(** ** The identity matcher *)

Lemma py_max_Qmax (a b : Q) : (py_max a b == Qmax a b)%Q.
Proof.
  unfold py_max. destruct (Qlt_bool a b) eqn:E.
  - apply Qlt_bool_iff in E. symmetry. apply Q.max_r. by apply Qlt_le_weak.
  - apply Qlt_bool_false_iff in E. symmetry. by apply Q.max_l.
Qed.

Lemma py_min_Qmin (a b : Q) : (py_min a b == Qmin a b)%Q.
Proof.
  unfold py_min. destruct (Qlt_bool b a) eqn:E.
  - apply Qlt_bool_iff in E. symmetry. apply Q.min_r. by apply Qlt_le_weak.
  - apply Qlt_bool_false_iff in E. symmetry. by apply Q.min_l.
Qed.

Lemma clamp_bounds (x : Q) : (0 <= py_min 1 (py_max 0 x) <= 1)%Q.
Proof.
  unfold py_min, py_max.
  destruct (Qlt_bool 0 x) eqn:E1.
  - apply Qlt_bool_iff in E1.
    destruct (Qlt_bool x 1) eqn:E2.
    + apply Qlt_bool_iff in E2. split; lra.
    + split; lra.
  - destruct (Qlt_bool 0 1) eqn:E2; split; lra.
Qed.

Lemma clamp_nonneg_arg (x : Q) :
  (x <= 1)%Q → (py_min 1 (py_max 0 x) == Qmax 0 x)%Q.
Proof.
  intros Hx. rewrite py_min_Qmin, py_max_Qmax.
  apply Q.min_r. apply Q.max_lub; lra.
Qed.

Module RecognizerFacts.
Import FaceRecognizer.
Local Open Scope Q_scope.

Lemma confidence_unit_interval self d :
  0 <= _distance_to_confidence self d <= 1.
Proof.
  destruct d as [d|]; simpl; [|split; lra].
  repeat case_match; apply clamp_bounds.
Qed.

(** C5: the confidence of a distance [d] is [max(0, 1 - d)] under the
    cosine metric, [max(0, 1 - d/2)] under euclidean, [max(0, 1 - d)]
    under euclidean_l2 and under any other metric name, each cut at 1,
    so it lies in [0,1]; under cosine, distance 0 gives 1, distance 1
    gives 0, and every distance above 1 gives 0. *)
Theorem distance_to_confidence_by_metric (self : t) (d : Q) :
  let at_metric m := _distance_to_confidence (with_distance_metric m self) (Fin d) in
  at_metric "cosine" == Qmin 1 (Qmax 0 (1 - d))
  ∧ at_metric "euclidean" == Qmin 1 (Qmax 0 (1 - d / 2))
  ∧ at_metric "euclidean_l2" == Qmin 1 (Qmax 0 (1 - d))
  ∧ (∀ m, m ≠ "cosine" → m ≠ "euclidean" → m ≠ "euclidean_l2" →
          at_metric m = at_metric "cosine")
  ∧ (0 <= d → at_metric "cosine" == Qmax 0 (1 - d)
              ∧ at_metric "euclidean" == Qmax 0 (1 - d / 2)
              ∧ at_metric "euclidean_l2" == Qmax 0 (1 - d))
  ∧ (∀ m, 0 <= at_metric m <= 1)
  ∧ (d == 0 → at_metric "cosine" == 1)
  ∧ (d == 1 → at_metric "cosine" == 0)
  ∧ (1 < d → at_metric "cosine" == 0).
Proof.
  intros at_metric. subst at_metric. cbn.
  assert (∀ x, py_min 1 (py_max 0 x) == Qmin 1 (Qmax 0 x)) as Hclamp.
  { intros x. by rewrite py_min_Qmin, py_max_Qmax. }
  split; [apply Hclamp|]. split; [apply Hclamp|]. split; [apply Hclamp|].
  split.
  { intros m H1 H2 H3.
    destruct (String.eqb_spec m "cosine") as [->|_]; [done|].
    destruct (String.eqb_spec m "euclidean") as [->|_]; [done|].
    destruct (String.eqb_spec m "euclidean_l2") as [->|_]; done. }
  split.
  { intros Hd. split; [|split]; apply clamp_nonneg_arg.
    - lra.
    - assert (0 <= d / 2) by (apply Qle_shift_div_l; lra). lra.
    - lra. }
  split.
  { intros m. apply (confidence_unit_interval (with_distance_metric m self) (Fin d)). }
  split; [|split].
  - intros Hd. rewrite Hclamp, Hd.
    rewrite Q.max_r by lra. apply Q.min_l. lra.
  - intros Hd. rewrite Hclamp, Hd.
    rewrite Q.max_l by lra. apply Q.min_r. lra.
  - intros Hd. rewrite Hclamp.
    rewrite Q.max_l by lra. apply Q.min_r. lra.
Qed.

Lemma distance_to_confidence_by_metric_witness :
  0 <= 0.9
  ∧ _distance_to_confidence (with_distance_metric "cosine" defaults) (Fin 0.9)
    == Qmax 0 (1 - 0.9)
  ∧ _distance_to_confidence (with_distance_metric "euclidean" defaults) (Fin 0.9)
    == Qmax 0 (1 - 0.9 / 2).
Proof.
  assert (0 <= 0.9) as Hd by (unfold Qle; simpl; lia).
  split; [exact Hd|].
  destruct (distance_to_confidence_by_metric defaults 0.9)
    as (_ & _ & _ & _ & Hnonneg & _).
  destruct (Hnonneg Hd) as (Hcos & Heuc & _).
  split; [exact Hcos | exact Heuc].
Defined.

(** *** The search for the closest person *)

Section Search.
Context {Image : Type} `{Engine Image}.



Lemma compare_persons_cons self img p rest best files :
  os_listdir (path_join (known_faces_path self) p) = Returns files →
  compare_persons self img (p :: rest) best
  = compare_persons self img rest (consider self img p best).
Proof.
  intros Hls. simpl. rewrite Hls. simpl. unfold consider, average_distance.
  rewrite Hls. by destruct (person_distances _ _ _ _).
Qed.






(** C7: [recognize_face] returns on every input, and when the engine
    is unavailable, the database is not initialised, or the face
    image is missing or empty, what it returns is the neutral result:
    "unknown", confidence 0, not known. The same holds when the
    comparison raises. *)
Theorem recognize_face_never_raises
        (self : t) (now : datetime) (face_image : option Image) :
  (∃ r, recognize_face self now face_image = Returns r)
  ∧ (DEEPFACE_AVAILABLE = false
     ∨ is_initialized self = false
     ∨ face_image = None
     ∨ (∃ img, face_image = Some img ∧ image_size img = 0%Z)
     ∨ (∃ img, face_image = Some img ∧ match_face self now img = Raises)
     → recognize_face self now face_image
       = Returns (RecognitionResult.mk "unknown" 0 false now (Fin 0) "")).
Proof.
  split.
  - unfold recognize_face.
    destruct (negb DEEPFACE_AVAILABLE || negb (is_initialized self));
      [eauto|].
    destruct face_image as [img|]; [|eauto].
    destruct (image_size img =? 0)%Z; eauto.
  - unfold recognize_face.
    intros [->|[->|[->|[(img & -> & Hz)|(img & -> & Hraise)]]]].
    + done.
    + by rewrite orb_true_r.
    + by case_match.
    + rewrite Hz. simpl. by case_match.
    + rewrite Hraise. simpl. by repeat case_match.
Qed.
End Search.


(** The two end-to-end scenarios: cosine metric, threshold 0.6, one
    gallery image of "alice". *)
Example alice_at_distance_0_9 (now : datetime) :
  recognize_face (H := Scenario.one_image_engine 0.9)
    Scenario.alice_enrolled now (Some ())
  = Returns (RecognitionResult.mk "unknown" 0.1 false now (Fin 0.9) "VGG-Face").
Proof. reflexivity. Qed.

Example alice_at_distance_0_2 (now : datetime) :
  recognize_face (H := Scenario.one_image_engine 0.2)
    Scenario.alice_enrolled now (Some ())
  = Returns (RecognitionResult.mk "alice" 0.8 true now (Fin 0.2) "VGG-Face").
Proof. reflexivity. Qed.

Lemma recognize_face_never_raises_witness :
  recognize_face (H := Scenario.one_image_engine 0.2)
    Scenario.alice_enrolled 7 None
  = Returns (RecognitionResult.mk "unknown" 0 false 7 (Fin 0) "").
Proof.
  apply (recognize_face_never_raises (H := Scenario.one_image_engine 0.2)).
  right. right. left. reflexivity.
Defined.

(** With a positive threshold, a face that no gallery image could be
    compared with is never reported as known. *)
Lemma no_candidate_not_known {Image : Type} `{Engine Image}
      (self : t) (now : datetime) (img : Image) r :
  0 < confidence_threshold self →
  (∀ p, p ∈ known_persons self → average_distance self img p = None) →
  recognize_face self now (Some img) = Returns r →
  RecognitionResult.is_known r = false.
Proof.
  intros Hthr Hnone. unfold recognize_face.
  destruct (negb DEEPFACE_AVAILABLE || negb (is_initialized self));
    [by intros [= <-]|].
  destruct (image_size img =? 0)%Z; [by intros [= <-]|].
  destruct (match_face self now img) as [r'|] eqn:Hm; simpl;
    [|by intros [= <-]].
  intros [= <-]. unfold match_face in Hm.
  destruct (compare_persons self img (known_persons self) (PInf, "unknown"))
    as [[bd bp]|] eqn:Hc; [|done].
  simpl in Hm. injection Hm as <-. simpl.
  assert (bd = PInf) as ->.
  { clear -Hc Hnone. revert Hc.
    assert (∀ persons best,
              (∀ p, p ∈ persons → average_distance self img p = None) →
              compare_persons self img persons best = Returns (bd, bp) →
              best.1 = bd) as Hkeep.
    { induction persons as [|p rest IH]; intros best Hn; simpl.
      - by intros [= ->].
      - pose proof (Hn p ltac:(set_solver)) as Hp.
        unfold average_distance in Hp.
        destruct (os_listdir _) as [files|]; [|done]. simpl.
        destruct (person_distances _ _ _ _); [|done].
        apply IH. intros q Hq. apply Hn. set_solver. }
    intros Hc. by rewrite <- (Hkeep _ _ Hnone Hc). }
  simpl. destruct (Qle_bool (confidence_threshold self) 0) eqn:E; [|done].
  apply Qle_bool_iff in E. lra.
Qed.
End RecognizerFacts.

(** ** The frame quality gate *)

Module FrameFacts.
Import FrameProcessor.
Local Open Scope Q_scope.

Section Gate.
Context {Frame Gray : Type} `{Vision Frame Gray}.

Lemma detect_blur_measured frame gray v :
  cvtColor_BGR2GRAY frame = Returns gray →
  Laplacian_var gray = Returns v →
  detect_blur (Some frame) = v.
Proof. intros Hg Hv. unfold detect_blur. by rewrite Hg; simpl; rewrite Hv. Qed.

(** The gate on a frame whose measurements succeed. *)
Lemma is_frame_suitable_measured frame gray v m thr :
  frame_size frame ≠ 0%Z →
  cvtColor_BGR2GRAY frame = Returns gray →
  Laplacian_var gray = Returns v →
  np_mean gray = Returns m →
  is_frame_suitable (Some frame) thr
  = Returns (negb (Qlt_bool v thr)
             && negb (Qlt_bool m 30 || Qlt_bool 225 m)).
Proof.
  intros Hsize Hg Hv Hm. unfold is_frame_suitable.
  destruct (frame_size frame =? 0)%Z eqn:Hz; [by apply Z.eqb_eq in Hz|].
  rewrite (detect_blur_measured _ _ _ Hg Hv).
  destruct (Qlt_bool v thr); [done|].
  rewrite Hg. simpl. rewrite Hm. simpl.
  by destruct (Qlt_bool m 30 || Qlt_bool 225 m).
Qed.

(** C8: the gate always returns; it returns false on a missing or
    empty frame and on a frame that cannot be converted; on a frame with Laplacian variance [v] and mean
    brightness [m] it returns false when [v] is below the threshold
    (so for [v = 0] under any positive threshold, whatever [m]) or
    when [m < 30] or [m > 225], and true otherwise; brightness 30 and
    brightness 225 pass. *)
Theorem frame_quality_gate (frame : option Frame) (thr : Q) :
  (∃ b, is_frame_suitable frame thr = Returns b)
  ∧ (frame = None → is_frame_suitable frame thr = Returns false)
  ∧ (∀ f, frame = Some f → frame_size f = 0%Z →
          is_frame_suitable frame thr = Returns false)
  ∧ (∀ f, frame = Some f → cvtColor_BGR2GRAY f = Raises →
          is_frame_suitable frame thr = Returns false)
  ∧ (∀ f gray v m,
       frame = Some f →
       frame_size f ≠ 0%Z →
       cvtColor_BGR2GRAY f = Returns gray →
       Laplacian_var gray = Returns v →
       np_mean gray = Returns m →
       (v < thr → is_frame_suitable frame thr = Returns false)
       ∧ (v == 0 → 0 < thr → is_frame_suitable frame thr = Returns false)
       ∧ (m < 30 ∨ 225 < m → is_frame_suitable frame thr = Returns false)
       ∧ (thr <= v → 30 <= m → m <= 225 →
          is_frame_suitable frame thr = Returns true)
       ∧ (thr <= v → m == 30 ∨ m == 225 →
          is_frame_suitable frame thr = Returns true)).
Proof.
  split; [|split; [|split; [|split]]].
  - destruct frame as [f|]; simpl; eauto.
  - by intros ->.
  - intros f -> Hz. unfold is_frame_suitable. by rewrite Hz.
  - intros f -> Hraise. unfold is_frame_suitable, detect_blur.
    rewrite Hraise. simpl. by repeat case_match.
  - intros f gray v m -> Hsize Hg Hv Hm.
    rewrite (is_frame_suitable_measured f gray v m thr Hsize Hg Hv Hm).
    assert (∀ x y, x < y → Qlt_bool x y = true) as Hlt.
    { intros x y. apply Qlt_bool_iff. }
    assert (∀ x y, y <= x → Qlt_bool x y = false) as Hge.
    { intros x y. apply Qlt_bool_false_iff. }
    split; [|split; [|split; [|split]]].
    + intros Hblur. by rewrite (Hlt _ _ Hblur).
    + intros Hv0 Hthr. rewrite (Hlt v thr) by lra. done.
    + intros [Hdark|Hbright].
      * rewrite (Hlt _ _ Hdark). by rewrite andb_false_r.
      * rewrite (Hlt _ _ Hbright). by rewrite orb_true_r, andb_false_r.
    + intros H1 H2 H3. by rewrite !Hge.
    + intros H1 [H2|H2]; rewrite !Hge; (done || lra).
Qed.
End Gate.

Lemma frame_quality_gate_witness :
  is_frame_suitable (H := Scenario.synthetic_vision)
    (Some (0, 128)) default_blur_threshold = Returns false
  ∧ is_frame_suitable (H := Scenario.synthetic_vision)
      (Some (150, 30)) default_blur_threshold = Returns true.
Proof.
  split.
  - destruct (frame_quality_gate (H := Scenario.synthetic_vision)
                (Some (0, 128)) default_blur_threshold)
      as (_ & _ & _ & _ & Hmeasured).
    destruct (Hmeasured (0, 128) (0, 128) 0 128
                eq_refl ltac:(discriminate) eq_refl eq_refl eq_refl)
      as (_ & Hflat & _).
    apply Hflat; [reflexivity | reflexivity].
  - destruct (frame_quality_gate (H := Scenario.synthetic_vision)
                (Some (150, 30)) default_blur_threshold)
      as (_ & _ & _ & _ & Hmeasured).
    destruct (Hmeasured (150, 30) (150, 30) 150 30
                eq_refl ltac:(discriminate) eq_refl eq_refl eq_refl)
      as (_ & _ & _ & _ & Hedge).
    apply Hedge; [discriminate | left; reflexivity].
Defined.

(** The boundary values on synthetic frames, with the default blur
    threshold of 100. *)
Example brightness_boundaries :
  let gate frame :=
    is_frame_suitable (H := Scenario.synthetic_vision) (Some frame)
                      default_blur_threshold in
  gate (150, 30) = Returns true
  ∧ gate (150, 225) = Returns true
  ∧ gate (150, 29.9) = Returns false
  ∧ gate (150, 225.1) = Returns false
  ∧ gate (100, 128) = Returns true
  ∧ gate (99.9, 128) = Returns false
  ∧ gate (0, 30) = Returns false
  ∧ gate (0, 225) = Returns false.
Proof. repeat split. Qed.
End FrameFacts.

(** ** The orchestrator and the cooldown *)

Module AppFacts.
Import MemoryMirrorApp.
Local Open Scope Q_scope.

Section App.
Context {Frame Face : Type} `{AudioManager.Devices}.
Implicit Types self : t (Frame := Frame) (Face := Face).

(** C9: when the detector is present and finds no face in the frame,
    [process_frame] answers [(None, "ready")]; the only call it makes
    is [detect_faces], so the recognizer is not invoked, and nothing
    else of the application changes. *)
Theorem no_face_is_ready (c : clock) (frame : Frame) self
        (detector : FaceDetector)
        (detect : Frame → outcome (list Face)) :
  face_detector self = Some detector →
  detect_faces detector = Some detect →
  detect frame = Returns [] →
  process_frame c frame self
  = (Returns (None, "ready"), record_call detect_faces_called self)
  ∧ calls (process_frame c frame self).2
    = calls self ++ [detect_faces_called]
  ∧ (recognize_face_called ∈ calls (process_frame c frame self).2
     → recognize_face_called ∈ calls self)
  ∧ last_recognition_time (process_frame c frame self).2
    = last_recognition_time self
  ∧ audio_manager (process_frame c frame self).2 = audio_manager self.
Proof.
  intros Hdet Hmeth Hnone.
  assert (process_frame c frame self
          = (Returns (None, "ready"), record_call detect_faces_called self))
    as Hrun.
  { unfold process_frame, try_catch. rewrite Hdet.
    destruct detector as [d e]. simpl in Hmeth. subst d.
    unfold bind, call. rewrite Hnone. done. }
  rewrite Hrun. split; [done|]. split; [done|].
  split; [|done]. simpl. intros [Hin|Hin]%elem_of_app; [done|].
  by apply list_elem_of_singleton in Hin.
Qed.

Lemma should_play_message_iff now person_id self :
  should_play_message now person_id self = true
  ↔ recognition_cooldown self
    < now - default 0 (last_recognition_time self !! person_id).
Proof. apply Qlt_bool_iff. Qed.

(** C3 (as amended): the orchestrator permits an announcement for a
    person exactly when [now - last > cooldown] (strict), where
    [last] is the recorded time of the last announcement, or 0 when
    there is none; so a person never announced is eligible exactly
    when [now > cooldown]. The audio manager's own gate lets a
    message for a person through exactly when the person has no
    recorded time or at least [message_cooldown] seconds have passed
    (not strict). With a cooldown of 30 and an announcement at time
    0, neither permits one at 29.9 and both permit one at 30.1. *)
Theorem cooldown_gate (now : Q) (person_id : string) self
        (dnow : datetime) (a : AudioManager.t) :
  (should_play_message now person_id self = true
   ↔ recognition_cooldown self
     < now - default 0 (last_recognition_time self !! person_id))
  ∧ (∀ last, last_recognition_time self !! person_id = Some last →
       (should_play_message now person_id self = true
        ↔ recognition_cooldown self < now - last))
  ∧ (last_recognition_time self !! person_id = None →
       (should_play_message now person_id self = true
        ↔ recognition_cooldown self < now))
  ∧ (AudioManager._is_in_cooldown dnow person_id a = false
     ↔ AudioManager.last_played a !! person_id = None
       ∨ ∃ last, AudioManager.last_played a !! person_id = Some last
                 ∧ (AudioManager.message_cooldown a * 1000000
                    <= dnow - last)%Z)
  ∧ (recognition_cooldown self = 30 →
     last_recognition_time self !! person_id = Some 0 →
     should_play_message 29.9 person_id self = false
     ∧ should_play_message 30.1 person_id self = true)
  ∧ (AudioManager.message_cooldown a = 30%Z →
     AudioManager.last_played a !! person_id = Some 0%Z →
     AudioManager._is_in_cooldown 29900000 person_id a = true
     ∧ AudioManager._is_in_cooldown 30100000 person_id a = false).
Proof.
  split; [apply should_play_message_iff|].
  split; [|split; [|split; [|split]]].
  - intros last Hlast. rewrite should_play_message_iff, Hlast. done.
  - intros Hnone. rewrite should_play_message_iff, Hnone. simpl.
    split; intros; lra.
  - unfold AudioManager._is_in_cooldown.
    destruct (AudioManager.last_played a !! person_id) as [last|].
    + destruct (Qlt_bool _ _) eqn:E.
      * apply total_seconds_lt_seconds in E.
        split; [done|]. intros [?|(l & [= <-] & Hl)]; [done|lia].
      * split; [|done]. intros _. right. exists last. split; [done|].
        destruct (Z_lt_le_dec (dnow - last)
                    (AudioManager.message_cooldown a * 1000000))
          as [Hlt|Hle]; [|done].
        apply total_seconds_lt_seconds in Hlt. congruence.
    + split; [by left | done].
  - intros Hc Hlast. unfold should_play_message. by rewrite Hc, Hlast.
  - intros Hc Hlast. unfold AudioManager._is_in_cooldown.
    by rewrite Hc, Hlast.
Qed.

Lemma stop_current_audio_is_playing a :
  AudioManager.PYGAME_AVAILABLE = true →
  AudioManager.is_playing (AudioManager.stop_current_audio a) = false.
Proof.
  intros Hpy. unfold AudioManager.stop_current_audio. rewrite Hpy. simpl.
  by destruct (AudioManager.is_playing a) eqn:E.
Qed.

End App.

Lemma no_face_is_ready_witness :
  process_frame (H := Scenario.kiosk_devices)
    {| time_checked := 100; datetime_now := 100000000; time_recorded := 100 |}
    "" Scenario.kiosk
  = (Returns (None, "ready"), record_call detect_faces_called Scenario.kiosk).
Proof.
  eapply (no_face_is_ready (H := Scenario.kiosk_devices));
    reflexivity.
Defined.

Lemma cooldown_gate_witness :
  should_play_message 29.9 "alice"
    (with_last_recognition_time {[ "alice" := 0 ]} Scenario.bare_app) = false
  ∧ should_play_message 30.1 "alice"
      (with_last_recognition_time {[ "alice" := 0 ]} Scenario.bare_app) = true.
Proof.
  destruct (cooldown_gate 0 "alice"
              (with_last_recognition_time {[ "alice" := 0 ]} Scenario.bare_app)
              0%Z (AudioManager.init true 30))
    as (_ & _ & _ & _ & Hex & _).
  apply Hex; reflexivity.
Defined.

(** C3 as stated fails on both gates. The orchestrator does not permit
    an announcement at time 10 for a person with no recorded time. The
    audio manager lets a message through when exactly [message_cooldown]
    seconds have passed, although the elapsed time does not exceed it. *)
Lemma cooldown_claim_counterexample :
  (last_recognition_time Scenario.bare_app !! "alice" = None
   ∧ should_play_message 10 "alice" Scenario.bare_app = false)
  ∧ (let a := AudioManager.mk true 30 {[ "alice" := 0%Z ]}
                               false None false [] [] in
     AudioManager._is_in_cooldown 30000000 "alice" a = false
     ∧ ¬ (AudioManager.message_cooldown a * 1000000 < 30000000 - 0)%Z)
  ∧ ¬ (∀ now person_id (self : t (Frame := string) (Face := unit)),
         should_play_message now person_id self = true
         ↔ last_recognition_time self !! person_id = None
           ∨ ∃ last, last_recognition_time self !! person_id = Some last
                     ∧ recognition_cooldown self < now - last).
Proof.
  split; [split; reflexivity|]. split.
  - cbv zeta. split; [reflexivity | simpl; lia].
  - intros Hclaim.
    destruct (Hclaim 10 "alice" Scenario.bare_app) as [_ Hpermit].
    discriminate Hpermit. by left.
Qed.



(** The state in which the kiosk is left by the first frame. *)
Example alice_announced_state :
  audio_manager Scenario.alice_announced = Some Scenario.greeting_started
  ∧ last_recognition_time Scenario.alice_announced !! "alice" = Some 100
  ∧ calls Scenario.alice_announced
    = [detect_faces_called; extract_face_region_called;
       recognize_face_called; get_person_profile_called "alice";
       play_voice_message_called "Hello" "en"].
Proof. repeat split. Qed.

(** The gate of the simple application does wait for the audio: it
    reports nobody eligible while the mixer is busy. *)
Lemma simple_gate_waits_for_audio now person_id last_voice_time cooldown
      (get_busy : outcome bool) :
  SimpleApp.should_play_voice_message now person_id last_voice_time cooldown
                                      true get_busy = true →
  get_busy ≠ Returns true.
Proof.
  unfold SimpleApp.should_play_voice_message, SimpleApp.is_currently_playing.
  intros Hgate ->. simpl in Hgate. by rewrite andb_false_r in Hgate.
Qed.
End AppFacts.

(** ** More on the cache: counters, invalidation, sweeps *)

Module CacheExtras.
Import RecognitionCache RecognitionCacheStats CacheFacts.
Local Open Scope Z_scope.
#[local] Arguments _remove_entry : simpl never.
#[local] Arguments _maybe_cleanup : simpl never.

(** The three counters of a cache. *)
Lemma remove_entry_counters key s :
  hit_count (_remove_entry key s) = hit_count s
  ∧ miss_count (_remove_entry key s) = miss_count s
  ∧ total_requests (_remove_entry key s) = total_requests s.
Proof. unfold _remove_entry. by destruct (cache s !! key). Qed.

Lemma remove_all_counters keys s :
  hit_count (remove_all keys s) = hit_count s
  ∧ miss_count (remove_all keys s) = miss_count s
  ∧ total_requests (remove_all keys s) = total_requests s.
Proof.
  revert s. induction keys as [|k keys IH]; intros s; simpl; [done|].
  destruct (IH (_remove_entry k s)) as (-> & -> & ->).
  apply remove_entry_counters.
Qed.

Lemma put_counters now k r s :
  hit_count (put now k r s) = hit_count s
  ∧ miss_count (put now k r s) = miss_count s
  ∧ total_requests (put now k r s) = total_requests s.
Proof.
  rewrite put_unfold.
  assert (hit_count (put_stored now k r s) = hit_count s
          ∧ miss_count (put_stored now k r s) = miss_count s
          ∧ total_requests (put_stored now k r s) = total_requests s)
    as (H1 & H2 & H3).
  { unfold put_stored, _evict_lru. cbn. case_match; [|done].
    destruct (access_order s); [done|]. apply remove_entry_counters. }
  unfold _maybe_cleanup. case_match; [|done]. cbn.
  unfold _cleanup_expired.
  fold (remove_all (expired_keys now (put_stored now k r s))
                   (put_stored now k r s)).
  destruct (remove_all_counters
              (expired_keys now (put_stored now k r s))
              (put_stored now k r s)) as (-> & -> & ->).
  done.
Qed.

Lemma invalidate_counters p s :
  hit_count (invalidate p s) = hit_count s
  ∧ miss_count (invalidate p s) = miss_count s
  ∧ total_requests (invalidate p s) = total_requests s.
Proof.
  destruct p as [p|]; [|done]. apply (remove_all_counters (keys_of_person p s)).
Qed.

Lemma get_counters now k s :
  total_requests (get now k s).2 = total_requests s + 1
  ∧ ((get now k s).1 = None
     ∧ hit_count (get now k s).2 = hit_count s
     ∧ miss_count (get now k s).2 = miss_count s + 1
     ∨ (get now k s).1 ≠ None
       ∧ hit_count (get now k s).2 = hit_count s + 1
       ∧ miss_count (get now k s).2 = miss_count s).
Proof.
  destruct (cache s !! k) as [e|] eqn:Hk.
  - destruct (CacheEntry.is_expired now e (ttl_seconds s)) eqn:Hexp.
    + rewrite (get_expired _ _ _ _ Hk Hexp). cbn.
      destruct (remove_entry_counters k (counted s)) as (-> & _ & ->).
      split; [done | by left].
    + rewrite (get_hit _ _ _ _ Hk Hexp). cbn. split; [done | by right].
  - rewrite (get_absent _ _ _ Hk). cbn. split; [done | by left].
Qed.

(** X1: every [get] is counted once in [total_requests] and once as a
    hit or as a miss, and no other call touches the counters; so
    hits + misses = requests = number of lookups, and the hit rate lies
    between 0 and 100. *)
Theorem counters_add_up (capacity ttl : Z) (t0 : datetime) (cs : list call) :
  let s := run cs (init capacity ttl t0) in
  total_requests s = lookups cs
  ∧ hit_count s + miss_count s = total_requests s
  ∧ 0 <= hit_count s
  ∧ 0 <= miss_count s
  ∧ (0 <= hit_rate s <= 100)%Q.
Proof.
  intros s.
  assert (∀ cs s0,
            0 <= hit_count s0 → 0 <= miss_count s0 →
            total_requests (run cs s0) = total_requests s0 + lookups cs
            ∧ hit_count (run cs s0) + miss_count (run cs s0)
              = hit_count s0 + miss_count s0 + lookups cs
            ∧ 0 <= hit_count (run cs s0)
            ∧ 0 <= miss_count (run cs s0)) as Hrun.
  { clear. induction cs as [|c cs IH]; intros s0 Hh Hm.
    - unfold lookups. cbn. lia.
    - cbn [run foldl].
      fold (run cs (exec c s0)).
      assert (lookups (c :: cs)
              = (if is_lookup c then 1 else 0) + lookups cs) as ->.
      { unfold lookups. rewrite filter_cons.
        destruct (is_lookup c); [|by case_decide].
        rewrite decide_True by done. cbn [length]. lia. }
      destruct c as [now k|now k r|p]; cbn [exec is_lookup].
      + destruct (get_counters now k s0) as [Ht Hcase].
        assert (0 <= hit_count (get now k s0).2
                ∧ 0 <= miss_count (get now k s0).2
                ∧ hit_count (get now k s0).2 + miss_count (get now k s0).2
                  = hit_count s0 + miss_count s0 + 1) as (Hh' & Hm' & Hsum).
        { destruct Hcase as [(_ & Ha & Hb)|(_ & Ha & Hb)];
            rewrite Ha, Hb; lia. }
        destruct (IH (get now k s0).2) as (H1 & H2 & H3 & H4); [done..|].
        rewrite H1, H2, Ht. lia.
      + destruct (put_counters now k r s0) as (Hh' & Hm' & Ht').
        destruct (IH (put now k r s0)) as (H1 & H2 & H3 & H4); [lia..|].
        rewrite H1, H2, Hh', Hm', Ht'. lia.
      + destruct (invalidate_counters p s0) as (Hh' & Hm' & Ht').
        destruct (IH (invalidate p s0)) as (H1 & H2 & H3 & H4); [lia..|].
        rewrite H1, H2, Hh', Hm', Ht'. lia. }
  destruct (Hrun cs (init capacity ttl t0)) as (H1 & H2 & H3 & H4);
    [cbn; lia ..|].
  fold s in H1, H2, H3, H4. cbn in H1, H2.
  split; [lia|]. split; [lia|]. split; [done|]. split; [done|].
  unfold hit_rate. destruct (total_requests s >? 0) eqn:Hpos; [|split; lra].
  apply Z.gtb_lt in Hpos.
  assert (0 <= inject_Z (hit_count s))%Q as Hq1.
  { rewrite <- (Zle_Qle 0). done. }
  assert (inject_Z (hit_count s) <= inject_Z (total_requests s))%Q as Hq2.
  { rewrite <- Zle_Qle. lia. }
  assert (0 < inject_Z (total_requests s))%Q as Hq3.
  { rewrite <- (Zlt_Qlt 0). done. }
  split.
  - apply Qmult_le_0_compat; [|lra].
    apply Qle_shift_div_l; [done|]. lra.
  - assert (inject_Z (hit_count s) / inject_Z (total_requests s) <= 1)%Q.
    { apply Qle_shift_div_r; [done|]. lra. }
    lra.
Qed.

(** *** The access order after removals *)

Lemma filter_ext_in {A} (P Q : A → Prop) `{∀ x, Decision (P x)}
      `{∀ x, Decision (Q x)} (l : list A) :
  (∀ x, x ∈ l → P x ↔ Q x) → filter P l = filter Q l.
Proof.
  induction l as [|x l IH]; intros Hext; [done|].
  rewrite !filter_cons.
  rewrite IH by (intros y Hy; apply Hext; set_solver).
  destruct (decide (P x)) as [HP|HP], (decide (Q x)) as [HQ|HQ]; try done.
  - exfalso. apply HQ, Hext; [set_solver | done].
  - exfalso. apply HP, Hext; [set_solver | done].
Qed.

Lemma list_remove_filter x l :
  NoDup l → list_remove x l = filter (fun y => y ≠ x) l.
Proof.
  induction l as [|y l IH]; intros Hnd; [done|].
  apply NoDup_cons in Hnd as [Hy Hnd]. cbn [list_remove]. rewrite filter_cons.
  destruct (decide (y = x)) as [->|Hne].
  - rewrite decide_False by (intros ?; done).
    rewrite <- IH by done. by rewrite list_remove_notin.
  - rewrite decide_True by done. by rewrite IH.
Qed.

Lemma remove_all_access_order keys s :
  NoDup (access_order s) →
  access_order (remove_all keys s) = filter (fun k => k ∉ keys) (access_order s).
Proof.
  revert s. induction keys as [|k keys IH]; intros s Hnd.
  - cbn. symmetry. induction (access_order s) as [|x l IHl]; [done|].
    rewrite filter_cons, decide_True by set_solver.
    f_equal. apply IHl. by apply NoDup_cons in Hnd as [_ ?].
  - cbn [remove_all foldl]. fold (remove_all keys (_remove_entry k s)).
    rewrite IH by (rewrite access_order_remove_entry; by apply NoDup_list_remove).
    rewrite access_order_remove_entry, list_remove_filter by done.
    rewrite list_filter_filter. apply filter_ext_in. intros x _. set_solver.
Qed.

(** After removals, the access order is what is left of the old one, in
    the old order. *)
Lemma remove_all_survivors keys s :
  in_sync s →
  access_order (remove_all keys s)
  = filter (fun k => is_Some (cache (remove_all keys s) !! k)) (access_order s).
Proof.
  intros [Hnd Hiff]. rewrite remove_all_access_order by done.
  apply filter_ext_in. intros k Hk. rewrite remove_all_lookup.
  apply Hiff in Hk. case_decide; [|done].
  split; [done | by intros [? ?]].
Qed.

Lemma elem_of_keys_of_person p s k :
  k ∈ keys_of_person p s
  ↔ ∃ e, cache s !! k = Some e
         ∧ RecognitionResult.person_id (CacheEntry.result e) = p.
Proof.
  unfold keys_of_person. rewrite list_elem_of_fmap. split.
  - intros [[k' e] [-> Hin]]. apply list_elem_of_filter in Hin as [Hp Hin].
    apply elem_of_map_to_list in Hin. by exists e.
  - intros [e [Hk Hp]]. exists (k, e). split; [done|].
    apply list_elem_of_filter. split; [done|]. by apply elem_of_map_to_list.
Qed.

(** X2: [invalidate] with a person id removes exactly the entries whose
    result names that person and keeps the others, in their access
    order; without an id it empties the map and the access order. Both
    leave map and access order in sync. *)
Theorem invalidate_removes_person
        (capacity ttl : Z) (t0 : datetime) (cs : list call) (p : string) :
  let s := run cs (init capacity ttl t0) in
  let s' := invalidate (Some p) s in
  (∀ k, cache s' !! k
        = match cache s !! k with
          | Some e =>
              if decide (RecognitionResult.person_id (CacheEntry.result e) = p)
              then None else Some e
          | None => None
          end)
  ∧ access_order s'
    = filter (fun k => is_Some (cache s' !! k)) (access_order s)
  ∧ in_sync s'
  ∧ cache (invalidate None s) = ∅
  ∧ access_order (invalidate None s) = []
  ∧ max_size s' = capacity.
Proof.
  intros s s'.
  assert (in_sync s) as Hs by apply run_in_sync, init_in_sync.
  split; [|split; [|split; [|split; [|split]]]].
  - intros k. subst s'. cbn [invalidate].
    fold (remove_all (keys_of_person p s) s). rewrite remove_all_lookup.
    case_decide as Hin.
    + apply elem_of_keys_of_person in Hin as (e & -> & Hp).
      by rewrite decide_True.
    + destruct (cache s !! k) as [e|] eqn:Hk; [|done].
      case_decide as Hp; [|done].
      exfalso. apply Hin, elem_of_keys_of_person. by exists e.
  - apply (remove_all_survivors (keys_of_person p s) s Hs).
  - by apply (remove_all_in_sync (keys_of_person p s)).
  - done.
  - done.
  - subst s' s. by rewrite invalidate_max_size, run_max_size.
Qed.

(** X3: a sweep at [now] keeps exactly the entries that are not past
    their time-to-live at [now], in their access order, so nothing
    expired is left; map and access order stay in sync. *)
Theorem sweep_keeps_unexpired
        (capacity ttl : Z) (t0 : datetime) (cs : list call) (now : datetime) :
  let s := run cs (init capacity ttl t0) in
  let s' := _cleanup_expired now s in
  (∀ k, cache s' !! k
        = match cache s !! k with
          | Some e => if CacheEntry.is_expired now e ttl then None else Some e
          | None => None
          end)
  ∧ access_order s'
    = filter (fun k => is_Some (cache s' !! k)) (access_order s)
  ∧ in_sync s'
  ∧ fresh_at now s'.
Proof.
  intros s s'.
  assert (in_sync s) as Hs by apply run_in_sync, init_in_sync.
  assert (ttl_seconds s = ttl) as Httl by apply run_ttl.
  assert (∀ k, cache s' !! k
               = match cache s !! k with
                 | Some e =>
                     if CacheEntry.is_expired now e ttl then None else Some e
                 | None => None
                 end) as Hlookup.
  { intros k. subst s'. by rewrite cleanup_expired_lookup, Httl. }
  split; [done|]. split; [|split].
  - apply (remove_all_survivors (expired_keys now s) s Hs).
  - by apply (remove_all_in_sync (expired_keys now s)).
  - intros k e Hk. rewrite Hlookup in Hk.
    assert (ttl_seconds s' = ttl) as ->.
    { subst s'. unfold _cleanup_expired.
      fold (remove_all (expired_keys now s) s). by rewrite remove_all_ttl. }
    destruct (cache s !! k) as [e0|]; [|done].
    destruct (CacheEntry.is_expired now e0 ttl) eqn:Hexp; [done|].
    by injection Hk as <-.
Qed.

Lemma remove_all_clock keys s :
  cleanup_interval (remove_all keys s) = cleanup_interval s
  ∧ last_cleanup (remove_all keys s) = last_cleanup s.
Proof.
  revert s. induction keys as [|k keys IH]; intros s; [done|].
  cbn [remove_all foldl]. fold (remove_all keys (_remove_entry k s)).
  destruct (IH (_remove_entry k s)) as [-> ->].
  unfold _remove_entry. by destruct (cache s !! k).
Qed.

(** X4: a sweep runs only when more than [cleanup_interval] seconds
    have passed since the last one, and it resets that clock: after a
    [put] that swept at [now], a [put] up to [cleanup_interval] seconds
    later sweeps nothing, whatever has expired meanwhile. *)
Theorem sweep_once_per_interval (s : t) (now later : datetime)
        (k k' : string) (r r' : RecognitionResult.t) :
  cleanup_interval s * 1000000 < now - last_cleanup s →
  later - now <= cleanup_interval s * 1000000 →
  last_cleanup (put now k r s) = now
  ∧ put later k' r' (put now k r s) = put_stored later k' r' (put now k r s).
Proof.
  intros Hdue Hsoon.
  destruct (put_stored_clock now k r s) as [Hl Hi].
  assert (last_cleanup (put now k r s) = now
          ∧ cleanup_interval (put now k r s) = cleanup_interval s)
    as [Hlast Hint].
  { rewrite put_unfold. unfold _maybe_cleanup.
    assert (Qlt_bool (inject_Z (cleanup_interval (put_stored now k r s)))
              (total_seconds (now - last_cleanup (put_stored now k r s)))
            = true) as ->.
    { apply seconds_lt_total_seconds. rewrite Hl, Hi. lia. }
    cbn. unfold _cleanup_expired.
    fold (remove_all (expired_keys now (put_stored now k r s))
                     (put_stored now k r s)).
    destruct (remove_all_clock (expired_keys now (put_stored now k r s))
                               (put_stored now k r s)) as [-> _].
    done. }
  split; [done|].
  rewrite (put_unfold later). unfold _maybe_cleanup.
  destruct (put_stored_clock later k' r' (put now k r s)) as [Hl' Hi'].
  destruct (Qlt_bool _ _) eqn:Hdue'; [|done].
  apply seconds_lt_total_seconds in Hdue'.
  rewrite Hl', Hi', Hlast, Hint in Hdue'. lia.
Qed.

Lemma sweep_once_per_interval_witness :
  let s := init 8 30 0 in
  last_cleanup (put 61000000 "a" (RecognitionResult.unknown 0) s) = 61000000
  ∧ put 121000000 "b" (RecognitionResult.unknown 0)
        (put 61000000 "a" (RecognitionResult.unknown 0) s)
    = put_stored 121000000 "b" (RecognitionResult.unknown 0)
        (put 61000000 "a" (RecognitionResult.unknown 0) s).
Proof.
  apply (sweep_once_per_interval (init 8 30 0) 61000000 121000000);
    cbn; lia.
Defined.

(** X5: a hit counts the access on the entry and leaves its result and
    its creation time as they were, and the other entries untouched:
    lookups do not extend the life of an entry, which expires at the
    same moment whether or not it was read. *)
Theorem hit_does_not_extend_life (s : t) (now : datetime) (k : string)
        (e : CacheEntry.t) :
  cache s !! k = Some e →
  CacheEntry.is_expired now e (ttl_seconds s) = false →
  let s' := (get now k s).2 in
  cache s' !! k
  = Some (CacheEntry.mk (CacheEntry.result e) (CacheEntry.timestamp e)
                        (CacheEntry.frame_hash e) (CacheEntry.hit_count e + 1))
  ∧ (∀ k', k' ≠ k → cache s' !! k' = cache s !! k')
  ∧ ttl_seconds s' = ttl_seconds s
  ∧ ∀ later e', cache s' !! k = Some e' →
      CacheEntry.is_expired later e' (ttl_seconds s')
      = CacheEntry.is_expired later e (ttl_seconds s).
Proof.
  intros Hk Hexp s'. subst s'. rewrite (get_hit _ _ _ _ Hk Hexp). cbn.
  split; [apply lookup_insert_eq|]. split; [|split; [done|]].
  - intros k' Hne. by apply lookup_insert_ne.
  - intros later e'. rewrite lookup_insert_eq. by intros [= <-].
Qed.

Lemma hit_does_not_extend_life_witness :
  let s := put 0 "a" (RecognitionResult.unknown 0) (init 8 30 0) in
  cache (get 29000000 "a" s).2 !! "a"
  = Some (CacheEntry.mk (RecognitionResult.unknown 0) 0 "a" 1)
  ∧ ttl_seconds (get 29000000 "a" s).2 = ttl_seconds s.
Proof.
  intros s.
  pose proof (hit_does_not_extend_life s 29000000 "a"
                (CacheEntry.mk (RecognitionResult.unknown 0) 0 "a" 0)
                eq_refl eq_refl) as Hhit.
  cbv zeta in Hhit. destruct Hhit as (Hentry & _ & Httl & _).
  split; [exact Hentry | exact Httl].
Defined.

(** *** The oldest entry *)

Lemma elem_of_timestamps s ts :
  ts ∈ timestamps s
  ↔ ∃ k e, cache s !! k = Some e ∧ CacheEntry.timestamp e = ts.
Proof.
  unfold timestamps. rewrite list_elem_of_fmap. split.
  - intros (e & -> & He). apply list_elem_of_fmap in He as ([k e'] & -> & Hin).
    apply elem_of_map_to_list in Hin. by exists k, e'.
  - intros (k & e & Hk & <-). exists e. split; [done|].
    apply list_elem_of_fmap. exists (k, e). split; [done|].
    by apply elem_of_map_to_list.
Qed.

Lemma foldr_min_spec (x : Z) (l : list Z) :
  foldr Z.min x l ∈ x :: l ∧ ∀ y, y ∈ x :: l → foldr Z.min x l <= y.
Proof.
  induction l as [|z l [IHin IHle]]; cbn.
  - split; [set_solver|]. intros y ->%list_elem_of_singleton. lia.
  - split.
    + destruct (Z.min_spec z (foldr Z.min x l)) as [[_ ->]|[_ ->]];
        [set_solver|].
      apply elem_of_cons in IHin as [->|?]; set_solver.
    + intros y Hy.
      assert (y = z ∨ y ∈ x :: l) as [->|Hy'] by set_solver; [lia|].
      specialize (IHle y Hy'). lia.
Qed.

(** X8: the age of the oldest entry is absent exactly for an empty
    cache; otherwise it is the age, in whole seconds, of some stored
    entry, and no stored entry is older. *)
Theorem oldest_entry_age (s : t) (now : datetime) :
  (_get_oldest_entry_age now s = None ↔ cache s = ∅)
  ∧ ∀ age, _get_oldest_entry_age now s = Some age →
      (∃ k e, cache s !! k = Some e
              ∧ age = int_seconds (now - CacheEntry.timestamp e))
      ∧ ∀ k e, cache s !! k = Some e →
               int_seconds (now - CacheEntry.timestamp e) <= age.
Proof.
  unfold _get_oldest_entry_age. split.
  - destruct (timestamps s) as [|first others] eqn:Hts.
    + split; [intros _|done].
      apply map_empty. intros k. destruct (cache s !! k) as [e|] eqn:Hk; [|done].
      assert (CacheEntry.timestamp e ∈ timestamps s) as Hin
          by (apply elem_of_timestamps; eauto).
      rewrite Hts in Hin. by apply elem_of_nil in Hin.
    + split; [done|]. intros Hempty.
      assert (first ∈ timestamps s) as Hin by (rewrite Hts; set_solver).
      apply elem_of_timestamps in Hin as (k & e & Hk & _).
      rewrite Hempty, lookup_empty in Hk. done.
  - intros age. destruct (timestamps s) as [|first others] eqn:Hts; [done|].
    intros [= <-].
    destruct (foldr_min_spec first others) as [Hin Hle].
    rewrite <- Hts in Hin, Hle. split.
    + apply elem_of_timestamps in Hin as (k & e & Hk & He).
      exists k, e. by rewrite He.
    + intros k e Hk. unfold int_seconds.
      apply Z.quot_le_mono; [lia|].
      assert (foldr Z.min first others <= CacheEntry.timestamp e); [|lia].
      apply Hle, elem_of_timestamps. eauto.
Qed.

Lemma oldest_entry_age_witness :
  let s := run [Put 2000000 "a" (RecognitionResult.unknown 0);
                Put 5000000 "b" (RecognitionResult.unknown 0)] (init 8 30 0) in
  _get_oldest_entry_age 9500000 s = Some 7
  ∧ ∀ k e, cache s !! k = Some e →
           int_seconds (9500000 - CacheEntry.timestamp e) <= 7.
Proof.
  intros s.
  assert (_get_oldest_entry_age 9500000 s = Some 7) as Hage
      by (vm_compute; reflexivity).
  split; [exact Hage|].
  destruct (oldest_entry_age s 9500000) as [_ Hold].
  destruct (Hold 7 Hage) as [_ Hle]. exact Hle.
Defined.

Lemma put_then_get_witness :
  (get (5000000 + 30000000) "a"
       (put 5000000 "a" (RecognitionResult.unknown 1) (init 8 30 0))).1
  = Some (RecognitionResult.unknown 1)
  ∧ (get (5000000 + 30000001) "a"
         (put 5000000 "a" (RecognitionResult.unknown 1) (init 8 30 0))).1
    = None.
Proof.
  split.
  - apply (put_then_get 5000000 30000000 "a" (RecognitionResult.unknown 1)
             (init 8 30 0)).
    cbn. lia.
  - apply (put_then_get 5000000 30000001 "a" (RecognitionResult.unknown 1)
             (init 8 30 0)).
    cbn. lia.
Defined.

Lemma overflow_drops_lru_witness :
  ∃ lru rest,
    access_order
      (run (map (Get 7) ["a"])
           (run (map (fun k => Put 7 k (RecognitionResult.unknown 7)) ["a"; "b"])
                (init 2 30 0)))
    = lru :: rest
    ∧ lru ∈ ["a"; "b"].
Proof.
  destruct (overflow_drops_lru 2 30 0 7 (fun _ => RecognitionResult.unknown 7)
              ["a"; "b"] ["a"] "c")
    as (lru & rest & Ho & Hin & _).
  - lia.
  - lia.
  - repeat constructor; set_solver.
  - reflexivity.
  - exists lru, rest. split; [exact Ho | exact Hin].
Defined.
End CacheExtras.

(** ** The frame throttle *)

Module OptimizerFacts.
Import PerformanceOptimizer.
Local Open Scope Z_scope.

Lemma should_process_frame_cases now s :
  (should_process_frame now s = (false, s)
   ∧ (total_seconds (now - last_process_time s) < min_process_interval s)%Q)
  ∨ (should_process_frame now s
     = (false, mk (frame_skip_count s + 1) (max_frame_skip s)
                  (last_process_time s) (target_fps s)
                  (min_process_interval s))
     ∧ (min_process_interval s <= total_seconds (now - last_process_time s))%Q
     ∧ frame_skip_count s + 1 <= max_frame_skip s)
  ∨ (should_process_frame now s
     = (true, mk 0 (max_frame_skip s) now (target_fps s)
                 (min_process_interval s))
     ∧ (min_process_interval s <= total_seconds (now - last_process_time s))%Q
     ∧ max_frame_skip s < frame_skip_count s + 1).
Proof.
  unfold should_process_frame.
  destruct (Qlt_bool _ _) eqn:Hthrottle.
  - left. split; [done|]. by apply Qlt_bool_iff.
  - apply Qlt_bool_false_iff in Hthrottle. cbn.
    destruct (frame_skip_count s + 1 <=? max_frame_skip s) eqn:Hskip.
    + right. left. apply Z.leb_le in Hskip. done.
    + right. right. apply Z.leb_gt in Hskip. done.
Qed.

(** X9: after a frame has been accepted at [now], the next
    [max_frame_skip] calls are all refused, and the next accepted frame
    comes at least [min_process_interval] seconds after [now]. *)
Theorem accepted_frames_are_apart (s s' : t) (now : datetime)
        (times : list datetime) (i : nat) (current_time : datetime) :
  should_process_frame now s = (true, s') →
  times !! i = Some current_time →
  answers times s' !! i = Some true →
  max_frame_skip s <= Z.of_nat i
  ∧ ((∀ j, (j < i)%nat → answers times s' !! j = Some false) →
     (min_process_interval s <= total_seconds (current_time - now))%Q).
Proof.
  intros Htrue Ht Hans.
  assert (∀ times s0 i t,
            0 <= frame_skip_count s0 →
            times !! i = Some t →
            answers times s0 !! i = Some true →
            max_frame_skip s0 - frame_skip_count s0 <= Z.of_nat i
            ∧ ((∀ j, (j < i)%nat → answers times s0 !! j = Some false) →
               (min_process_interval s0
                <= total_seconds (t - last_process_time s0))%Q)) as Hgen.
  { clear. induction times as [|t0 rest IH]; intros s0 i t Hc Ht Hans; [done|].
    cbn [answers] in Hans.
    destruct (should_process_frame_cases t0 s0)
      as [[Hcall _]|[(Hcall & Hq & Hz)|(Hcall & Hq & Hz)]];
      rewrite Hcall in Hans.
    - destruct i as [|i]; [done|]. cbn in Ht, Hans.
      destruct (IH s0 i t Hc Ht Hans) as [Hidx Htime]. split; [lia|].
      intros Hbefore. apply Htime. intros j Hj.
      specialize (Hbefore (S j) ltac:(lia)). cbn [answers] in Hbefore.
      by rewrite Hcall in Hbefore.
    - destruct i as [|i]; [done|]. cbn in Ht, Hans.
      assert (0 <= frame_skip_count
                     (mk (frame_skip_count s0 + 1) (max_frame_skip s0)
                         (last_process_time s0) (target_fps s0)
                         (min_process_interval s0))) as Hc' by (cbn; lia).
      destruct (IH _ i t Hc' Ht Hans) as [Hidx Htime].
      cbn in Hidx, Htime. split; [lia|].
      intros Hbefore. apply Htime. intros j Hj.
      specialize (Hbefore (S j) ltac:(lia)). cbn [answers] in Hbefore.
      by rewrite Hcall in Hbefore.
    - destruct i as [|i].
      + cbn in Ht. injection Ht as ->. split; [lia | done].
      + cbn in Ht, Hans.
        assert (0 <= frame_skip_count
                       (mk 0 (max_frame_skip s0) t0 (target_fps s0)
                           (min_process_interval s0))) as Hc' by (cbn; lia).
        destruct (IH _ i t Hc' Ht Hans) as [Hidx _].
        cbn in Hidx. split; [lia|].
        intros Hbefore. specialize (Hbefore 0%nat ltac:(lia)).
        cbn [answers] in Hbefore. by rewrite Hcall in Hbefore. }
  destruct (should_process_frame_cases now s)
    as [[Hcall _]|[(Hcall & _)|(Hcall & _)]];
    rewrite Hcall in Htrue; try done.
  injection Htrue as <-.
  assert (0 <= frame_skip_count
                 (mk 0 (max_frame_skip s) now (target_fps s)
                     (min_process_interval s))) as Hc' by (cbn; lia).
  destruct (Hgen times _ i current_time Hc' Ht Hans) as [Hidx Htime].
  cbn in Hidx, Htime. split; [lia | done].
Qed.

Lemma accepted_frames_are_apart_witness :
  2 <= Z.of_nat 2
  ∧ (should_process_frame 300000 (mk 2 2 0 10 (1 / 10)%Q)).1 = true
  ∧ answers [400000; 500000; 600000]
            (should_process_frame 300000 (mk 2 2 0 10 (1 / 10)%Q)).2
    = [false; false; true].
Proof.
  assert (should_process_frame 300000 (mk 2 2 0 10 (1 / 10)%Q)
          = (true, mk 0 2 300000 10 (1 / 10)%Q)) as Hcall by reflexivity.
  split; [|split; [by rewrite Hcall | by rewrite Hcall]].
  apply (accepted_frames_are_apart (mk 2 2 0 10 (1 / 10)%Q)
           (mk 0 2 300000 10 (1 / 10)%Q) 300000
           [400000; 500000; 600000] 2 600000 Hcall);
    reflexivity.
Defined.

(** X10: from a skip count [c] with [0 <= c <= max_frame_skip], and
    when the calls come at least [min_process_interval] seconds apart,
    exactly every ([max_frame_skip] + 1)-th of them is accepted: call
    number [i] is accepted exactly when [c + i + 1] is a multiple of
    [max_frame_skip + 1]. The bound on [c] is needed: once
    [set_frame_skip] has lowered [max_frame_skip] below the count, the
    next call that is not throttled is accepted whatever the count is
    ([count_beyond_maximum]). *)
Theorem every_nth_frame (s : t) (times : list datetime) (i : nat) (b : bool) :
  0 <= frame_skip_count s <= max_frame_skip s →
  (0 <= min_process_interval s)%Q →
  spaced (min_process_interval s) (last_process_time s) times →
  answers times s !! i = Some b →
  (b = true
   ↔ (frame_skip_count s + Z.of_nat i + 1) mod (max_frame_skip s + 1) = 0).
Proof.
  revert s i b. induction times as [|t rest IH]; intros s i b Hc Hq Hsp Hans;
    [done|].
  cbn [answers] in Hans. destruct Hsp as [Hfirst Hrest].
  destruct (should_process_frame_cases t s)
    as [[_ Hthrottled]|[(Hcall & _ & Hz)|(Hcall & _ & Hz)]].
  - exfalso. apply (Qlt_not_le _ _ Hthrottled Hfirst).
  - rewrite Hcall in Hans. destruct i as [|i]; cbn in Hans.
    + injection Hans as <-. split; [done|].
      rewrite Z.mod_small by lia. lia.
    + apply IH in Hans; cycle 1.
      * cbn. lia.
      * done.
      * cbn. clear -Hfirst Hrest Hq.
        destruct rest as [|t' rest']; [done|]. destruct Hrest as [H1 H2].
        split; [|done].
        assert (0 <= total_seconds (t - last_process_time s))%Q by lra.
        unfold total_seconds, Qle in *. cbn in *. lia.
      * cbn in Hans. rewrite Hans.
        replace (frame_skip_count s + Z.of_nat (S i) + 1)
          with (frame_skip_count s + 1 + Z.of_nat i + 1) by lia. done.
  - rewrite Hcall in Hans. destruct i as [|i]; cbn in Hans.
    + injection Hans as <-. split; [intros _|done].
      assert (frame_skip_count s = max_frame_skip s) as -> by lia.
      replace (max_frame_skip s + Z.of_nat 0 + 1)
        with (1 * (max_frame_skip s + 1)) by lia.
      apply Z.mod_mul. lia.
    + apply IH in Hans; cycle 1.
      * cbn. lia.
      * done.
      * done.
      * cbn in Hans. rewrite Hans.
        assert (frame_skip_count s = max_frame_skip s) as -> by lia.
        replace (max_frame_skip s + Z.of_nat (S i) + 1)
          with (0 + Z.of_nat i + 1 + 1 * (max_frame_skip s + 1)) by lia.
        rewrite Z.mod_add by lia. done.
Qed.
Lemma every_nth_frame_witness :
  answers [100000; 200000; 300000] (init 0) !! 2%nat = Some true
  ∧ (0 + Z.of_nat 2 + 1) mod (2 + 1) = 0.
Proof.
  assert (answers [100000; 200000; 300000] (init 0) !! 2%nat = Some true)
    as Hans by reflexivity.
  split; [exact Hans|].
  apply (every_nth_frame (init 0) [100000; 200000; 300000] 2 true).
  - cbn. lia.
  - discriminate.
  - repeat split; discriminate.
  - exact Hans.
  - reflexivity.
Defined.

(** With a count at or beyond the maximum, as [set_frame_skip] can
    leave it, a call that is not throttled is accepted. *)
Lemma count_beyond_maximum (s : t) (now : datetime) :
  max_frame_skip s <= frame_skip_count s →
  (min_process_interval s <= total_seconds (now - last_process_time s))%Q →
  (should_process_frame now s).1 = true.
Proof.
  intros Hcount Hspaced.
  destruct (should_process_frame_cases now s)
    as [[_ Hthrottled]|[(_ & _ & Hskip)|(-> & _)]]; [|lia|done].
  exfalso. apply (Qlt_not_le _ _ Hthrottled Hspaced).
Qed.

(** X11: whatever is asked for, [set_target_fps] keeps the rate between
    1 and 30 frames a second, so the interval between processed frames
    is between 1/30 s and 1 s, and [set_frame_skip] keeps the number of
    skipped frames between 0 and 10; a request within range is taken as
    it is. *)
Theorem settings_stay_in_range (s : t) (fps skip : Z) :
  1 <= target_fps (set_target_fps fps s) <= 30
  ∧ (1 / 30 <= min_process_interval (set_target_fps fps s) <= 1)%Q
  ∧ (min_process_interval (set_target_fps fps s)
     == 1 / inject_Z (target_fps (set_target_fps fps s)))%Q
  ∧ 0 <= max_frame_skip (set_frame_skip skip s) <= 10
  ∧ (1 <= fps <= 30 → target_fps (set_target_fps fps s) = fps)
  ∧ (0 <= skip <= 10 → max_frame_skip (set_frame_skip skip s) = skip).
Proof.
  cbn. split; [lia|]. split; [|split; [done|]].
  - set (f := Z.max 1 (Z.min 30 fps)).
    assert (1 <= f <= 30) as [Hlo Hhi] by lia.
    assert (1 <= inject_Z f)%Q by (unfold Qle; cbn; lia).
    assert (inject_Z f <= 30)%Q by (unfold Qle; cbn; lia).
    split.
    + apply Qle_shift_div_l; [lra|].
      setoid_replace (1 / 30)%Q with (1 # 30)%Q using relation Qeq
        by reflexivity.
      lra.
    + apply Qle_shift_div_r; [lra|]. lra.
  - split; [lia|]. split; lia.
Qed.

Lemma settings_stay_in_range_witness :
  target_fps (set_target_fps 24 (init 0)) = 24
  ∧ max_frame_skip (set_frame_skip 4 (init 0)) = 4.
Proof.
  destruct (settings_stay_in_range (init 0) 24 4) as (_ & _ & _ & _ & Hf & Hs).
  split; [apply Hf | apply Hs]; lia.
Defined.
End OptimizerFacts.

(** ** More on the identity matcher *)

Module RecognizerExtras.
Import FaceRecognizer FaceRecognizerSetup RecognizerFacts.
Local Open Scope Q_scope.

Section Matcher.
Context {Image : Type} `{Engine Image}.

(** Whatever the listings and comparisons do, the loop ends on its
    starting pair or on an enrolled person. *)
Lemma compare_persons_names self img persons best best' :
  compare_persons self img persons best = Returns best' →
  best' = best ∨ best'.2 ∈ persons.
Proof.
  revert best. induction persons as [|p rest IH]; intros best; cbn.
  - intros [= <-]. by left.
  - destruct (os_listdir _) as [files|]; [|done]. cbn.
    intros Hrun. apply IH in Hrun as [->|Hin]; [|right; set_solver].
    destruct (person_distances _ _ _ _); [by left|].
    case_match; [right; set_solver | by left].
Qed.

(** X12: whatever the face, the folders and the engine, the result of
    [recognize_face] names "unknown" or an enrolled person, its
    confidence lies in [0,1], it carries the time of the call, and it is
    marked known only with a confidence that reaches the threshold. *)
Theorem recognize_face_names_enrolled
        (self : t) (now : datetime) (face_image : option Image)
        (r : RecognitionResult.t) :
  recognize_face self now face_image = Returns r →
  (RecognitionResult.person_id r = "unknown"
   ∨ RecognitionResult.person_id r ∈ known_persons self)
  ∧ 0 <= RecognitionResult.confidence r <= 1
  ∧ RecognitionResult.timestamp r = now
  ∧ (RecognitionResult.is_known r = true →
     confidence_threshold self <= RecognitionResult.confidence r).
Proof.
  assert (∀ r0, r0 = RecognitionResult.unknown now →
                (RecognitionResult.person_id r0 = "unknown"
                 ∨ RecognitionResult.person_id r0 ∈ known_persons self)
                ∧ 0 <= RecognitionResult.confidence r0 <= 1
                ∧ RecognitionResult.timestamp r0 = now
                ∧ (RecognitionResult.is_known r0 = true →
                   confidence_threshold self <= RecognitionResult.confidence r0))
    as Hneutral.
  { intros r0 ->. cbn. split; [by left|]. split; [split; lra|]. done. }
  unfold recognize_face.
  destruct (negb DEEPFACE_AVAILABLE || negb (is_initialized self));
    [intros [= <-]; by apply Hneutral|].
  destruct face_image as [img|]; [|intros [= <-]; by apply Hneutral].
  destruct (image_size img =? 0)%Z; [intros [= <-]; by apply Hneutral|].
  destruct (match_face self now img) as [r'|] eqn:Hm; cbn;
    [|intros [= <-]; by apply Hneutral].
  intros [= <-]. unfold match_face in Hm.
  destruct (compare_persons self img (known_persons self) (PInf, "unknown"))
    as [[bd bp]|] eqn:Hc; [|done].
  cbn in Hm. injection Hm as <-. cbn.
  split; [|split; [apply confidence_unit_interval|split; [done|]]].
  - destruct (Qle_bool _ _); [|by left].
    apply compare_persons_names in Hc as [[= -> ->]|Hin]; [by left | by right].
  - intros Hk. by apply Qle_bool_iff.
Qed.

(** The outer loop as a fold, when every folder can be listed. *)
Lemma compare_persons_fold self img persons best :
  (∀ p, p ∈ persons →
        ∃ files, os_listdir (path_join (known_faces_path self) p)
                 = Returns files) →
  compare_persons self img persons best
  = Returns (foldl (fun b p => consider self img p b) best persons).
Proof.
  revert best. induction persons as [|p rest IH]; intros best Hls; [done|].
  destruct (Hls p) as [files Hp]; [set_solver|].
  rewrite (compare_persons_cons _ _ _ _ _ _ Hp). cbn [foldl].
  apply IH. intros q Hq. apply Hls. set_solver.
Qed.

(** Persons that are no closer than the best so far change nothing. *)
Lemma consider_not_closer self img persons a who :
  (∀ q, q ∈ persons →
        average_distance self img q = None
        ∨ ∃ b, average_distance self img q = Some b ∧ a <= b) →
  foldl (fun b p => consider self img p b) (Fin a, who) persons = (Fin a, who).
Proof.
  induction persons as [|q rest IH]; intros Hge; [done|].
  cbn [foldl]. unfold consider at 2.
  destruct (Hge q) as [->|(b & -> & Hb)]; [set_solver| |].
  - apply IH. intros q' Hq'. apply Hge. set_solver.
  - cbn. apply Qlt_bool_false_iff in Hb. rewrite Hb.
    apply IH. intros q' Hq'. apply Hge. set_solver.
Qed.

(** Persons that are farther than [a] leave a best distance above [a]. *)
Lemma consider_farther self img persons a best :
  lt_xfloat a best.1 = true →
  (∀ q, q ∈ persons →
        average_distance self img q = None
        ∨ ∃ b, average_distance self img q = Some b ∧ a < b) →
  lt_xfloat a (foldl (fun b p => consider self img p b) best persons).1 = true.
Proof.
  revert best. induction persons as [|q rest IH]; intros best Hbest Hgt;
    [done|].
  cbn [foldl]. apply IH; [|intros q' Hq'; apply Hgt; set_solver].
  unfold consider.
  destruct (Hgt q) as [->|(b & -> & Hb)]; [set_solver|done|].
  case_match; [|done]. cbn. by apply Qlt_bool_iff.
Qed.

(** X13: among the persons at the smallest average distance, the one
    enrolled first is selected: a later person replaces the best so far
    only when strictly closer. *)
Theorem first_closest_wins
        (self : t) (now : datetime) (img : Image)
        (before after : list string) (p : string) (a : Q) :
  DEEPFACE_AVAILABLE = true →
  is_initialized self = true →
  image_size img ≠ 0%Z →
  gallery_readable self →
  known_persons self = before ++ p :: after →
  average_distance self img p = Some a →
  (∀ q, q ∈ before →
        average_distance self img q = None
        ∨ ∃ b, average_distance self img q = Some b ∧ a < b) →
  (∀ q, q ∈ after →
        average_distance self img q = None
        ∨ ∃ b, average_distance self img q = Some b ∧ a <= b) →
  ∃ r, recognize_face self now (Some img) = Returns r
       ∧ RecognitionResult.distance r = Fin a
       ∧ RecognitionResult.person_id r
         = if RecognitionResult.is_known r then p else "unknown".
Proof.
  intros Hav Hinit Hsize Hls Hpersons Ha Hbefore Hafter.
  unfold recognize_face. rewrite Hav, Hinit. cbn.
  destruct (image_size img =? 0)%Z eqn:Hz; [by apply Z.eqb_eq in Hz|].
  unfold match_face. rewrite (compare_persons_fold _ _ _ _ Hls), Hpersons.
  rewrite foldl_app. cbn [foldl].
  pose proof (consider_farther self img before a (PInf, "unknown")
                eq_refl Hbefore) as Hfar.
  set (best := foldl (fun b q => consider self img q b) (PInf, "unknown") before)
    in *.
  assert (consider self img p best = (Fin a, p)) as ->.
  { unfold consider. by rewrite Ha, Hfar. }
  rewrite (consider_not_closer _ _ _ _ _ Hafter). cbn.
  eexists. split; [done|]. done.
Qed.
End Matcher.

Lemma recognize_face_names_enrolled_witness :
  let r := RecognitionResult.mk "alice" 0.8 true 5 (Fin 0.2) "VGG-Face" in
  recognize_face (H := Scenario.one_image_engine 0.2)
    Scenario.alice_enrolled 5 (Some ()) = Returns r
  ∧ (RecognitionResult.person_id r = "unknown"
     ∨ RecognitionResult.person_id r ∈ known_persons Scenario.alice_enrolled).
Proof.
  intros r.
  assert (recognize_face (H := Scenario.one_image_engine 0.2)
            Scenario.alice_enrolled 5 (Some ()) = Returns r) as Hr
      by reflexivity.
  split; [exact Hr|].
  apply (recognize_face_names_enrolled (H := Scenario.one_image_engine 0.2)
           Scenario.alice_enrolled 5 (Some ()) r Hr).
Defined.

Lemma first_closest_wins_witness :
  ∃ r, recognize_face (H := Fixture.twins_engine)
         Fixture.twins_enrolled 5 (Some ()) = Returns r
       ∧ RecognitionResult.distance r = Fin 0.3
       ∧ RecognitionResult.person_id r
         = if RecognitionResult.is_known r then "alice" else "unknown".
Proof.
  apply (first_closest_wins (H := Fixture.twins_engine)
           Fixture.twins_enrolled 5 () [] ["bob"] "alice" 0.3).
  - reflexivity.
  - reflexivity.
  - discriminate.
  - intros p Hp. cbn in Hp.
    apply elem_of_cons in Hp as [->|Hp]; [eexists; reflexivity|].
    apply list_elem_of_singleton in Hp as ->. eexists. reflexivity.
  - reflexivity.
  - reflexivity.
  - intros q Hq. by apply elem_of_nil in Hq.
  - intros q Hq. apply list_elem_of_singleton in Hq as ->.
    right. exists 0.3. split; [reflexivity | discriminate].
Defined.

(** *** The threshold *)

Section Threshold.
Context {Image : Type} `{Engine Image}.

(** X14: [set_confidence_threshold] keeps the threshold within [0,1].
    Asked for 0 or less it sets 0, and then every face that reaches the
    comparison is marked known, however far the closest person is; when
    no image could be compared at all the result is marked known and
    names "unknown". *)
Theorem zero_threshold_knows_everyone
        (self : t) (threshold : Q) (now : datetime) (img : Image)
        (r : RecognitionResult.t) :
  let self' := set_confidence_threshold threshold self in
  0 <= confidence_threshold self' <= 1
  ∧ (threshold <= 0 →
     match_face self' now img = Returns r →
     RecognitionResult.is_known r = true
     ∧ ((∀ p, p ∈ known_persons self →
              average_distance self' img p = None) →
        RecognitionResult.person_id r = "unknown"
        ∧ RecognitionResult.confidence r = 0)).
Proof.
  intros self'. split.
  - subst self'. cbn. unfold py_max, py_min.
    destruct (Qlt_bool threshold 1) eqn:E1.
    + apply Qlt_bool_iff in E1.
      destruct (Qlt_bool 0 threshold) eqn:E2; [|split; lra].
      apply Qlt_bool_iff in E2. split; lra.
    + destruct (Qlt_bool 0 1) eqn:E2; split; lra.
  - intros Hzero Hm.
    assert (confidence_threshold self' == 0) as Hthr.
    { subst self'. cbn. unfold py_max, py_min.
      destruct (Qlt_bool threshold 1) eqn:E1.
      - destruct (Qlt_bool 0 threshold) eqn:E2; [|reflexivity].
        apply Qlt_bool_iff in E2. lra.
      - apply Qlt_bool_false_iff in E1. lra. }
    unfold match_face in Hm.
    destruct (compare_persons self' img (known_persons self')
                              (PInf, "unknown")) as [[bd bp]|] eqn:Hc; [|done].
    cbn [obind] in Hm. injection Hm as <-.
    cbn [RecognitionResult.is_known RecognitionResult.person_id
         RecognitionResult.confidence fst snd].
    assert (Qle_bool (confidence_threshold self')
                     (_distance_to_confidence self' bd) = true) as Hknown.
    { apply Qle_bool_iff. rewrite Hthr.
      apply (confidence_unit_interval self' bd). }
    change (py_max 0 (py_min 1 threshold)) with (confidence_threshold self').
    split; [done|]. intros Hnone. rewrite Hknown.
    assert (∀ persons best,
              (∀ p, p ∈ persons → average_distance self' img p = None) →
              compare_persons self' img persons best = Returns (bd, bp) →
              best = (bd, bp)) as Hkeep.
    { clear. induction persons as [|p rest IH]; intros best Hn; cbn.
      - by intros [= ->].
      - pose proof (Hn p ltac:(set_solver)) as Hp.
        unfold average_distance in Hp.
        destruct (os_listdir _) as [files|]; [|done]. cbn.
        destruct (person_distances _ _ _ _); [|done].
        apply IH. intros q Hq. apply Hn. set_solver. }
    specialize (Hkeep _ _ Hnone Hc). by injection Hkeep as <- <-.
Qed.
End Threshold.

Lemma zero_threshold_knows_everyone_witness :
  let r := RecognitionResult.mk "alice" 0.1 true 5 (Fin 0.9) "VGG-Face" in
  match_face (H := Scenario.one_image_engine 0.9)
    (set_confidence_threshold (-1) Scenario.alice_enrolled) 5 () = Returns r
  ∧ RecognitionResult.is_known r = true.
Proof.
  intros r.
  assert (match_face (H := Scenario.one_image_engine 0.9)
            (set_confidence_threshold (-1) Scenario.alice_enrolled) 5 ()
          = Returns r) as Hr by reflexivity.
  split; [exact Hr|].
  destruct (zero_threshold_knows_everyone (H := Scenario.one_image_engine 0.9)
              Scenario.alice_enrolled (-1) 5 () r) as [_ Hzero].
  destruct Hzero as [Hknown _]; [discriminate | exact Hr | exact Hknown].
Defined.

(** *** Scanning the gallery *)

Section Setup.
Context {Image : Type} `{Engine Image} `{FileSystem}.

Lemma scan_persons_enrols self names acc o persons :
  scan_persons self names acc = (o, persons) →
  ∃ new,
    persons = acc ++ new
    ∧ (∀ p, p ∈ new → p ∈ names ∧ enrollable (known_faces_path self) p)
    ∧ (o = Returns () →
       ∀ p, p ∈ names → enrollable (known_faces_path self) p → p ∈ new).
Proof.
  revert acc. induction names as [|d rest IH]; intros acc; cbn.
  - intros [= <- <-]. exists []. rewrite app_nil_r.
    split; [done|]. split; [set_solver|]. intros _ p Hp. set_solver.
  - destruct (os_path_isdir (path_join (known_faces_path self) d)) eqn:Hdir.
    + destruct (os_listdir (path_join (known_faces_path self) d))
        as [files|] eqn:Hls.
      * destruct (filter (fun f => is_image_file f = true) files)
          as [|f fs] eqn:Himg.
        -- intros Hscan. apply IH in Hscan as (new & -> & Hsound & Hcomplete).
           exists new. split; [done|]. split.
           ++ intros p Hp. destruct (Hsound p Hp). set_solver.
           ++ intros Ho p Hp Hen. apply elem_of_cons in Hp as [->|Hp];
                [|by apply Hcomplete].
              exfalso. destruct Hen as (_ & files' & Hls' & f & Hf & Hfimg).
              rewrite Hls in Hls'. injection Hls' as <-.
              assert (f ∈ filter (fun f => is_image_file f = true) files) as Hin
                  by (by apply list_elem_of_filter).
              rewrite Himg in Hin. by apply elem_of_nil in Hin.
        -- intros Hscan. apply IH in Hscan as (new & -> & Hsound & Hcomplete).
           exists (d :: new). split; [by rewrite <- app_assoc|]. split.
           ++ intros p Hp. apply elem_of_cons in Hp as [->|Hp].
              ** split; [set_solver|]. split; [done|].
                 exists files. split; [done|]. exists f.
                 assert (f ∈ filter (fun f => is_image_file f = true) files)
                   as Hin by (rewrite Himg; set_solver).
                 by apply list_elem_of_filter in Hin as [? ?].
              ** destruct (Hsound p Hp). set_solver.
           ++ intros Ho p Hp Hen. apply elem_of_cons in Hp as [->|Hp];
                [set_solver|].
              specialize (Hcomplete Ho p Hp Hen). set_solver.
      * intros [= <- <-]. exists []. rewrite app_nil_r.
        split; [done|]. split; [set_solver | done].
    + intros Hscan. apply IH in Hscan as (new & -> & Hsound & Hcomplete).
      exists new. split; [done|]. split.
      * intros p Hp. destruct (Hsound p Hp). set_solver.
      * intros Ho p Hp Hen. apply elem_of_cons in Hp as [->|Hp];
          [|by apply Hcomplete].
        destruct Hen as [Hdir' _]. congruence.
Qed.

(** X15: when [initialize_database] succeeds, the recognizer is
    initialised and its persons are exactly the listed names that are
    folders with at least one image file, that is a file whose name
    ends in .jpg, .jpeg, .png or .bmp, in any case of the letters;
    there is at least one, and
    every folder of an enrolled person can be listed, which is what
    recognition needs. The threshold, the metric and the model are left
    alone. *)
Theorem initialize_database_enrols
        (path : option string) (self self' : t) :
  initialize_database path self = (true, self') →
  is_initialized self' = true
  ∧ known_persons self' ≠ []
  ∧ (∃ names,
       os_listdir (known_faces_path self') = Returns names
       ∧ ∀ p, p ∈ known_persons self'
              ↔ p ∈ names ∧ enrollable (known_faces_path self') p)
  ∧ gallery_readable self'
  ∧ confidence_threshold self' = confidence_threshold self
  ∧ distance_metric self' = distance_metric self
  ∧ model_name self' = model_name self.
Proof.
  unfold initialize_database.
  destruct (negb DEEPFACE_AVAILABLE); [done|].
  set (self1 := match path with
                | Some path =>
                    if String.eqb path "" then self
                    else with_known_faces_path path self
                | None => self
                end).
  assert (confidence_threshold self1 = confidence_threshold self
          ∧ distance_metric self1 = distance_metric self
          ∧ model_name self1 = model_name self) as (Hc & Hd & Hm).
  { subst self1. destruct path as [p|]; [|done]. by destruct (String.eqb p ""). }
  destruct (negb (os_path_exists (known_faces_path self1))); [done|].
  cbn [known_faces_path with_known_persons].
  destruct (os_listdir (known_faces_path self1)) as [names|] eqn:Hnames;
    [|done].
  destruct (scan_persons (with_known_persons [] self1) names [])
    as [[[]|] persons] eqn:Hscan; [|done].
  destruct persons as [|p0 persons]; [done|].
  intros [= <-]. cbn.
  apply scan_persons_enrols in Hscan as (new & Hnew & Hsound & Hcomplete).
  cbn in Hnew, Hsound, Hcomplete. subst new.
  split; [done|]. split; [done|]. split; [|split; [|done]].
  - exists names. split; [done|]. intros p. split; [apply Hsound|].
    intros [Hp Hen]. by apply Hcomplete.
  - intros p Hp. cbn in Hp. destruct (Hsound p Hp) as [_ (_ & files & Hls & _)].
    by exists files.
Qed.

(** X16: a call of [initialize_database] that fails leaves the
    initialised flag as it was, so a recognizer that was initialised
    stays so after a failed refresh; and when the gallery folder is
    missing, the persons enrolled before are kept as well. *)
Theorem failed_refresh_keeps_flag (path : option string) (self self' : t) :
  initialize_database path self = (false, self') →
  is_initialized self' = is_initialized self
  ∧ (os_path_exists (known_faces_path self') = false →
     known_persons self' = known_persons self)
  ∧ (DEEPFACE_AVAILABLE = true →
     os_path_exists (known_faces_path self') = true →
     ∀ p, p ∈ known_persons self' → enrollable (known_faces_path self') p).
Proof.
  unfold initialize_database.
  destruct (negb DEEPFACE_AVAILABLE) eqn:Hav.
  { intros [= <-]. split; [done|]. split; [done|].
    intros Hav'. rewrite Hav' in Hav. done. }
  set (self1 := match path with
                | Some path =>
                    if String.eqb path "" then self
                    else with_known_faces_path path self
                | None => self
                end).
  assert (is_initialized self1 = is_initialized self
          ∧ known_persons self1 = known_persons self) as (Hi & Hk).
  { subst self1. destruct path as [p|]; [|done]. by destruct (String.eqb p ""). }
  destruct (os_path_exists (known_faces_path self1)) eqn:Hex; cbn [negb].
  - cbn [known_faces_path with_known_persons].
    destruct (os_listdir (known_faces_path self1)) as [names|] eqn:Hnames.
    + destruct (scan_persons (with_known_persons [] self1) names [])
        as [[[]|] persons] eqn:Hscan.
      * destruct persons as [|p0 persons]; [|done].
        intros [= <-]. cbn. rewrite Hex. split; [done|]. split; [done|].
        intros _ _ p Hp. by apply elem_of_nil in Hp.
      * intros [= <-]. cbn. rewrite Hex. split; [done|]. split; [done|].
        intros _ _ p Hp.
        apply scan_persons_enrols in Hscan as (new & Hnew & Hsound & _).
        cbn in Hnew, Hsound. subst new. by apply Hsound.
    + intros [= <-]. cbn. rewrite Hex. split; [done|]. split; [done|].
      intros _ _ p Hp. by apply elem_of_nil in Hp.
  - intros [= <-]. split; [done|]. split; [done|]. intros _ Hex'. congruence.
Qed.
End Setup.

Lemma initialize_database_enrols_witness :
  initialize_database (H := Fixture.gallery_engine) (H0 := Fixture.gallery_files)
    None defaults
  = (true, with_database ["alice"] defaults)
  ∧ gallery_readable (H := Fixture.gallery_engine)
      (with_database ["alice"] defaults).
Proof.
  assert (initialize_database (H := Fixture.gallery_engine)
            (H0 := Fixture.gallery_files) None defaults
          = (true, with_database ["alice"] defaults)) as Hinit by reflexivity.
  split; [exact Hinit|].
  apply (initialize_database_enrols (H := Fixture.gallery_engine)
           (H0 := Fixture.gallery_files) None defaults _ Hinit).
Defined.

Lemma failed_refresh_keeps_flag_witness :
  is_initialized Scenario.alice_enrolled = true
  ∧ initialize_database (H := Fixture.gallery_engine)
      (H0 := Fixture.gallery_files) (Some "elsewhere") Scenario.alice_enrolled
    = (false, with_known_faces_path "elsewhere" Scenario.alice_enrolled)
  ∧ is_initialized (with_known_faces_path "elsewhere" Scenario.alice_enrolled)
    = is_initialized Scenario.alice_enrolled.
Proof.
  assert (initialize_database (H := Fixture.gallery_engine)
            (H0 := Fixture.gallery_files) (Some "elsewhere")
            Scenario.alice_enrolled
          = (false, with_known_faces_path "elsewhere" Scenario.alice_enrolled))
    as Hinit by reflexivity.
  split; [reflexivity|]. split; [exact Hinit|].
  apply (failed_refresh_keeps_flag (H := Fixture.gallery_engine)
           (H0 := Fixture.gallery_files) _ _ _ Hinit).
Defined.
End RecognizerExtras.

(** ** More on the orchestrator: what one frame does *)

Module AppExtras.
Import MemoryMirrorApp.
Local Open Scope Q_scope.

Section App.
Context {Frame Face : Type} `{AudioManager.Devices}.
Implicit Types self : t (Frame := Frame) (Face := Face).

Lemma announce_inv (c : clock) (person_id : string) self :
  ∃ o self' new,
    announce c person_id self = (o, self')
    ∧ calls self' = calls self ++ new
    ∧ (∃ message language,
         new `sublist_of` [get_person_profile_called person_id;
                           play_voice_message_called message language])
    ∧ recognition_cooldown self' = recognition_cooldown self
    ∧ (o = Returns () →
       last_recognition_time self'
       = <[person_id := time_recorded c]> (last_recognition_time self))
    ∧ (o = Raises →
       last_recognition_time self' = last_recognition_time self).
Proof.
  unfold announce, bind.
  destruct (person_database self) as [[[get|]]|] eqn:Hdb; cbn [ret].
  - unfold bind, call.
    destruct (get person_id) as [[[[message|] language]|]|] eqn:Hget;
      cbn [ret].
    + unfold play. cbn [audio_manager record_call].
      destruct (audio_manager self) as [a|] eqn:Ha.
      * destruct (AudioManager.play_voice_message _ _ _ _ a) as [played a'].
        eexists _, _, [_; _]. split; [reflexivity|]. cbn.
        rewrite <- app_assoc. split; [done|].
        split; [by exists message, (default "en" language)|]. done.
      * eexists _, _, [_]. split; [reflexivity|]. cbn. split; [done|].
        split; [|done]. exists "", "". by repeat constructor.
    + eexists _, _, [_]. split; [reflexivity|]. cbn. split; [done|].
      split; [|done]. exists "", "". by repeat constructor.
    + eexists _, _, [_]. split; [reflexivity|]. cbn. split; [done|].
      split; [|done]. exists "", "". by repeat constructor.
    + eexists _, _, [_]. split; [reflexivity|]. cbn. split; [done|].
      split; [|done]. exists "", "". by repeat constructor.
  - eexists _, _, []. split; [reflexivity|]. cbn. rewrite app_nil_r.
    split; [done|]. split; [|done]. exists "", "". by repeat constructor.
  - eexists _, _, []. split; [reflexivity|]. cbn. rewrite app_nil_r.
    split; [done|]. split; [|done]. exists "", "". by repeat constructor.
Qed.

Lemma process_frame_inv (c : clock) (frame : Frame) self :
  ∃ result status self' new,
    process_frame c frame self = (Returns (result, status), self')
    ∧ calls self' = calls self ++ new
    ∧ (∃ person_id message language,
         new `sublist_of` [detect_faces_called; extract_face_region_called;
                           recognize_face_called;
                           get_person_profile_called person_id;
                           play_voice_message_called message language])
    ∧ recognition_cooldown self' = recognition_cooldown self
    ∧ match result with
      | Some r =>
          status = "recognized"
          ∧ RecognitionResult.is_known r = true
          ∧ recognize_face_called ∈ new
          ∧ if should_play_message (time_checked c)
                 (RecognitionResult.person_id r) self
            then last_recognition_time self'
                 = <[RecognitionResult.person_id r := time_recorded c]>
                     (last_recognition_time self)
            else last_recognition_time self' = last_recognition_time self
                 ∧ audio_manager self' = audio_manager self
                 ∧ ∀ message language,
                     play_voice_message_called message language ∉ new
      | None =>
          status ∈ ["error"; "ready"; "unknown"]
          ∧ last_recognition_time self' = last_recognition_time self
      end.
Proof.
  pose proof I as Hstart.
  unfold process_frame, try_catch.
  destruct (face_detector self) as [[[detect|] extract]|] eqn:Hdet;
    cbn [ret];
    [ | eexists None, _, _, []; rewrite app_nil_r;
        (split; [reflexivity|]); (split; [done|]);
        (split; [exists "", "", ""; by repeat constructor|]);
        split; [done|]; split; [set_solver | done] .. ].
  unfold bind at 1. unfold call at 1.
  destruct (detect frame) as [[|face_data rest]|] eqn:Hfaces; cbn [ret].
  - eexists None, _, _, [_]. split; [reflexivity|]. cbn.
    split; [done|]. split; [exists "", "", ""; by repeat constructor|].
    split; [done|]. split; [set_solver | done].
  - cbn [face_recognizer record_call].
    destruct (face_recognizer self) as [recognizer|] eqn:Hrec; cbn [ret].
    + unfold try_catch, process_first_face.
      set (self1 := record_call detect_faces_called self).
      assert (∃ new1, calls self1 = calls self ++ new1
                      ∧ new1 `sublist_of` [detect_faces_called]
                      ∧ last_recognition_time self1
                        = last_recognition_time self
                      ∧ recognition_cooldown self1 = recognition_cooldown self
                      ∧ audio_manager self1 = audio_manager self)
        as Hself1 by (exists [detect_faces_called]; done).
      clearbody self1.
      unfold bind at 1.
      set (region :=
             match extract with
             | Some extract =>
                 call extract_face_region_called (extract frame face_data)
             | None => fun self => (crop self frame face_data, self)
             end self1).
      assert (∃ new2, calls region.2 = calls self ++ new2
                      ∧ new2 `sublist_of` [detect_faces_called;
                                           extract_face_region_called]
                      ∧ last_recognition_time region.2
                        = last_recognition_time self
                      ∧ recognition_cooldown region.2
                        = recognition_cooldown self
                      ∧ audio_manager region.2 = audio_manager self)
        as Hregion.
      { destruct Hself1 as (new1 & Hc1 & Hs1 & Hl1 & Hr1 & Ha1).
        subst region. destruct extract as [extract|]; cbn.
        - exists (new1 ++ [extract_face_region_called]).
          rewrite Hc1, <- app_assoc. split; [done|].
          split; [|done].
          by apply (sublist_app _ [detect_faces_called] _
                      [extract_face_region_called]).
        - exists new1. split; [done|]. split; [|done].
          by apply (sublist_inserts_r [extract_face_region_called]) in Hs1. }
      clearbody region. destruct region as [[face_region|] self2];
        cbn [snd] in Hregion;
        destruct Hregion as (new2 & Hc2 & Hs2 & Hl2 & Hr2 & Ha2).
      * destruct (recognize_face recognizer) as [recognize|]; cbn [ret].
        -- unfold bind at 1. unfold call at 1.
           destruct (recognize face_region) as [[r|]|]; cbn [ret].
           ++ destruct (RecognitionResult.is_known r) eqn:Hknown; cbn [ret].
              ** unfold bind, when.
                 change (should_play_message (time_checked c)
                           (RecognitionResult.person_id r)
                           (record_call recognize_face_called self2))
                   with (Qlt_bool (recognition_cooldown self2)
                           (time_checked c
                            - default 0 (last_recognition_time self2
                                         !! RecognitionResult.person_id r))).
                 unfold should_play_message. rewrite Hl2, Hr2.
                 destruct (Qlt_bool _ _) eqn:Hgate.
                 --- destruct (announce_inv c (RecognitionResult.person_id r)
                                 (record_call recognize_face_called self2))
                       as (o & self3 & new3 & Hann & Hc3 & (m & l & Hs3)
                           & Hr3 & Hl3 & Hl3').
                     rewrite Hann. cbn [calls record_call] in Hc3.
                     rewrite Hc2, <- !app_assoc in Hc3.
                     cbn [recognition_cooldown last_recognition_time
                            record_call] in Hr3, Hl3, Hl3'.
                     destruct o as [[]|]; cbn [ret].
                     +++ eexists (Some r), _, _, _.
                         split; [reflexivity|]. split; [exact Hc3|].
                         split.
                         { exists (RecognitionResult.person_id r), m, l.
                           apply (sublist_app _
                                    [detect_faces_called;
                                     extract_face_region_called] _
                                    (recognize_face_called
                                       :: [get_person_profile_called _;
                                           play_voice_message_called m l]));
                             [done|]. by apply sublist_skip. }
                         split; [congruence|]. split; [done|].
                         split; [done|]. split; [set_solver|].
                         unfold should_play_message. rewrite Hgate.
                         rewrite Hl3 by done. by rewrite Hl2.
                     +++ eexists None, _, _, _.
                         split; [reflexivity|]. split; [exact Hc3|].
                         split.
                         { exists (RecognitionResult.person_id r), m, l.
                           apply (sublist_app _
                                    [detect_faces_called;
                                     extract_face_region_called] _
                                    (recognize_face_called
                                       :: [get_person_profile_called _;
                                           play_voice_message_called m l]));
                             [done|]. by apply sublist_skip. }
                         split; [congruence|]. split; [set_solver|].
                         rewrite Hl3' by done. done.
                 --- eexists (Some r), _, _, (new2 ++ [recognize_face_called]).
                     split; [reflexivity|]. cbn.
                     rewrite Hc2, <- app_assoc. split; [done|].
                     split.
                     { exists "", "", "".
                       apply (sublist_app _
                                [detect_faces_called;
                                 extract_face_region_called] _
                                [recognize_face_called;
                                 get_person_profile_called "";
                                 play_voice_message_called "" ""]);
                         [done|]. by repeat constructor. }
                     split; [done|]. split; [done|]. split; [done|].
                     split; [set_solver|].
                     unfold should_play_message. rewrite Hgate.
                     split; [done|]. split; [done|].
                     intros m l [Hin|Hin]%elem_of_app; [|set_solver].
                     eapply elem_of_sublist in Hin; [|exact Hs2].
                     set_solver.
              ** eexists None, _, _, (new2 ++ [recognize_face_called]).
                 split; [reflexivity|]. cbn.
                 rewrite Hc2, <- app_assoc. split; [done|].
                 split.
                 { exists "", "", "".
                   apply (sublist_app _
                            [detect_faces_called; extract_face_region_called] _
                            [recognize_face_called;
                             get_person_profile_called "";
                             play_voice_message_called "" ""]);
                     [done|]. by repeat constructor. }
                 split; [done|]. split; [set_solver | done].
           ++ eexists None, _, _, (new2 ++ [recognize_face_called]).
              split; [reflexivity|]. cbn.
              rewrite Hc2, <- app_assoc. split; [done|].
              split.
              { exists "", "", "".
                apply (sublist_app _
                         [detect_faces_called; extract_face_region_called] _
                         [recognize_face_called;
                          get_person_profile_called "";
                          play_voice_message_called "" ""]);
                  [done|]. by repeat constructor. }
              split; [done|]. split; [set_solver | done].
           ++ eexists None, _, _, (new2 ++ [recognize_face_called]).
              split; [reflexivity|]. cbn.
              rewrite Hc2, <- app_assoc. split; [done|].
              split.
              { exists "", "", "".
                apply (sublist_app _
                         [detect_faces_called; extract_face_region_called] _
                         [recognize_face_called;
                          get_person_profile_called "";
                          play_voice_message_called "" ""]);
                  [done|]. by repeat constructor. }
              split; [done|]. split; [set_solver | done].
        -- eexists None, _, _, new2. split; [reflexivity|].
           split; [done|]. split.
           { exists "", "", "".
             by apply (sublist_inserts_r
                         [recognize_face_called;
                          get_person_profile_called "";
                          play_voice_message_called "" ""]) in Hs2. }
           split; [done|]. split; [set_solver | done].
      * eexists None, _, _, new2. split; [reflexivity|].
        split; [done|]. split.
        { exists "", "", "".
          by apply (sublist_inserts_r
                      [recognize_face_called;
                       get_person_profile_called "";
                       play_voice_message_called "" ""]) in Hs2. }
        split; [done|]. split; [set_solver | done].
    + eexists None, _, _, [_]. split; [reflexivity|]. cbn.
      split; [done|]. split; [exists "", "", ""; by repeat constructor|].
      split; [done|]. split; [set_solver | done].
  - eexists None, _, _, [_]. split; [reflexivity|]. cbn.
    split; [done|]. split; [exists "", "", ""; by repeat constructor|].
    split; [done|]. split; [set_solver | done].
Qed.

(** X17: [process_frame] always returns, whatever its collaborators
    raise: its status is one of "error", "ready", "unknown" and
    "recognized", it returns a result exactly with "recognized", that
    result is a known person, and a frame that recognises nobody
    records no announcement. *)
Theorem process_frame_always_answers (c : clock) (frame : Frame) self :
  ∃ result status self',
    process_frame c frame self = (Returns (result, status), self')
    ∧ status ∈ ["error"; "ready"; "unknown"; "recognized"]
    ∧ (is_Some result ↔ status = "recognized")
    ∧ (∀ r, result = Some r → RecognitionResult.is_known r = true)
    ∧ (result = None →
       last_recognition_time self' = last_recognition_time self).
Proof.
  destruct (process_frame_inv c frame self)
    as (result & status & self' & new & Hrun & _ & _ & _ & Hresult).
  exists result, status, self'. split; [exact Hrun|].
  destruct result as [r|].
  - destruct Hresult as (-> & Hknown & _). split; [set_solver|].
    split; [done|]. split; [|done]. by intros ? [= <-].
  - destruct Hresult as [Hstatus Hlast]. split; [set_solver|].
    split; [|done]. split; [by intros [? ?]|].
    intros ->. set_solver.
Qed.

(** X18: one frame makes each of its calls at most once and in this
    order: [detect_faces], [extract_face_region], [recognize_face],
    [get_person_profile], [play_voice_message]. However many faces the
    detector returns, at most one is recognised and at most one
    greeting is requested. *)
Theorem one_face_per_frame (c : clock) (frame : Frame) self :
  ∃ new person_id message language,
    calls (process_frame c frame self).2 = calls self ++ new
    ∧ new `sublist_of` [detect_faces_called; extract_face_region_called;
                        recognize_face_called;
                        get_person_profile_called person_id;
                        play_voice_message_called message language].
Proof.
  destruct (process_frame_inv c frame self)
    as (result & status & self' & new & Hrun & Hcalls
        & (person_id & message & language & Hsub) & _).
  exists new, person_id, message, language. by rewrite Hrun.
Qed.

(** X19: when a frame recognises a person for whom the gate is open,
    the time of the announcement is recorded, whether or not a
    greeting could be played, and the gate is closed for that person
    until more than [recognition_cooldown] seconds have passed since
    the recorded time. *)
Theorem announced_person_waits (c : clock) (frame : Frame) self self'
        (r : RecognitionResult.t) (status : string) :
  process_frame c frame self = (Returns (Some r, status), self') →
  should_play_message (time_checked c) (RecognitionResult.person_id r) self
  = true →
  last_recognition_time self' !! RecognitionResult.person_id r
  = Some (time_recorded c)
  ∧ ∀ now, now - time_recorded c <= recognition_cooldown self →
           should_play_message now (RecognitionResult.person_id r) self'
           = false.
Proof.
  intros Hrun Hgate.
  destruct (process_frame_inv c frame self)
    as (result & status' & self'' & new & Hrun' & _ & _ & Hcool & Hresult).
  rewrite Hrun in Hrun'. injection Hrun' as <- <- <-.
  destruct Hresult as (_ & _ & _ & Hlast). rewrite Hgate in Hlast.
  assert (last_recognition_time self' !! RecognitionResult.person_id r
          = Some (time_recorded c)) as Hlookup
      by (by rewrite Hlast, lookup_insert_eq).
  split; [exact Hlookup|]. intros now Hnow.
  unfold should_play_message. rewrite Hlookup, Hcool. cbn [default].
  apply Qlt_bool_false_iff. done.
Qed.

(** X20: when a frame recognises a person for whom the gate is closed,
    the person is still reported as recognised, but no greeting is
    requested, the audio manager is left alone and the recorded time
    of the last announcement is not moved. *)
Theorem closed_gate_is_silent (c : clock) (frame : Frame) self self'
        (r : RecognitionResult.t) (status : string) :
  process_frame c frame self = (Returns (Some r, status), self') →
  should_play_message (time_checked c) (RecognitionResult.person_id r) self
  = false →
  status = "recognized"
  ∧ last_recognition_time self' = last_recognition_time self
  ∧ audio_manager self' = audio_manager self
  ∧ ∀ message language,
      play_voice_message_called message language ∈ calls self' →
      play_voice_message_called message language ∈ calls self.
Proof.
  intros Hrun Hgate.
  destruct (process_frame_inv c frame self)
    as (result & status' & self'' & new & Hrun' & Hcalls & _ & _ & Hresult).
  rewrite Hrun in Hrun'. injection Hrun' as <- <- <-.
  destruct Hresult as (-> & _ & _ & Hlast). rewrite Hgate in Hlast.
  destruct Hlast as (Hlast & Haudio & Hsilent).
  split; [done|]. split; [done|]. split; [done|].
  intros message language. rewrite Hcalls.
  intros [Hin|Hin]%elem_of_app; [done|]. by apply Hsilent in Hin.
Qed.
End App.

Lemma announced_person_waits_witness :
  last_recognition_time Scenario.alice_announced !! "alice" = Some 100
  ∧ should_play_message 130 "alice" Scenario.alice_announced = false.
Proof.
  destruct (announced_person_waits (H := Scenario.kiosk_devices)
              {| time_checked := 100; datetime_now := 100000000;
                 time_recorded := 100 |}
              "alice" Scenario.kiosk Scenario.alice_announced
              (RecognitionResult.mk "alice" 0.8 true 0 (Fin 0.2) "VGG-Face")
              "recognized" eq_refl eq_refl) as [Hrecorded Hclosed].
  split; [exact Hrecorded|].
  apply (Hclosed 130). unfold Qle; cbn; lia.
Defined.

Lemma closed_gate_is_silent_witness :
  (process_frame (H := Scenario.kiosk_devices)
     {| time_checked := 110; datetime_now := 110000000;
        time_recorded := 110 |}
     "alice" Scenario.alice_announced).1
  = Returns (Some (RecognitionResult.mk "alice" 0.8 true 0 (Fin 0.2)
                     "VGG-Face"), "recognized")
  ∧ last_recognition_time
      (process_frame (H := Scenario.kiosk_devices)
         {| time_checked := 110; datetime_now := 110000000;
            time_recorded := 110 |}
         "alice" Scenario.alice_announced).2
    = last_recognition_time Scenario.alice_announced.
Proof.
  split; [reflexivity|].
  destruct (closed_gate_is_silent (H := Scenario.kiosk_devices)
              {| time_checked := 110; datetime_now := 110000000;
                 time_recorded := 110 |}
              "alice" Scenario.alice_announced
              (process_frame (H := Scenario.kiosk_devices)
                 {| time_checked := 110; datetime_now := 110000000;
                    time_recorded := 110 |}
                 "alice" Scenario.alice_announced).2
              (RecognitionResult.mk "alice" 0.8 true 0 (Fin 0.2) "VGG-Face")
              "recognized" eq_refl eq_refl) as (_ & Hlast & _).
  exact Hlast.
Defined.
End AppExtras.

(** ** More on the audio manager *)

Module AudioExtras.
Import AudioManager AudioManagerControls.
Local Open Scope Z_scope.

Section Facts.
Context `{Devices}.

Lemma play_voice_message_last_played now message language person_id self :
  last_played (play_voice_message now message language person_id self).2
  = last_played self
  ∧ audio_enabled
      (play_voice_message now message language person_id self).2
    = audio_enabled self
  ∧ message_cooldown
      (play_voice_message now message language person_id self).2
    = message_cooldown self.
Proof.
  unfold play_voice_message.
  destruct (negb (audio_enabled self)); [done|].
  destruct (negb PYGAME_AVAILABLE); [done|].
  destruct (is_blank message); [done|].
  case_match; [done|].
  assert (last_played (stop_current_audio self) = last_played self
          ∧ audio_enabled (stop_current_audio self) = audio_enabled self
          ∧ message_cooldown (stop_current_audio self)
            = message_cooldown self) as Hstop.
  { unfold stop_current_audio. by destruct (PYGAME_AVAILABLE && _). }
  destruct (generate_speech message language) as [[audio_file|]|];
    [|done|done].
  by destruct (truthy audio_file).
Qed.

Lemma is_in_cooldown_later now now' person_id self :
  now ≤ now' →
  _is_in_cooldown now person_id self = false →
  _is_in_cooldown now' person_id self = false.
Proof.
  unfold _is_in_cooldown. intros Hlater.
  destruct (last_played self !! person_id) as [last|]; [|done].
  intros Hfree.
  destruct (Qlt_bool (total_seconds (now' - last)) _) eqn:Hnow'; [|done].
  apply total_seconds_lt_seconds in Hnow'.
  assert (now - last < message_cooldown self * 1000000) as Hnow by lia.
  apply total_seconds_lt_seconds in Hnow. congruence.
Qed.

(** X21: a message refused because audio is disabled, the message is
    blank (empty, or white space of Unicode only) or the person is in
    cooldown changes nothing: what is playing goes on. A message whose speech synthesis fails is refused
    as well, but by then the playback in progress has been stopped. *)
Theorem refusals (now : datetime) (message language : string)
        (person_id : option string) (self : t) :
  (audio_enabled self = false
   ∨ is_blank message = true
   ∨ (∃ p, person_id = Some p ∧ truthy p = true
           ∧ _is_in_cooldown now p self = true) →
   play_voice_message now message language person_id self = (false, self))
  ∧ (PYGAME_AVAILABLE = true →
     audio_enabled self = true →
     is_blank message = false →
     (∀ p, person_id = Some p → _is_in_cooldown now p self = false) →
     synthesis_failed message language →
     play_voice_message now message language person_id self
     = (false, stop_current_audio self)
     ∧ is_playing (stop_current_audio self) = false).
Proof.
  split.
  - unfold play_voice_message.
    intros [Hoff|[Hblank|(p & -> & Hp & Hcool)]].
    + by rewrite Hoff.
    + destruct (negb (audio_enabled self)); [done|].
      destruct (negb PYGAME_AVAILABLE); [done|]. by rewrite Hblank.
    + destruct (negb (audio_enabled self)); [done|].
      destruct (negb PYGAME_AVAILABLE); [done|].
      destruct (is_blank message); [done|]. by rewrite Hp, Hcool.
  - intros Hpy Hon Hmsg Hfree Hfail. unfold play_voice_message.
    rewrite Hon, Hpy, Hmsg. cbn [negb].
    assert (match person_id with
            | Some p => truthy p && _is_in_cooldown now p self
            | None => false
            end = false) as ->.
    { destruct person_id as [p|]; [|done].
      rewrite (Hfree p eq_refl). apply andb_false_r. }
    split.
    + destruct (generate_speech message language) as [[audio_file|]|] eqn:Hgen;
        [|done|done].
      by rewrite (Hfail audio_file Hgen).
    + unfold stop_current_audio. rewrite Hpy. cbn [andb].
      by destruct (is_playing self) eqn:Hplaying.
Qed.

(** X22: the cooldown of a person starts when the playback thread
    starts to play, not when the message is accepted: a message that
    was accepted is accepted again at any later moment, as long as no
    thread has entered [_play_audio_file] in between. *)
Theorem accepted_twice (now now' : datetime) (message language : string)
        (person_id : option string) (self self' : t) :
  play_voice_message now message language person_id self = (true, self') →
  now ≤ now' →
  ∃ audio_file,
    started self' = started self ++ [(audio_file, person_id)]
    ∧ play_voice_message now' message language person_id self'
      = (true, start_thread audio_file person_id self').
Proof.
  intros Hplay Hlater.
  destruct (play_voice_message_last_played now message language person_id self)
    as (Hlast & Hon & Hcool). rewrite Hplay in Hlast, Hon, Hcool.
  cbn [snd] in Hlast, Hon, Hcool.
  unfold play_voice_message in Hplay |- *. rewrite Hon.
  destruct (negb (audio_enabled self)); [done|].
  destruct (negb PYGAME_AVAILABLE) eqn:Hpy; [done|].
  destruct (is_blank message); [done|].
  destruct (match person_id with
            | Some p => truthy p && _is_in_cooldown now p self
            | None => false
            end) eqn:Hgate; [done|].
  assert (match person_id with
          | Some p => truthy p && _is_in_cooldown now' p self'
          | None => false
          end = false) as ->.
  { destruct person_id as [p|]; [|done].
    apply andb_false_iff in Hgate as [Hp|Hfree]; [by rewrite Hp|].
    apply andb_false_iff. right.
    apply (is_in_cooldown_later now now' p self Hlater) in Hfree.
    unfold _is_in_cooldown in Hfree |- *. by rewrite Hlast, Hcool. }
  destruct (generate_speech message language) as [[audio_file|]|];
    [|done|done].
  destruct (truthy audio_file); [|done].
  injection Hplay as <-. apply negb_false_iff in Hpy.
  assert (is_playing (stop_current_audio self) = false) as Hquiet.
  { unfold stop_current_audio. rewrite Hpy. cbn [andb].
    by destruct (is_playing self) eqn:Hplaying. }
  exists audio_file. split.
  { cbn. unfold stop_current_audio. by destruct (_ && _). }
  f_equal. f_equal. unfold stop_current_audio at 1.
  cbn [is_playing start_thread]. by rewrite Hquiet, andb_false_r.
Qed.

(** X23: once the playback thread of a message for a person has
    loaded an existing file and started to play it at time [begun],
    the time-stamp can be read back with [get_last_played_time] and
    further messages for that person are refused, and change nothing,
    until [message_cooldown] seconds have passed since [begun]. When
    the mixer cannot load or play the file, the thread resets
    [is_playing] and [current_audio_file] and records no time, so the
    person is not put in cooldown. *)
Theorem played_person_in_cooldown (begun now : datetime)
        (audio_file person_id message language : string) (self : t) :
  os_path_exists audio_file = true →
  truthy person_id = true →
  let self' := _play_audio_file_enter begun audio_file (Some person_id) self in
  (mixer_music_load audio_file = Returns () →
   mixer_music_play audio_file = Returns () →
   now - begun < message_cooldown self * 1000000 →
   get_last_played_time person_id self' = Some begun
   ∧ is_playing self' = true
   ∧ play_voice_message now message language (Some person_id) self'
     = (false, self'))
  ∧ (mixer_music_load audio_file = Raises
     ∨ mixer_music_play audio_file = Raises →
     is_playing self' = false
     ∧ current_audio_file self' = None
     ∧ last_played self' = last_played self
     ∧ waiting self' = waiting self).
Proof.
  intros Hfile Hp self'. split.
  - intros Hload Hplay Hsoon.
    assert (last_played self' !! person_id = Some begun
            ∧ message_cooldown self' = message_cooldown self
            ∧ is_playing self' = true) as (Hlast & Hcool & Hplaying).
    { subst self'. unfold _play_audio_file_enter.
      rewrite Hfile, Hload, Hplay, Hp. cbn. by rewrite lookup_insert_eq. }
    split; [exact Hlast|]. split; [exact Hplaying|].
    unfold play_voice_message.
    destruct (negb (audio_enabled self')); [done|].
    destruct (negb PYGAME_AVAILABLE); [done|].
    destruct (is_blank message); [done|].
    unfold _is_in_cooldown. rewrite Hlast, Hcool, Hp. cbn [andb].
    apply total_seconds_lt_seconds in Hsoon. by rewrite Hsoon.
  - subst self'. unfold _play_audio_file_enter. rewrite Hfile. cbn [negb].
    intros [Hload|Hplay].
    + by rewrite Hload.
    + rewrite Hplay. by destruct (mixer_music_load audio_file).
Qed.

(** X24: [disable_audio] stops what is playing and, until
    [enable_audio] is called, every message is refused without any
    effect; the recorded cooldowns survive disabling and enabling. *)
Theorem disable_audio_silences (self : t) :
  PYGAME_AVAILABLE = true →
  is_playing (disable_audio self) = false
  ∧ music_busy (disable_audio self) = music_busy self && negb (is_playing self)
  ∧ (∀ now message language person_id,
       play_voice_message now message language person_id (disable_audio self)
       = (false, disable_audio self))
  ∧ audio_enabled (enable_audio (disable_audio self)) = true
  ∧ last_played (enable_audio (disable_audio self)) = last_played self
  ∧ message_cooldown (enable_audio (disable_audio self))
    = message_cooldown self.
Proof.
  intros Hpy. unfold disable_audio, enable_audio, stop_current_audio.
  rewrite Hpy. cbn [andb].
  destruct (is_playing self) eqn:Hplaying; cbn.
  - by rewrite andb_false_r.
  - rewrite Hplaying. by rewrite andb_true_r.
Qed.

(** X25: the cooldown can be switched off in two ways. After
    [set_message_cooldown] with a number that is not positive, the
    cooldown is 0 and nobody is in cooldown at any time from their
    last playback on; after [clear_cooldown_history] nobody is in
    cooldown at all. A positive number is taken as it is. *)
Theorem cooldown_switched_off (seconds : Z) (now : datetime)
        (person_id : string) (self : t) :
  (seconds ≤ 0 →
   message_cooldown (set_message_cooldown seconds self) = 0
   ∧ (∀ last, last_played self !! person_id = Some last → last ≤ now →
              _is_in_cooldown now person_id
                (set_message_cooldown seconds self) = false))
  ∧ (0 < seconds →
     message_cooldown (set_message_cooldown seconds self) = seconds)
  ∧ _is_in_cooldown now person_id (clear_cooldown_history self) = false.
Proof.
  split; [|split].
  - intros Hneg. split; [cbn; lia|]. intros last Hlast Hpast.
    unfold _is_in_cooldown. cbn. rewrite Hlast.
    destruct (Qlt_bool _ _) eqn:Hcool; [|done].
    apply total_seconds_lt_seconds in Hcool. lia.
  - intros Hpos. cbn. lia.
  - unfold _is_in_cooldown. cbn. by rewrite lookup_empty.
Qed.

Lemma step_consistent (self self' : t) :
  step self self' → consistent self → consistent self'.
Proof.
  assert (∀ a, consistent a → consistent (stop_current_audio a)) as Hstop.
  { intros a [Hfile Hthread]. unfold stop_current_audio.
    destruct (PYGAME_AVAILABLE && is_playing a); [|done].
    split; cbn; [|done]. split; [done|]. by intros [? ?]. }
  assert (∀ a, consistent (_play_audio_file_except a)) as Hexcept.
  { intros a. split; cbn; [|done]. split; [done|]. by intros [? ?]. }
  intros Hstep Hok. destruct Hstep as
      [self self' Hmove|now message language person_id self|self|self|self
       |seconds self|self].
  - destruct Hok as [Hfile Hthread]. destruct Hmove as
        [now audio_file person_id rest self Hstarted|self Hsound
         |audio_file rest self Hwaiting Hquiet].
    + unfold _play_audio_file_enter.
      destruct (negb (os_path_exists audio_file)); [done|].
      destruct (mixer_music_load audio_file); [|apply Hexcept].
      destruct (mixer_music_play audio_file); [|apply Hexcept].
      split; cbn; [split; [by eexists | done]|].
      intros _ Hnil. by apply app_eq_nil in Hnil as [_ ?].
    + done.
    + split; cbn; [|done]. split; [done|]. by intros [? ?].
  - unfold play_voice_message.
    destruct (negb (audio_enabled self)); [done|].
    destruct (negb PYGAME_AVAILABLE); [done|].
    destruct (is_blank message); [done|].
    case_match; [done|]. specialize (Hstop self Hok).
    destruct (generate_speech message language) as [[audio_file|]|];
      [|done|done].
    by destruct (truthy audio_file).
  - by apply Hstop.
  - by apply Hstop.
  - done.
  - done.
  - done.
Qed.

(** X26: take each method call and each phase of a playback thread
    (entering [_play_audio_file] up to its wait loop or its [except]
    branch, the sound ending, leaving the wait loop) as one step. In
    every state the audio manager reaches from its initial state,
    [is_playing] is set exactly when [current_audio_file] names a
    file, and only while a playback thread is in its wait loop, which
    resets both when it leaves. *)
Theorem flags_consistent (enabled : bool) (cooldown : Z) (self : t) :
  rtc step (init enabled cooldown) self → consistent self.
Proof.
  intros Hreach.
  assert (consistent (init enabled cooldown)) as Hinit.
  { split; cbn; [|done]. split; [done|]. by intros [? ?]. }
  induction Hreach as [|a b c Hstep _ IH]; [done|].
  apply IH. by apply (step_consistent a b).
Qed.
End Facts.

Lemma refusals_witness :
  play_voice_message (H := Fixture.mute_devices)
    101000000 "Hello" "en" None Scenario.greeting_sounding
  = (false,
     stop_current_audio (H := Fixture.mute_devices) Scenario.greeting_sounding)
  ∧ is_playing Scenario.greeting_sounding = true
  ∧ is_playing
      (stop_current_audio (H := Fixture.mute_devices)
         Scenario.greeting_sounding) = false.
Proof.
  destruct (refusals (H := Fixture.mute_devices)
              101000000 "Hello" "en" None Scenario.greeting_sounding)
    as [_ Hfailed].
  destruct Hfailed as [Hplay Hquiet];
    [reflexivity | reflexivity | reflexivity | discriminate
     | intros audio_file; discriminate | ].
  split; [exact Hplay|]. split; [reflexivity | exact Hquiet].
Defined.

(** A message of one no-break space is blank: it is refused before
    the greeting in progress is stopped. *)
Example no_break_space_is_blank :
  is_blank Fixture.no_break_space = true
  ∧ play_voice_message (H := Fixture.mute_devices)
      101000000 Fixture.no_break_space "en" None Scenario.greeting_sounding
    = (false, Scenario.greeting_sounding).
Proof. split; reflexivity. Qed.

Lemma accepted_twice_witness :
  ∃ audio_file,
    started Scenario.greeting_started = [] ++ [(audio_file, None)]
    ∧ play_voice_message (H := Scenario.kiosk_devices)
        101000000 "Hello" "en" None Scenario.greeting_started
      = (true, start_thread audio_file None Scenario.greeting_started).
Proof.
  apply (accepted_twice (H := Scenario.kiosk_devices)
           100000000 101000000 "Hello" "en" None (init true 30)
           Scenario.greeting_started); [reflexivity | lia].
Defined.

Lemma played_person_in_cooldown_witness :
  (let self' := _play_audio_file_enter (H := Scenario.kiosk_devices)
                  100000000 "speech.mp3" (Some "alice") (init true 30) in
   get_last_played_time "alice" self' = Some 100000000
   ∧ is_playing self' = true
   ∧ play_voice_message (H := Scenario.kiosk_devices)
       110000000 "Hello" "en" (Some "alice") self'
     = (false, self'))
  ∧ (let self' := _play_audio_file_enter (H := Fixture.unreadable_devices)
                    100000000 "speech.mp3" (Some "alice") (init true 30) in
     is_playing self' = false
     ∧ get_last_played_time "alice" self' = None).
Proof.
  split.
  - destruct (played_person_in_cooldown (H := Scenario.kiosk_devices)
                100000000 110000000 "speech.mp3" "alice" "Hello" "en"
                (init true 30) eq_refl eq_refl) as [Hplayed _].
    apply Hplayed; [reflexivity | reflexivity | cbn; lia].
  - destruct (played_person_in_cooldown (H := Fixture.unreadable_devices)
                100000000 110000000 "speech.mp3" "alice" "Hello" "en"
                (init true 30) eq_refl eq_refl) as [_ Hfailed].
    destruct Hfailed as (Hflag & _ & Hlast & _); [by left|].
    split; [exact Hflag|].
    unfold get_last_played_time. rewrite Hlast. reflexivity.
Defined.

Lemma disable_audio_silences_witness :
  is_playing Scenario.greeting_sounding = true
  ∧ is_playing
      (disable_audio (H := Scenario.kiosk_devices) Scenario.greeting_sounding)
    = false.
Proof.
  split; [reflexivity|].
  apply (disable_audio_silences (H := Scenario.kiosk_devices)
           Scenario.greeting_sounding eq_refl).
Defined.

Lemma cooldown_switched_off_witness :
  message_cooldown (set_message_cooldown (-5) (init true 30)) = 0.
Proof.
  destruct (cooldown_switched_off (-5) 0 "alice" (init true 30))
    as [Hoff _].
  apply Hoff. lia.
Defined.

Lemma flags_consistent_witness :
  consistent Scenario.greeting_sounding.
Proof.
  apply (flags_consistent (H := Scenario.kiosk_devices) true 30).
  eapply rtc_l;
    [apply (plays (H := Scenario.kiosk_devices)
              100000000 "Hello" "en" None)|].
  eapply rtc_l; [|apply rtc_refl].
  apply (moves (H := Scenario.kiosk_devices)).
  apply (thread_enters (H := Scenario.kiosk_devices)
           100000000 "speech.mp3" None [] Scenario.greeting_started).
  reflexivity.
Defined.
End AudioExtras.

(** ** The face detector *)

Module DetectorFacts.
Import FaceDetector.
Local Open Scope Z_scope.

Lemma insert_by_area_perm f l : insert_by_area f l ≡ₚ f :: l.
Proof.
  induction l as [|g l IH]; cbn; [done|].
  destruct (area f <? area g); [|done].
  rewrite IH. apply Permutation_swap.
Qed.

Lemma sort_by_area_reverse_perm l : sort_by_area_reverse l ≡ₚ l.
Proof.
  induction l as [|f l IH]; cbn; [done|].
  fold (sort_by_area_reverse l). by rewrite insert_by_area_perm, IH.
Qed.

Lemma insert_by_area_sorted f l :
  Forall (fun g => id f < id g) l →
  StronglySorted before l →
  StronglySorted before (insert_by_area f l).
Proof.
  intros Hid Hsorted. induction Hsorted as [|g l Hsorted IH Hg]; cbn.
  - by repeat constructor.
  - apply Forall_cons in Hid as [Hfg Hid].
    destruct (area f <? area g) eqn:Hsmaller.
    + apply Z.ltb_lt in Hsmaller. constructor; [by apply IH|].
      rewrite insert_by_area_perm. constructor; [by left | done].
    + apply Z.ltb_ge in Hsmaller.
      assert (before f g) as Hbefore.
      { unfold before. destruct (decide (area g = area f)); [by right|].
        left. lia. }
      constructor; [by constructor|]. constructor; [done|].
      apply Forall_forall. intros k Hk.
      rewrite Forall_forall in Hg. rewrite Forall_forall in Hid.
      specialize (Hg k Hk). specialize (Hid k Hk).
      unfold before in *. lia.
Qed.

Lemma sort_by_area_reverse_sorted l :
  StronglySorted (fun f g => id f < id g) l →
  StronglySorted before (sort_by_area_reverse l).
Proof.
  induction 1 as [|f l Hsorted IH Hf]; cbn; [constructor|].
  fold (sort_by_area_reverse l).
  apply insert_by_area_sorted; [|done].
  by rewrite sort_by_area_reverse_perm.
Qed.

Lemma imap_ids_sorted (h : nat → Z * Z * Z * Z → face) (c : Z)
      (rects : list (Z * Z * Z * Z)) :
  (∀ i r, id (h i r) = Z.of_nat i + c) →
  StronglySorted (fun f g => id f < id g) (imap h rects).
Proof.
  revert h c. induction rects as [|r rects IH]; intros h c Hid; cbn;
    [constructor|].
  constructor.
  - apply (IH _ (c + 1)). intros i r'. cbn. rewrite Hid. lia.
  - apply Forall_forall. intros g (i & r' & -> & _)%elem_of_lookup_imap.
    cbn. rewrite !Hid. lia.
Qed.

Lemma before_area f g : before f g → area g ≤ area f.
Proof. unfold before. lia. Qed.

Lemma sorted_head_largest f faces :
  StronglySorted before (f :: faces) →
  ∀ g, g ∈ f :: faces → area g ≤ area f.
Proof.
  intros Hsorted g Hg. apply StronglySorted_inv in Hsorted as [_ Hf].
  apply elem_of_cons in Hg as [->|Hg]; [done|].
  rewrite Forall_forall in Hf. by apply before_area, Hf.
Qed.

Section Detect.
Context {Frame Gray : Type} `{Cascade Frame Gray}.

(** X27: [detect_faces] returns the faces largest first, and faces of
    one area in the order in which they were detected; so
    [get_largest_face] returns a face that no other face exceeds in
    area, and returns none only when no face was detected. When the
    cascade answers, every rectangle it reports appears exactly once;
    when it is missing, or the frame is, or OpenCV raises, the list is
    empty. *)
Theorem largest_face_first (face_cascade : bool) (frame : option Frame) :
  let faces := detect_faces face_cascade frame in
  StronglySorted before faces
  ∧ (∀ f, get_largest_face faces = Some f →
          f ∈ faces ∧ ∀ g, g ∈ faces → area g ≤ area f)
  ∧ (get_largest_face faces = None ↔ faces = [])
  ∧ (∀ image gray rects,
       frame = Some image → face_cascade = true →
       cvtColor_BGR2GRAY image = Returns gray →
       detectMultiScale gray = Returns rects →
       faces ≡ₚ imap (face_info gray) rects)
  ∧ (frame = None ∨ face_cascade = false
     ∨ (∃ image, frame = Some image ∧ cvtColor_BGR2GRAY image = Raises) →
     faces = []).
Proof.
  intros faces.
  assert (StronglySorted before faces) as Hsorted.
  { subst faces. unfold detect_faces.
    destruct frame as [image|]; [|constructor].
    destruct (negb face_cascade); [constructor|].
    destruct (cvtColor_BGR2GRAY image) as [gray|]; cbn; [|constructor].
    destruct (detectMultiScale gray) as [rects|]; cbn; [|constructor].
    apply sort_by_area_reverse_sorted.
    apply (imap_ids_sorted _ 0). intros i [[[x y] w] h]. cbn. lia. }
  split; [exact Hsorted|]. split; [|split; [|split]].
  - intros f Hf. destruct faces as [|f' rest]; [done|].
    injection Hf as ->. split; [set_solver|].
    by apply sorted_head_largest.
  - by destruct faces.
  - intros image gray rects -> -> Hgray Hrects. subst faces.
    unfold detect_faces. cbn [negb]. rewrite Hgray. cbn. rewrite Hrects. cbn.
    apply sort_by_area_reverse_perm.
  - subst faces. unfold detect_faces.
    intros [->|[->|(image & -> & Hgray)]]; [done| |].
    + by destruct frame.
    + destruct (negb face_cascade); [done|]. by rewrite Hgray.
Qed.
End Detect.

Lemma filter_sorted (P : face → Prop) `{∀ f, Decision (P f)} faces :
  StronglySorted before faces → StronglySorted before (filter P faces).
Proof.
  induction 1 as [|f l Hsorted IH Hf]; [constructor|].
  rewrite filter_cons. destruct (decide (P f)); [|done].
  constructor; [done|]. apply Forall_forall. intros g Hg.
  apply list_elem_of_filter in Hg as [_ Hg].
  rewrite Forall_forall in Hf. by apply Hf.
Qed.

(** X28: on a list that is sorted as [detect_faces] returns it,
    [filter_faces_by_quality] followed by [get_largest_face] gives a
    face that meets both thresholds and that no other such face of
    the list exceeds in area; it gives none exactly when no face
    meets both thresholds. *)
Theorem largest_qualifying_face (faces : list face) (min_confidence : Q)
        (min_size : Z) :
  StronglySorted before faces →
  let qualifies f :=
    (min_confidence <= confidence f)%Q ∧ min_size ≤ area f in
  let kept := filter_faces_by_quality faces min_confidence min_size in
  kept `sublist_of` faces
  ∧ (∀ f, f ∈ kept ↔ f ∈ faces ∧ qualifies f)
  ∧ (∀ f, get_largest_face kept = Some f →
          f ∈ faces ∧ qualifies f
          ∧ ∀ g, g ∈ faces → qualifies g → area g ≤ area f)
  ∧ (get_largest_face kept = None ↔ ∀ g, g ∈ faces → ¬ qualifies g).
Proof.
  intros Hsorted qualifies kept.
  assert (∀ f, f ∈ kept ↔ f ∈ faces ∧ qualifies f) as Hkept.
  { intros f. subst kept. unfold filter_faces_by_quality.
    rewrite list_elem_of_filter, andb_true_iff, !negb_true_iff.
    rewrite Qlt_bool_false_iff, Z.ltb_ge. subst qualifies. cbn. tauto. }
  assert (StronglySorted before kept) as Hsorted'
      by (by apply filter_sorted).
  split; [apply sublist_filter|]. split; [exact Hkept|]. split.
  - intros f Hf. destruct kept as [|f' rest] eqn:Hk; [done|].
    injection Hf as ->.
    destruct (Hkept f) as [[Hin Hq] _]; [set_solver|].
    split; [done|]. split; [done|]. intros g Hg Hgq.
    apply (sorted_head_largest f rest Hsorted'). apply Hkept. done.
  - destruct kept as [|f rest] eqn:Hk; cbn.
    + split; [|done]. intros _ g Hg Hq.
      assert (g ∈ []) as Hnil by (by apply Hkept). by apply elem_of_nil in Hnil.
    + split; [done|]. intros Hnone. exfalso.
      destruct (Hkept f) as [[Hin Hq] _]; [set_solver|].
      by apply (Hnone f).
Qed.

Lemma np_slice_inside (n start stop : Z) :
  0 ≤ start ≤ n → 0 ≤ stop ≤ n → np_slice n start stop = (start, stop).
Proof.
  intros Hstart Hstop. unfold np_slice.
  destruct (Z.ltb_spec start 0); [lia|].
  destruct (Z.ltb_spec stop 0); [lia|].
  f_equal; lia.
Qed.

Lemma face_window_inside (rows cols : Z) (face_coords : face) :
  0 ≤ rows → 0 ≤ cols →
  0 ≤ x face_coords + width face_coords + 20 →
  0 ≤ y face_coords + height face_coords + 20 →
  face_window rows cols face_coords
  = ((Z.min rows (Z.max 0 (y face_coords - 20)),
      Z.min rows (y face_coords + height face_coords + 20)),
     (Z.min cols (Z.max 0 (x face_coords - 20)),
      Z.min cols (x face_coords + width face_coords + 20))).
Proof.
  intros Hrows Hcols Hx Hy. unfold face_window, np_slice. cbn zeta.
  repeat match goal with
         | |- context [?a <? 0] => destruct (Z.ltb_spec a 0); [lia|]
         end.
  f_equal; f_equal; lia.
Qed.

(** X29: for a face box that lies within the frame,
    [extract_face_region] cuts out a window that lies within the
    frame, contains the box and exceeds it by at most 20 pixels on
    each side, and returns it resized to 160 by 160. For a box that
    starts 20 pixels or more beyond the right border the region is
    empty, and it is returned as it is, with no columns. *)
Theorem face_window_bounds (rows cols : Z) (face_coords : face) :
  (0 ≤ x face_coords → 0 ≤ y face_coords →
   0 < width face_coords → 0 < height face_coords →
   x face_coords + width face_coords ≤ cols →
   y face_coords + height face_coords ≤ rows →
   ∃ y_start y_end x_start x_end,
     face_window rows cols face_coords
     = ((y_start, y_end), (x_start, x_end))
     ∧ (0 ≤ x_start ≤ x face_coords
        ∧ x face_coords - 20 ≤ x_start
        ∧ x face_coords + width face_coords ≤ x_end ≤ cols
        ∧ x_end ≤ x face_coords + width face_coords + 20)
     ∧ (0 ≤ y_start ≤ y face_coords
        ∧ y face_coords - 20 ≤ y_start
        ∧ y face_coords + height face_coords ≤ y_end ≤ rows
        ∧ y_end ≤ y face_coords + height face_coords + 20)
     ∧ extract_face_region_shape rows cols face_coords = (160, 160))
  ∧ (0 ≤ rows → 0 ≤ cols → cols + 20 ≤ x face_coords →
     0 ≤ width face_coords → 0 ≤ y face_coords + height face_coords + 20 →
     (extract_face_region_shape rows cols face_coords).2 = 0).
Proof.
  split.
  - intros Hx Hy Hw Hh Hcols Hrows.
    eexists _, _, _, _.
    split; [apply face_window_inside; lia|].
    split; [lia|]. split; [lia|].
    unfold extract_face_region_shape.
    rewrite face_window_inside by lia. unfold slice_length. cbn [fst snd].
    destruct (Z.ltb_spec 0
                (Z.max 0 (Z.min rows (y face_coords + height face_coords + 20)
                          - Z.min rows (Z.max 0 (y face_coords - 20)))
                 * Z.max 0 (Z.min cols (x face_coords + width face_coords + 20)
                            - Z.min cols (Z.max 0 (x face_coords - 20)))))
      as [|Hempty]; [done|].
    exfalso. nia.
  - intros Hrows Hcols Hx Hw Hy.
    unfold extract_face_region_shape.
    rewrite face_window_inside by lia. unfold slice_length. cbn [fst snd].
    assert (Z.max 0 (Z.min cols (x face_coords + width face_coords + 20)
                     - Z.min cols (Z.max 0 (x face_coords - 20))) = 0)
      as -> by lia.
    rewrite Z.mul_0_r. done.
Qed.

Lemma largest_face_first_witness :
  id <$> detect_faces (H := Fixture.three_faces) true (Some ()) = [1; 2; 0]
  ∧ StronglySorted before
      (detect_faces (H := Fixture.three_faces) true (Some ())).
Proof.
  split; [reflexivity|].
  pose proof (largest_face_first (H := Fixture.three_faces) true (Some ()))
    as Hfaces.
  cbv zeta in Hfaces. destruct Hfaces as [Hsorted _]. exact Hsorted.
Defined.

Lemma largest_qualifying_face_witness :
  id <$> filter_faces_by_quality
           (detect_faces (H := Fixture.three_faces) true (Some ()))
           0.3 1000 = [1; 2]
  ∧ filter_faces_by_quality
      (detect_faces (H := Fixture.three_faces) true (Some ())) 0.3 1000
    `sublist_of` detect_faces (H := Fixture.three_faces) true (Some ()).
Proof.
  split; [reflexivity|].
  assert (StronglySorted before
            (detect_faces (H := Fixture.three_faces) true (Some ())))
    as Hsorted.
  { repeat constructor; unfold before; cbn; lia. }
  pose proof (largest_qualifying_face
                (detect_faces (H := Fixture.three_faces) true (Some ()))
                0.3 1000 Hsorted) as Hkept.
  cbv zeta in Hkept. destruct Hkept as [Hsub _]. exact Hsub.
Defined.

Lemma face_window_bounds_witness :
  extract_face_region_shape 480 640
    (mk 0 10 10 50 50 35 35 2500 0.6) = (160, 160).
Proof.
  destruct (face_window_bounds 480 640 (mk 0 10 10 50 50 35 35 2500 0.6))
    as [Hinside _].
  destruct Hinside as (y_start & y_end & x_start & x_end & _ & _ & _ & Hshape);
    [cbn; lia ..|].
  exact Hshape.
Defined.
End DetectorFacts.
